(** * ClawRouter: local backends, the claw.credit payment backend and the
    routing core

  A shallow embedding of the TypeScript sources of ClawRouter.

  - [LocalBackend]  : [getLocalBackend] of [src/local-backend.ts].
  - [LocalClaude]   : [handleLocalClaudeRequest] of the same file.
  - [Cli]           : [parseArgs] and [main] of the command line ([cli.ts]).
  - [EnvFile]       : the program of [scripts/setup-clawcredit.sh] that
                      rewrites the [.env] file.
  - [ClawCredit]    : [headersToObject], [parseJsonBody], [microsToUsd] and
                      [createClawCreditFetch] of the claw.credit payment
                      backend.
  - [Router]        : model-id normalisation, candidate chains, the session
                      pin store, response classification and the fallback
                      executor.  The file that implements them
                      ([src/proxy.ts]) is not part of the sources at hand;
                      these definitions follow the specification.

  A JavaScript string is modelled as what it is, a sequence of UTF-16 code
  units ([Utf16.string]); white space is the class of ECMAScript
  ([WhiteSpace] and [LineTerminator]).  The case mappings of the platform
  are taken from it ([Js.Runtime]); only their values on ASCII strings are
  fixed.  A JavaScript number is [NaN], an infinity, or the rational a
  finite double stands for, and every operation rounds as IEEE 754
  prescribes (to nearest, ties to even). *)

From stdpp Require Import base option list gmap fin_maps.
From Stdlib Require Import ZArith NArith QArith Qabs Qround Qpower Lqa Bool Lia.
From Stdlib.Strings Require Import Byte.
From Stdlib Require Import DecimalString DecimalN.

Local Open Scope list_scope.
Local Open Scope Z_scope.

(* ===================================================================== *)
(** * Part I: definitions                                                 *)
(* ===================================================================== *)

(** ** Strings of UTF-16 code units *)

Module Utf16.

(** A code unit, by its number (below 65536). *)
Inductive char := Char (code : N).

Definition code (c : char) : N :=
  match c with
  | Char n => n
  end.

Inductive string :=
| EmptyString
| String (c : char) (s : string).

(** Literals: ["abc"] is the string of the code units 97, 98, 99, and
    ["010"] as a character is the code unit 10. *)
Definition char_of_byte (b : Byte.byte) : char := Char (Byte.to_N b).

Definition byte_of_char (c : char) : option Byte.byte := Byte.of_N (code c).

Fixpoint of_bytes (l : list Byte.byte) : string :=
  match l with
  | [] => EmptyString
  | b :: rest => String (char_of_byte b) (of_bytes rest)
  end.

Fixpoint to_bytes (s : string) : option (list Byte.byte) :=
  match s with
  | EmptyString => Some []
  | String c s' =>
      match byte_of_char c, to_bytes s' with
      | Some b, Some l => Some (b :: l)
      | _, _ => None
      end
  end.

(** [a === b] on code units and on strings. *)
Definition char_eqb (a b : char) : bool := N.eqb (code a) (code b).

Fixpoint eqb (s t : string) : bool :=
  match s, t with
  | EmptyString, EmptyString => true
  | String a s', String b t' => char_eqb a b && eqb s' t'
  | _, _ => false
  end.

(** [s + t] *)
Fixpoint append (s t : string) : string :=
  match s with
  | EmptyString => t
  | String c s' => String c (append s' t)
  end.

(** [s.length] *)
Fixpoint length (s : string) : nat :=
  match s with
  | EmptyString => 0%nat
  | String _ s' => S (length s')
  end.

Fixpoint to_list (s : string) : list N :=
  match s with
  | EmptyString => []
  | String c s' => code c :: to_list s'
  end.

Fixpoint of_list (l : list N) : string :=
  match l with
  | [] => EmptyString
  | n :: rest => String (Char n) (of_list rest)
  end.

(** A text of the standard library (the digits of a printed number) as a
    string. *)
Fixpoint of_text (t : Stdlib.Strings.String.string) : string :=
  match t with
  | Stdlib.Strings.String.EmptyString => EmptyString
  | Stdlib.Strings.String.String a t' =>
      String (Char (Stdlib.Strings.Ascii.N_of_ascii a)) (of_text t')
  end.

#[global] Instance char_eq_dec : EqDecision char.
Proof. solve_decision. Defined.

#[global] Instance string_eq_dec : EqDecision string.
Proof. solve_decision. Defined.

#[global] Instance string_countable : Countable string.
Proof.
  refine (inj_countable' to_list of_list _).
  intros s. induction s as [|[n] s IH]; simpl; [reflexivity|].
  rewrite IH. reflexivity.
Defined.

End Utf16.
Export Utf16.

Declare Scope char16_scope.
Delimit Scope char16_scope with char.
Bind Scope char16_scope with char.
Declare Scope js_scope.
Delimit Scope js_scope with js.
Bind Scope js_scope with string.
String Notation char char_of_byte byte_of_char : char16_scope.
String Notation string of_bytes to_bytes : js_scope.
Infix "+:+" := Utf16.append (at level 60, right associativity) : js_scope.

#[local] Arguments Utf16.append !s t : simpl nomatch.

Local Open Scope js_scope.
Local Open Scope list_scope.
Local Open Scope Z_scope.

(** ** JavaScript string primitives used by the sources *)

Module JsString.

(** The case mappings on one ASCII letter; every other code unit is left
    as it is.  This is what [toLowerCase] and [toUpperCase] do to a string
    of ASCII characters. *)
Definition lower_char (c : char) : char :=
  let n := code c in
  if ((65 <=? n) && (n <=? 90))%N then Char (n + 32) else c.

Definition upper_char (c : char) : char :=
  let n := code c in
  if ((97 <=? n) && (n <=? 122))%N then Char (n - 32) else c.

Fixpoint asciiLowerCase (s : string) : string :=
  match s with
  | EmptyString => EmptyString
  | String c s' => String (lower_char c) (asciiLowerCase s')
  end.

Fixpoint asciiUpperCase (s : string) : string :=
  match s with
  | EmptyString => EmptyString
  | String c s' => String (upper_char c) (asciiUpperCase s')
  end.

(** A string of ASCII characters. *)
Fixpoint is_ascii (s : string) : bool :=
  match s with
  | EmptyString => true
  | String c s' => (code c <? 128)%N && is_ascii s'
  end.

(** White space and line terminators, which [String.prototype.trim],
    [Number] and [parseInt] skip: TAB, LF, VT, FF, CR, SPACE, NBSP
    (U+00A0), U+1680, U+2000 to U+200A, LS and PS (U+2028, U+2029), U+202F,
    U+205F, U+3000 and the byte order mark (U+FEFF). *)
Definition is_space (c : char) : bool :=
  let n := code c in
  (((9 <=? n) && (n <=? 13))
   || (n =? 32) || (n =? 160) || (n =? 5760)
   || ((8192 <=? n) && (n <=? 8202))
   || (n =? 8232) || (n =? 8233) || (n =? 8239) || (n =? 8287)
   || (n =? 12288) || (n =? 65279))%N.

Fixpoint trimStart (s : string) : string :=
  match s with
  | EmptyString => EmptyString
  | String c s' => if is_space c then trimStart s' else s
  end.

(** [trimEnd] keeps a character when something other than white space
    follows it or when it is itself not white space. *)
Fixpoint trimEnd (s : string) : string :=
  match s with
  | EmptyString => EmptyString
  | String c s' =>
      match trimEnd s' with
      | EmptyString => if is_space c then EmptyString else String c EmptyString
      | t => String c t
      end
  end.

Definition trim (s : string) : string := trimEnd (trimStart s).

(** [s.startsWith(p)] *)
Fixpoint startsWith (p s : string) : bool :=
  match p, s with
  | EmptyString, _ => true
  | String a p', String b s' => char_eqb a b && startsWith p' s'
  | String _ _, EmptyString => false
  end.

(** [s.includes(p)] *)
Fixpoint includes (p s : string) : bool :=
  startsWith p s ||
  match s with
  | EmptyString => false
  | String _ s' => includes p s'
  end.

(** Truthiness of a string: the empty string is falsy. *)
Definition truthy (s : string) : bool := negb (Utf16.eqb s "").

(** [a || b] on an optional string ([undefined] and [""] are falsy). *)
Definition or_default (a : option string) (b : string) : string :=
  match a with
  | Some s => if truthy s then s else b
  | None => b
  end.

(** Predicates used to state what [trim] and the case mappings achieve:
    the first (last) character of a non-empty string is not white space, a
    string is white space throughout, a character is a lower-case letter. *)
Definition head_ok (s : string) : bool :=
  match s with
  | EmptyString => true
  | String c _ => negb (is_space c)
  end.

Fixpoint last_ok (s : string) : bool :=
  match s with
  | EmptyString => true
  | String c EmptyString => negb (is_space c)
  | String _ s' => last_ok s'
  end.

Fixpoint all_space (s : string) : bool :=
  match s with
  | EmptyString => true
  | String c s' => is_space c && all_space s'
  end.

Definition is_lower_letter (c : char) : bool :=
  ((97 <=? code c) && (code c <=? 122))%N.

Fixpoint no_lower_letter (s : string) : bool :=
  match s with
  | EmptyString => true
  | String c s' => negb (is_lower_letter c) && no_lower_letter s'
  end.

End JsString.


(** ** Further text primitives

    Decimal printing of integers, [Array.prototype.join], and the
    predicates used to state what the functions below achieve. *)

Module Text.

(** [String(n)] for a natural number and for an integer. *)
Definition decimal (n : N) : string :=
  of_text (NilEmpty.string_of_uint (N.to_uint n)).

Definition decimal_Z (z : Z) : string :=
  of_text (NilZero.string_of_int (Z.to_int z)).

(** [lines.join(sep)] *)
Fixpoint join (sep : string) (l : list string) : string :=
  match l with
  | [] => ""
  | [x] => x
  | x :: rest => x +:+ sep +:+ join sep rest
  end.

Definition is_digit (c : char) : bool :=
  ((48 <=? code c) && (code c <=? 57))%N.

Fixpoint all_digit (s : string) : bool :=
  match s with
  | EmptyString => true
  | String c s' => is_digit c && all_digit s'
  end.

Fixpoint all_slash (s : string) : bool :=
  match s with
  | EmptyString => true
  | String c s' => char_eqb c "/" && all_slash s'
  end.

Fixpoint ends_with_slash (s : string) : bool :=
  match s with
  | EmptyString => false
  | String c EmptyString => char_eqb c "/"
  | String _ s' => ends_with_slash s'
  end.

(** [s.includes(c)] for one character. *)
Fixpoint has_char (c : char) (s : string) : bool :=
  match s with
  | EmptyString => false
  | String a s' => char_eqb a c || has_char c s'
  end.

End Text.

(** ** [src/local-backend.ts] *)

Module LocalBackend.

Record LocalBackendConfig := {
  enabled : bool;
  command : string;
  args : option (list string)
}.

Record LocalBackendsConfig := {
  claude : option LocalBackendConfig
}.

Definition isAnthropicModel (modelId : string) : bool :=
  JsString.startsWith "anthropic/" modelId
  || Utf16.eqb modelId "claude"
  || Utf16.eqb modelId "sonnet"
  || Utf16.eqb modelId "opus"
  || Utf16.eqb modelId "haiku".

(** [undefined] is [None]. *)
Definition getLocalBackend (modelId : string)
    (config : option LocalBackendsConfig) : option LocalBackendConfig :=
  match config with
  | None => None
  | Some cfg =>
      match claude cfg with
      | Some backend =>
          if enabled backend then
            if isAnthropicModel modelId then Some backend else None
          else None
      | None => None
      end
  end.

(** The model ids the Claude CLI serves, stated on the id itself: the
    ["anthropic/"] prefix or one of the four short names. *)
Definition names_anthropic_model (modelId : string) : Prop :=
  (exists rest, modelId = "anthropic/" +:+ rest)
  \/ modelId = "claude" \/ modelId = "sonnet"
  \/ modelId = "opus" \/ modelId = "haiku".

End LocalBackend.

(** ** JSON values and JavaScript numbers *)

Module Js.

(** A parsed JSON value.  A number is carried by its canonical decimal
    representation ([Number.prototype.toString]); an object is the list of
    its own properties, each key occurring once. *)
#[warnings="-register-all"]
Inductive Json :=
| JNull
| JBool (b : bool)
| JNumber (repr : string)
| JString (s : string)
| JArray (items : list Json)
| JObject (fields : list (string * Json)).

(** [obj[key]] on the own properties of an object. *)
Fixpoint property (key : string) (fields : list (string * Json)) : option Json :=
  match fields with
  | [] => None
  | (k, v) :: rest => if Utf16.eqb k key then Some v else property key rest
  end.

(** [key in value], guarded as in the sources by
    [value && typeof value === "object"]: arrays have no string-named
    members of interest and primitives have none at all. *)
Definition has_key (key : string) (value : Json) : bool :=
  match value with
  | JObject fields => bool_decide (is_Some (property key fields))
  | _ => false
  end.

(** What the platform provides: [JSON.parse] ([None] when it throws),
    [JSON.stringify] on parsed values, the package [VERSION], the case
    mappings of strings, and the decoding of bytes as UTF-8
    ([Buffer.prototype.toString]).  Of the case mappings only this is
    fixed: on a string of ASCII characters they map the letters and leave
    the rest. *)
Record Runtime := {
  JSON_parse : string -> option Json;
  JSON_stringify : Json -> string;
  VERSION : string;
  toLowerCase : string -> string;
  toUpperCase : string -> string;
  utf8_decode : list N -> string;
  toLowerCase_ascii :
    forall s, JsString.is_ascii s = true ->
              toLowerCase s = JsString.asciiLowerCase s;
  toUpperCase_ascii :
    forall s, JsString.is_ascii s = true ->
              toUpperCase s = JsString.asciiUpperCase s
}.

(** A JavaScript number: [NaN], an infinity, or a finite double, given by
    the rational it stands for in lowest terms (both zeros are [0]). *)
Inductive JsNumber :=
| NaN
| Infinity (negative : bool)
| Finite (q : Q).

(** [2^e] for an integer [e] of either sign. *)
Definition pow2 (e : Z) : Q :=
  if 0 <=? e then inject_Z (2 ^ e) else 1 # Z.to_pos (2 ^ (- e)).

(** The integer [k] with [2^k <= q < 2^(k+1)], for [q > 0]. *)
Definition ilog2 (q : Q) : Z :=
  let k := Z.log2 (Qnum q) - Z.log2 (Z.pos (Qden q)) in
  if Qle_bool (pow2 k) q then k else k - 1.

(** The nearest integer, the even one on a tie. *)
Definition round_even (q : Q) : Z :=
  let f := Qfloor q in
  match Qcompare (q - inject_Z f) (1 # 2) with
  | Lt => f
  | Gt => f + 1
  | Eq => if Z.even f then f else f + 1
  end.

(** The double nearest to a real number (IEEE 754 binary64, round to
    nearest, ties to even): a significand of 53 bits at the exponent of the
    number, exponents below -1074 being held at -1074 (subnormal numbers),
    and an infinity from [2^1024] on. *)
Definition to_double (q : Q) : JsNumber :=
  let a := Qabs q in
  if Qle_bool a 0 then Finite 0
  else
    let e := Z.max (ilog2 a - 52) (-1074) in
    let v := (inject_Z (round_even (a / pow2 e)) * pow2 e)%Q in
    if Qle_bool (pow2 1024) v then Infinity (negb (Qle_bool 0 q))
    else Finite (Qred (if Qle_bool 0 q then v else (- v)%Q)).

Definition digit_value (base : Z) (c : char) : option Z :=
  let n := Z.of_N (code c) in
  let v := if (48 <=? n) && (n <=? 57) then n - 48
           else if (97 <=? n) && (n <=? 102) then n - 87
           else if (65 <=? n) && (n <=? 70) then n - 55
           else -1 in
  if (0 <=? v) && (v <? base) then Some v else None.

(** The longest prefix of digits of [s] in [base]: its value continuing
    [acc], the number of digits read, and what follows them. *)
Fixpoint digits (base : Z) (s : string) (acc : Z) (count : nat) : Z * nat * string :=
  match s with
  | EmptyString => (acc, count, s)
  | String c s' =>
      match digit_value base c with
      | Some v => digits base s' (acc * base + v) (S count)
      | None => (acc, count, s)
      end
  end.

(** [0x..], [0o..], [0b..]: the whole of [s] must be digits. *)
Definition radix_literal (base : Z) (s : string) : JsNumber :=
  match digits base s 0 0%nat with
  | (v, S _, EmptyString) => to_double (inject_Z v)
  | _ => NaN
  end.

(** ExponentPart, or nothing, up to the end of the string. *)
Definition exponent_part (s : string) : option Z :=
  match s with
  | EmptyString => Some 0
  | String c r =>
      if char_eqb c "e" || char_eqb c "E" then
        let '(sign, r') :=
          match r with
          | String "+" r' => (1, r')
          | String "-" r' => (-1, r')
          | _ => (1, r)
          end in
        match digits 10 r' 0 0%nat with
        | (v, S _, EmptyString) => Some (sign * v)
        | _ => None
        end
      else None
  end.

Definition scale10 (q : Q) (e : Z) : Q :=
  if 0 <=? e then q * inject_Z (10 ^ e) else q / inject_Z (10 ^ (- e)).

(** StrUnsignedDecimalLiteral. *)
Definition unsigned_decimal (s : string) : JsNumber :=
  if Utf16.eqb s "Infinity" then Infinity false
  else
    let '(ip, n1, r1) := digits 10 s 0 0%nat in
    let '(fp, n2, r2) :=
      match r1 with
      | String "." r => digits 10 r 0 0%nat
      | _ => (0, 0%nat, r1)
      end in
    if ((n1 =? 0) && (n2 =? 0))%nat then NaN
    else
      match exponent_part r2 with
      | Some e =>
          let scale := 10 ^ Z.of_nat n2 in
          to_double (scale10 (Qmake (ip * scale + fp) (Z.to_pos scale)) e)
      | None => NaN
      end.

Definition negate (n : JsNumber) : JsNumber :=
  match n with
  | NaN => NaN
  | Infinity b => Infinity (negb b)
  | Finite q => Finite (- q)
  end.

(** [Number(s)] on a string (StringToNumber): white space is trimmed, the
    empty string is [0], and what is not a numeric literal is [NaN]. *)
Definition Number (s : string) : JsNumber :=
  match JsString.trim s with
  | EmptyString => Finite 0
  | String "0" (String "x" r) | String "0" (String "X" r) => radix_literal 16 r
  | String "0" (String "o" r) | String "0" (String "O" r) => radix_literal 8 r
  | String "0" (String "b" r) | String "0" (String "B" r) => radix_literal 2 r
  | String "+" r => unsigned_decimal r
  | String "-" r => negate (unsigned_decimal r)
  | t => unsigned_decimal t
  end.

(** [Number.isFinite] *)
Definition isFinite (n : JsNumber) : bool :=
  match n with
  | Finite _ => true
  | _ => false
  end.

(** [n <= 0] *)
Definition le_zero (n : JsNumber) : bool :=
  match n with
  | NaN => false
  | Infinity negative => negative
  | Finite q => Qle_bool q 0
  end.

(** [Number(x.toFixed(6))] for a finite [x].  Below [10^21] in magnitude,
    [toFixed] prints the integer number of millionths nearest to [x], the
    larger one on a tie, and [Number] reads the decimal back as the double
    nearest to it; from [10^21] on [toFixed] prints [x] as [toString] does,
    and [Number] reads [x] back. *)
Definition toFixed6 (x : Q) : JsNumber :=
  let a := Qabs x in
  if Qle_bool (inject_Z (10 ^ 21)) a then Finite x
  else
    let n := Qfloor (a * inject_Z 1000000 + (1 # 2)) in
    to_double (Qmake (if Qle_bool 0 x then n else (- n)%Z) 1000000).

(** [a / b] for finite [a] and a non-zero integer [b]. *)
Definition divide (a : Q) (b : Z) : JsNumber := to_double (a / inject_Z b).

End Js.

(** ** The claw.credit payment backend *)

Module ClawCredit.
Import Js.

Definition DEFAULT_SERVICE_URL : string := "https://api.claw.credit".

Module Config.
Record ClawCreditConfig := {
  baseUrl : option string;
  apiToken : string;
  chain : string;
  asset : string
}.
End Config.
Export Config (ClawCreditConfig).

Record PreAuthParams := {
  estimatedAmount : string
}.

(** What the calls of the platform can throw, by kind. *)
Inductive Exception :=
| TypeError
| RangeError.

(** [HeadersInit], as a sequence of name/value pairs (an array of pairs,
    the own properties of a record, or the entries of a [Headers]). *)
Definition HeadersInit := list (string * string).

(** A header name is a token: one or more of the letters, the digits and
    [!#$%&'*+-.^_`|~]. *)
Definition is_tchar (c : char) : bool :=
  let n := code c in
  (((48 <=? n) && (n <=? 57)) || ((65 <=? n) && (n <=? 90))
   || ((97 <=? n) && (n <=? 122))
   || (n =? 33) || ((35 <=? n) && (n <=? 39)) || (n =? 42) || (n =? 43)
   || (n =? 45) || (n =? 46) || ((94 <=? n) && (n <=? 96)) || (n =? 124)
   || (n =? 126))%N.

Fixpoint all_tchar (s : string) : bool :=
  match s with
  | EmptyString => true
  | String c s' => is_tchar c && all_tchar s'
  end.

Definition is_header_name (name : string) : bool :=
  JsString.truthy name && all_tchar name.

(** HTTP white space: TAB, LF, CR and SPACE. *)
Definition is_http_space (c : char) : bool :=
  let n := code c in ((n =? 9) || (n =? 10) || (n =? 13) || (n =? 32))%N.

Fixpoint strip_http_start (s : string) : string :=
  match s with
  | EmptyString => EmptyString
  | String c s' => if is_http_space c then strip_http_start s' else s
  end.

Fixpoint strip_http_end (s : string) : string :=
  match s with
  | EmptyString => EmptyString
  | String c s' =>
      match strip_http_end s' with
      | EmptyString => if is_http_space c then EmptyString else String c EmptyString
      | t => String c t
      end
  end.

(** Normalisation of a header value: the HTTP white space around it is
    removed. *)
Definition normalize_value (value : string) : string :=
  strip_http_end (strip_http_start value).

(** A header value is a byte string (every code unit below 256) that holds
    no NUL, LF or CR; once normalised it neither starts nor ends with a TAB
    or a SPACE. *)
Fixpoint is_header_value (value : string) : bool :=
  match value with
  | EmptyString => true
  | String c s' =>
      let n := code c in
      (n <? 256)%N && negb ((n =? 0) || (n =? 10) || (n =? 13))%N
      && is_header_value s'
  end.

(** [new Headers(init)]: every pair is appended with its value normalised,
    and a name that is no token or a value that is no header value makes
    the constructor throw a [TypeError] ([None]).  The result is the header
    list, the names as they were given. *)
Fixpoint new_Headers (init : HeadersInit) : option (list (string * string)) :=
  match init with
  | [] => Some []
  | (name, value) :: rest =>
      let value := normalize_value value in
      if is_header_name name && is_header_value value then
        match new_Headers rest with
        | Some headers => Some ((name, value) :: headers)
        | None => None
        end
      else None
  end.

(** The values a header list holds for a lower-cased name, in order. *)
Definition values_of (name : string) (headers : list (string * string))
  : list string :=
  snd <$> List.filter
            (fun h => Utf16.eqb (JsString.asciiLowerCase h.1) name) headers.

(** The entries of one lower-cased name: the name with its values joined
    by a comma and a space; the name [set-cookie] comes with each of its
    values in turn instead. *)
Definition entries_of (headers : list (string * string)) (name : string)
  : list (string * string) :=
  if Utf16.eqb name "set-cookie" then
    (fun value => (name, value)) <$> values_of name headers
  else [(name, Text.join ", " (values_of name headers))].

(** [headers.entries()]: the entries of every name of the list, each name
    taken once, lower-cased.  The iterator yields the names in ascending
    order; here they come in the order of [remove_dups], which is the same
    to the object built from them, since only the entries of one name can
    overwrite one another. *)
Definition entries (headers : list (string * string)) : list (string * string) :=
  flat_map (entries_of headers)
    (remove_dups (JsString.asciiLowerCase <$> headers.*1)).

(** The headers that are not embedded, by their lower-cased name. *)
Definition is_hop_header (lower : string) : bool :=
  Utf16.eqb lower "host"
  || Utf16.eqb lower "content-length"
  || Utf16.eqb lower "connection".

(** One turn of the loop of [headersToObject].  [out] is a plain object:
    an assignment to [__proto__] reaches the setter it inherits, which
    ignores a string, and creates no property. *)
Definition assign_header (rt : Runtime) (out : gmap string string)
    (entry : string * string) : gmap string string :=
  let '(key, value) := entry in
  let lower := toLowerCase rt key in
  if is_hop_header lower then out
  else if Utf16.eqb key "__proto__" then out
  else <[key := value]> out.

(** An entry is kept unless its key is one of the three names or
    [__proto__]. *)
Definition kept (rt : Runtime) (key : string) : bool :=
  negb (is_hop_header (toLowerCase rt key)) && negb (Utf16.eqb key "__proto__").

(** [headersToObject]: the own properties of the object it returns, or the
    exception [new Headers] threw. *)
Definition headersToObject (rt : Runtime) (headersInit : option HeadersInit)
  : Exception + gmap string string :=
  match headersInit with
  | None => inr ∅
  | Some init =>
      match new_Headers init with
      | None => inl TypeError
      | Some headers => inr (foldl (assign_header rt) ∅ (entries headers))
      end
  end.

(** [RequestInit["body"]]: the three shapes the backend decodes (a typed
    array and an array buffer by their bytes), and the others (streams,
    blobs, form data). *)
Inductive BodyInit :=
| BodyString (s : string)
| BodyUint8Array (bytes : list N)
| BodyArrayBuffer (bytes : list N)
| BodyOther.

(** [undefined] is [None]; a parsed [null] is [Some JNull]. *)
Definition parseJsonBody (rt : Runtime) (body : option BodyInit) : option Json :=
  match body with
  | None => None
  | Some b =>
      let raw :=
        match b with
        | BodyString s => Some s
        | BodyUint8Array bytes => Some (utf8_decode rt bytes)
        | BodyArrayBuffer bytes => Some (utf8_decode rt bytes)
        | BodyOther => None
        end in
      match raw with
      | None => None
      | Some raw =>
          if negb (JsString.truthy (JsString.trim raw)) then None
          else JSON_parse rt raw
      end
  end.

(** The amount in USD of an estimate given in micro-USD; [0.01] stands in
    for an estimate that is missing, not a finite number, or not positive.
    The quotient of a finite number is finite. *)
Definition microsToUsd (estimatedAmount : option string) : JsNumber :=
  let micros := Number (default "" estimatedAmount) in
  if negb (isFinite micros) || le_zero micros then to_double (1 # 100)
  else
    match micros with
    | Finite q =>
        match divide q 1000000 with
        | Finite x => toFixed6 x
        | other => other
        end
    | _ => to_double (1 # 100)
    end.

(** [s.replace(/\/+$/, "")] *)
Fixpoint stripTrailingSlashes (s : string) : string :=
  match s with
  | EmptyString => EmptyString
  | String c s' =>
      match stripTrailingSlashes s' with
      | EmptyString => if char_eqb c "/" then EmptyString else String c EmptyString
      | t => String c t
      end
  end.

(** What the returned closure captures. *)
Record ClawCreditFetch := {
  serviceUrl : string;
  chain : string;
  asset : string;
  apiToken : string
}.

(** [fetch]'s first argument. *)
Inductive RequestInfo :=
| InputString (url : string)
| InputURL (href : string)
| InputRequest (url : string).

Record RequestInit := {
  init_method : option string;
  init_headers : option HeadersInit;
  init_body : option BodyInit;
  init_signal : option nat
}.

(** The envelope posted to the service. *)
Record Transaction := {
  tx_recipient : string;
  tx_amount : JsNumber;
  tx_chain : string;
  tx_asset : string
}.

Record HttpRequest := {
  http_url : string;
  http_method : string;
  http_headers : gmap string string
}.

Record RequestBody := {
  request_http : HttpRequest;
  request_payload : option Json
}.

Record AuditContext := {
  current_task : string;
  reasoning_process : string;
  timestamp : Z
}.

Record SdkMeta := {
  sdk_name : string;
  sdk_version : string
}.

Record Payload := {
  transaction : Transaction;
  request_body : RequestBody;
  audit_context : AuditContext;
  sdk_meta : SdkMeta
}.

(** The call [fetch(`${serviceUrl}/v1/transaction/pay`, ...)]; its body is
    the payload handed to [JSON.stringify]. *)
Record PayRequest := {
  pay_url : string;
  pay_method : string;
  pay_headers : list (string * string);
  pay_body : Payload;
  pay_signal : option nat
}.

(** What the backend reads of the service's reply. *)
Record PayResponse := {
  pay_status : Z;
  pay_content_type : option string;
  pay_text : string
}.

(** [Response.ok] *)
Definition ok (status : Z) : bool := (200 <=? status) && (status <=? 299).

Record Response := {
  status : Z;
  content_type : string;
  body : string
}.

(** The content type of a reply is what [headers.get] returns, and a
    [Headers] object holds header values in normal form only. *)
Definition well_formed (payResponse : PayResponse) : Prop :=
  match pay_content_type payResponse with
  | Some value => is_header_value value = true /\ normalize_value value = value
  | None => True
  end.

(** The statuses of a response without a body. *)
Definition null_body_status (status : Z) : bool :=
  (status =? 101) || (status =? 103) || (status =? 204) || (status =? 205)
  || (status =? 304).

(** [new Response(body, {status, headers: {"content-type": contentType}})]
    for a string [body]: a [RangeError] unless the status lies between 200
    and 599, then a [TypeError] from the headers when the content type is
    no header value, then a [TypeError] for a status without a body. *)
Definition new_Response (body : string) (status : Z) (contentType : string)
  : Exception + Response :=
  if negb ((200 <=? status) && (status <=? 599)) then inl RangeError
  else
    match new_Headers [("content-type", contentType)] with
    | Some [(_, value)] =>
        if null_body_status status then inl TypeError
        else inr {| status := status; content_type := value; body := body |}
    | _ => inl TypeError
    end.

(** [createClawCreditFetch(config)]; [inl] carries the message of the error
    thrown. *)
Definition createClawCreditFetch (rt : Runtime) (config : ClawCreditConfig)
  : string + ClawCreditFetch :=
  let serviceUrl :=
    stripTrailingSlashes
      (JsString.or_default (Config.baseUrl config) DEFAULT_SERVICE_URL) in
  let chain := toUpperCase rt (Config.chain config) in
  let asset := Config.asset config in
  let apiToken := JsString.trim (Config.apiToken config) in
  if negb (JsString.truthy apiToken) then
    inl "CLAWCREDIT_API_TOKEN is required for claw.credit payment mode"
  else
    inr {| serviceUrl := serviceUrl; chain := chain; asset := asset;
           apiToken := apiToken |}.

(** The request the closure sends for one call, at time [now], or the
    exception thrown before it is sent. *)
Definition payRequest (rt : Runtime) (self : ClawCreditFetch) (now : Z)
    (input : RequestInfo) (init : option RequestInit)
    (preAuth : option PreAuthParams) : Exception + PayRequest :=
  let upstreamUrl :=
    match input with
    | InputString url => url
    | InputURL href => href
    | InputRequest url => url
    end in
  let method :=
    toUpperCase rt (JsString.or_default (init ≫= init_method) "POST") in
  match headersToObject rt (init ≫= init_headers) with
  | inl e => inl e
  | inr headers =>
      let requestBody := parseJsonBody rt (init ≫= init_body) in
      let amountUsd := microsToUsd (estimatedAmount <$> preAuth) in
      let payload :=
        {| transaction :=
             {| tx_recipient := upstreamUrl; tx_amount := amountUsd;
                tx_chain := chain self; tx_asset := asset self |};
           request_body :=
             {| request_http :=
                  {| http_url := upstreamUrl; http_method := method;
                     http_headers := headers |};
                request_payload := requestBody |};
           audit_context :=
             {| current_task := "blockrun_inference_via_clawrouter";
                reasoning_process :=
                  "Proxying BlockRun inference payment through claw.credit";
                timestamp := now |};
           sdk_meta :=
             {| sdk_name := "@blockrun/clawrouter"; sdk_version := VERSION rt |} |} in
      inr {| pay_url := serviceUrl self +:+ "/v1/transaction/pay";
             pay_method := "POST";
             pay_headers :=
               [("content-type", "application/json");
                ("authorization", "Bearer " +:+ apiToken self)];
             pay_body := payload;
             pay_signal := init ≫= init_signal |}
  end.

(** [merchantResponse]: the [merchant_response] member of an object that has
    one, the parsed reply otherwise. *)
Definition merchantResponse (parsed : Json) : Json :=
  match parsed with
  | JObject fields =>
      match property "merchant_response" fields with
      | Some inner => inner
      | None => parsed
      end
  | _ => parsed
  end.

(** [value ?? {}] *)
Definition or_empty_object (value : Json) : Json :=
  match value with
  | JNull => JObject []
  | _ => value
  end.

(** What the closure returns once the service has replied, or the
    exception the construction of the response throws. *)
Definition respond (rt : Runtime) (payResponse : PayResponse)
  : Exception + Response :=
  let text := pay_text payResponse in
  let contentType :=
    JsString.or_default (pay_content_type payResponse) "application/json" in
  if negb (ok (pay_status payResponse)) then
    new_Response text (pay_status payResponse) contentType
  else
    let parsed :=
      match JSON_parse rt text with
      | Some value => value
      | None => JObject [("raw", JString text)]
      end in
    new_Response
      (JSON_stringify rt (or_empty_object (merchantResponse parsed)))
      200 "application/json".

(** How one call of the closure ends: with an exception of its own, with
    the rejection of [fetch] (or of the reading of the reply), or with a
    response. *)
Inductive Settled :=
| Thrown (e : Exception)
| FetchRejected
| Resolved (response : Response).

(** One call of the closure: the request it sent, if it got that far, and
    how it ended. *)
Definition call (rt : Runtime) (self : ClawCreditFetch)
    (fetch : PayRequest -> option PayResponse) (now : Z)
    (input : RequestInfo) (init : option RequestInit)
    (preAuth : option PreAuthParams) : option PayRequest * Settled :=
  match payRequest rt self now input init preAuth with
  | inl e => (None, Thrown e)
  | inr request =>
      (Some request,
       match fetch request with
       | None => FetchRejected
       | Some payResponse =>
           match respond rt payResponse with
           | inl e => Thrown e
           | inr response => Resolved response
           end
       end)
  end.

(** The configuration of the claw.credit integration test, and the same
    with white space around the token. *)
Definition test_config : ClawCreditConfig :=
  {| Config.baseUrl := Some "http://127.0.0.1:9000/";
     Config.apiToken := "claw_test_token";
     Config.chain := "base";
     Config.asset := "0x833589fCD6eDb6E08f4c7C32D4f71b54bdA02913" |}.

Definition padded_config : ClawCreditConfig :=
  {| Config.baseUrl := None;
     Config.apiToken := " claw_test_token ";
     Config.chain := "BASE";
     Config.asset := "0x833589fCD6eDb6E08f4c7C32D4f71b54bdA02913" |}.

(** The closures [createClawCreditFetch] returns for them. *)
Definition test_backend : ClawCreditFetch :=
  {| serviceUrl := "http://127.0.0.1:9000"; chain := "BASE";
     asset := "0x833589fCD6eDb6E08f4c7C32D4f71b54bdA02913";
     apiToken := "claw_test_token" |}.

Definition padded_backend : ClawCreditFetch :=
  {| serviceUrl := "https://api.claw.credit"; chain := "BASE";
     asset := "0x833589fCD6eDb6E08f4c7C32D4f71b54bdA02913";
     apiToken := "claw_test_token" |}.

(** An upstream call as the proxy makes it. *)
Definition test_init : RequestInit :=
  {| init_method := None;
     init_headers :=
       Some [("Content-Type", "application/json"); ("Host", "blockrun.ai");
             ("Content-Length", "42"); ("Connection", "keep-alive");
             ("X-Request-Id", "abc")];
     init_body := Some (BodyString "{}");
     init_signal := None |}.

End ClawCredit.

(** ** A reference [JSON.parse] / [JSON.stringify]

    An executable instance of [Js.Runtime] for the examples: it reads and
    prints the JSON texts whose strings need no escape and whose numbers are
    integers, and rejects the others; its case mappings are the ASCII ones
    and it decodes ASCII bytes. *)

Module JsonRef.
Import Js.

Definition dquote : char := "034"%char.

(** Writes a JSON text with ['] for the double quote. *)
Fixpoint json_text (s : string) : string :=
  match s with
  | EmptyString => EmptyString
  | String c s' => String (if char_eqb c "'" then dquote else c) (json_text s')
  end.

Definition is_json_space (c : char) : bool :=
  let n := code c in
  ((n =? 32) || (n =? 9) || (n =? 10) || (n =? 13))%N.

Fixpoint skip_ws (s : string) : string :=
  match s with
  | EmptyString => EmptyString
  | String c s' => if is_json_space c then skip_ws s' else s
  end.

(** The characters of a string literal up to its closing quote. *)
Fixpoint string_chars (s : string) : option (string * string) :=
  match s with
  | EmptyString => None
  | String c r =>
      if char_eqb c dquote then Some (EmptyString, r)
      else if char_eqb c "\" || (code c <? 32)%N then None
      else
        match string_chars r with
        | Some (t, rest) => Some (String c t, rest)
        | None => None
        end
  end.

Fixpoint take_digits (s : string) : string * string :=
  match s with
  | EmptyString => (EmptyString, EmptyString)
  | String c r =>
      if ((48 <=? code c) && (code c <=? 57))%N then
        let '(d, rest) := take_digits r in (String c d, rest)
      else (EmptyString, s)
  end.

(** An integer literal, printed back canonically ([-0] is [0]). *)
Definition number_literal (s : string) : option (Json * string) :=
  let '(negative, r) :=
    match s with
    | String "-" r => (true, r)
    | _ => (false, s)
    end in
  let '(d, rest) := take_digits r in
  let leading_zero :=
    match d with
    | String "0" (String _ _) => true
    | _ => false
    end in
  let continues :=
    match rest with
    | String c _ => char_eqb c "." || char_eqb c "e" || char_eqb c "E"
    | EmptyString => false
    end in
  if Utf16.eqb d "" || leading_zero || continues then None
  else if negative && negb (Utf16.eqb d "0") then Some (JNumber (String "-" d), rest)
  else Some (JNumber d, rest).

(** [obj[key] = value] while the members are read: a repeated key keeps its
    place and takes the later value. *)
Fixpoint set_property (key : string) (value : Json)
    (fields : list (string * Json)) : list (string * Json) :=
  match fields with
  | [] => [(key, value)]
  | (k, v) :: rest =>
      if Utf16.eqb k key then (k, value) :: rest
      else (k, v) :: set_property key value rest
  end.

Fixpoint parse_value (fuel : nat) (s : string) : option (Json * string) :=
  match fuel with
  | O => None
  | S fuel' =>
      match skip_ws s with
      | EmptyString => None
      | String "n" (String "u" (String "l" (String "l" r))) => Some (JNull, r)
      | String "t" (String "r" (String "u" (String "e" r))) => Some (JBool true, r)
      | String "f" (String "a" (String "l" (String "s" (String "e" r)))) =>
          Some (JBool false, r)
      | String "[" r =>
          match skip_ws r with
          | String "]" rest => Some (JArray [], rest)
          | _ =>
              match parse_items fuel' r with
              | Some (items, rest) => Some (JArray items, rest)
              | None => None
              end
          end
      | String "{" r =>
          match skip_ws r with
          | String "}" rest => Some (JObject [], rest)
          | _ =>
              match parse_members fuel' r [] with
              | Some (fields, rest) => Some (JObject fields, rest)
              | None => None
              end
          end
      | String c r =>
          if char_eqb c dquote then
            match string_chars r with
            | Some (t, rest) => Some (JString t, rest)
            | None => None
            end
          else number_literal (String c r)
      end
  end
with parse_items (fuel : nat) (s : string) : option (list Json * string) :=
  match fuel with
  | O => None
  | S fuel' =>
      match parse_value fuel' s with
      | Some (v, r) =>
          match skip_ws r with
          | String "," r' =>
              match parse_items fuel' r' with
              | Some (vs, rest) => Some (v :: vs, rest)
              | None => None
              end
          | String "]" rest => Some ([v], rest)
          | _ => None
          end
      | None => None
      end
  end
with parse_members (fuel : nat) (s : string) (acc : list (string * Json))
  : option (list (string * Json) * string) :=
  match fuel with
  | O => None
  | S fuel' =>
      match skip_ws s with
      | String c r =>
          if char_eqb c dquote then
            match string_chars r with
            | Some (key, r1) =>
                match skip_ws r1 with
                | String ":" r2 =>
                    match parse_value fuel' r2 with
                    | Some (v, r3) =>
                        let acc' := set_property key v acc in
                        match skip_ws r3 with
                        | String "," r4 => parse_members fuel' r4 acc'
                        | String "}" rest => Some (acc', rest)
                        | _ => None
                        end
                    | None => None
                    end
                | _ => None
                end
            | None => None
            end
          else None
      | EmptyString => None
      end
  end.

Definition parse (text : string) : option Json :=
  match parse_value (2 * Utf16.length text + 2) text with
  | Some (value, rest) =>
      match skip_ws rest with
      | EmptyString => Some value
      | _ => None
      end
  | None => None
  end.

Definition hex_digit (n : N) : char :=
  if (n <? 10)%N then Char (48 + n) else Char (87 + n).

Definition escape_char (c : char) : string :=
  let n := code c in
  if char_eqb c dquote then String "\" (String dquote EmptyString)
  else if char_eqb c "\" then "\\"
  else if (n =? 8)%N then "\b"
  else if (n =? 9)%N then "\t"
  else if (n =? 10)%N then "\n"
  else if (n =? 12)%N then "\f"
  else if (n =? 13)%N then "\r"
  else if (n <? 32)%N then
    "\u00" +:+ String (hex_digit (n / 16)) (String (hex_digit (n mod 16)) EmptyString)
  else String c EmptyString.

Fixpoint escape (s : string) : string :=
  match s with
  | EmptyString => EmptyString
  | String c s' => escape_char c +:+ escape s'
  end.

Definition quote (s : string) : string :=
  String dquote (escape s) +:+ String dquote EmptyString.

Fixpoint stringify (value : Json) : string :=
  match value with
  | JNull => "null"
  | JBool true => "true"
  | JBool false => "false"
  | JNumber repr => repr
  | JString s => quote s
  | JArray items =>
      "[" +:+
      (fix go (l : list Json) : string :=
         match l with
         | [] => ""
         | [x] => stringify x
         | x :: rest => stringify x +:+ "," +:+ go rest
         end) items +:+ "]"
  | JObject fields =>
      "{" +:+
      (fix go (l : list (string * Json)) : string :=
         match l with
         | [] => ""
         | [(k, v)] => quote k +:+ ":" +:+ stringify v
         | (k, v) :: rest => quote k +:+ ":" +:+ stringify v +:+ "," +:+ go rest
         end) fields +:+ "}"
  end.

(** The bytes of an ASCII text read as that text; any other byte is read
    as U+FFFD. *)
Definition decode_ascii (bytes : list N) : string :=
  of_list (List.map (fun b => if (b <? 128)%N then b else 65533%N) bytes).

Definition runtime : Runtime :=
  {| JSON_parse := parse; JSON_stringify := stringify; VERSION := "0.0.0";
     toLowerCase := JsString.asciiLowerCase;
     toUpperCase := JsString.asciiUpperCase;
     utf8_decode := decode_ascii;
     toLowerCase_ascii := fun _ _ => eq_refl;
     toUpperCase_ascii := fun _ _ => eq_refl |}.

End JsonRef.

(** ** The routing core

    [src/proxy.ts] and the router, catalogue and session modules it uses are
    not among the sources; the definitions of this module follow the
    specification, section by section. *)

Module Router.

(** Modelled from the spec: the emergency free model of section 4.3, step 3
    (the router sources are missing); the tests name the same id. *)
Definition EMERGENCY_FREE_MODEL : string := "nvidia/gpt-oss-120b".

(** Modelled from the spec: the marker of a wrapped payment failure,
    sections 4.6.a and 9 (the dispatcher sources are missing). *)
Definition PAYMENT_FAILED_MARKER : string := "x402_payment_failed".

(** Modelled from the spec: helper of the normalisation of section 4.3 (the
    router sources are missing): the segment before the first ["/"] and what
    follows that ["/"], if there is one. *)
Fixpoint splitVendor (s : string) : string * option string :=
  match s with
  | EmptyString => (EmptyString, None)
  | String c s' =>
      if char_eqb c "/" then (EmptyString, Some s')
      else let '(vendor, rest) := splitVendor s' in (String c vendor, rest)
  end.

(** Modelled from the spec: explicit-model normalisation of section 4.3 (the
    router sources are missing): "trim whitespace, lowercase the vendor
    prefix segment before the first [/], preserve the rest".  An id without
    ["/"] has no vendor prefix and is only trimmed. *)
Definition normalizeModelId (model : string) : string :=
  let trimmed := JsString.trim model in
  match splitVendor trimmed with
  | (vendor, Some rest) => JsString.asciiLowerCase vendor +:+ "/" +:+ rest
  | (_, None) => trimmed
  end.

(** Modelled from the spec: the tier profile of sections 3 and 4.3 (the
    router sources are missing): "the alias or tier family used
    (premium / eco / free / auto / explicit)". *)
Inductive TierProfile :=
| ProfileAuto
| ProfileEco
| ProfilePremium
| ProfileFree
| ProfileExplicit.

#[global] Instance TierProfile_eq_dec : EqDecision TierProfile.
Proof. solve_decision. Defined.

(** Modelled from the spec: the routing aliases of section 4.3 (the router
    sources are missing); any other model string is an explicit model. *)
Definition profileOf (model : string) : TierProfile :=
  let id := normalizeModelId model in
  if Utf16.eqb id "auto" then ProfileAuto
  else if Utf16.eqb id "eco" then ProfileEco
  else if Utf16.eqb id "premium" then ProfilePremium
  else if Utf16.eqb id "free" then ProfileFree
  else ProfileExplicit.

(** Modelled from the spec: the five classification tags of section 4.1 (the
    classifier sources are missing). *)
Inductive Capability :=
| Reasoning
| Code
| Vision
| LongContext
| General.

(** Modelled from the spec: the kinds returned by the dispatcher, section 4.7
    (the dispatcher sources are missing). *)
Inductive ResultKind :=
| Success
| PaymentError
| ProviderError
| ClientError
| TransportError.

(** Modelled from the spec: what the specification leaves to the model
    catalogue and to configuration (catalogue, router and session sources
    are missing): the model an alias resolves to and the other models of its
    tier in ascending price (section 4.3, steps 1 and 2), compatibility of a
    pinned model with a classification, the time to live and size cap of the
    pin store (section 4.4), the recognition of provider-error bodies, and
    the kind of the responses section 4.7 does not list (1xx, 3xx, and 5xx
    without provider-error text). *)
Record Catalog := {
  resolve : TierProfile -> list Capability -> bool -> string;
  same_tier : TierProfile -> list Capability -> bool -> list string;
  compatible : string -> list Capability -> bool;
  pin_ttl : Z;
  pin_capacity : nat;
  provider_error_body : string -> bool;
  unlisted_kind : Z -> string -> ResultKind
}.

(** Modelled from the spec: the session pin of section 3 (the session store
    sources are missing): (session_id, tier_profile) -> model_id, expires_at. *)
Record Pin := {
  pin_session : string;
  pin_profile : TierProfile;
  pin_model : string;
  pin_expires_at : Z
}.

(** Modelled from the spec: the key of a pin, section 3 (the session store
    sources are missing). *)
Definition pin_matches (session : string) (profile : TierProfile) (p : Pin) : bool :=
  Utf16.eqb (pin_session p) session
  && bool_decide (pin_profile p = profile).

(** Modelled from the spec: [get] of section 4.4 (the session store sources
    are missing): expired entries are not returned and are evicted on the
    way.  The store is the list of pins, oldest first. *)
Definition pin_get (store : list Pin) (session : string) (profile : TierProfile)
    (now : Z) : option string * list Pin :=
  match List.find (pin_matches session profile) store with
  | Some p =>
      if now <? pin_expires_at p then (Some (pin_model p), store)
      else (None, List.filter (fun q => negb (pin_matches session profile q)) store)
  | None => (None, store)
  end.

(** Modelled from the spec: [set] of section 4.4 (the session store sources
    are missing): the pin replaces the one of its key, and the oldest pin
    goes when the size cap is exceeded. *)
Definition pin_set (cat : Catalog) (store : list Pin) (session : string)
    (profile : TierProfile) (model : string) (now : Z) : list Pin :=
  let kept := List.filter (fun q => negb (pin_matches session profile q)) store in
  let store' :=
    kept ++ [{| pin_session := session; pin_profile := profile;
                pin_model := model; pin_expires_at := now + pin_ttl cat |}] in
  if (pin_capacity cat <? List.length store')%nat then tail store' else store'.

(** Modelled from the spec: a chat request as the router sees it, section
    4.3 (the HTTP surface and classifier sources are missing): the model
    field, the [x-session-id] header, the classification of the prompt and
    whether the wallet balance is known to be empty. *)
Record Request := {
  model : string;
  session_id : option string;
  classification : list Capability;
  balance_empty : bool
}.

(** Modelled from the spec: step 4 of the chain construction, section 4.3
    (the router sources are missing): "de-duplicate while preserving order";
    [seen] are the ids already placed. *)
Fixpoint dedup (seen : list string) (l : list string) : list string :=
  match l with
  | [] => []
  | x :: rest =>
      if existsb (Utf16.eqb x) seen then dedup seen rest
      else x :: dedup (x :: seen) rest
  end.

(** Modelled from the spec: steps 3 and 4 of the chain construction, section
    4.3 (the router sources are missing): "append the designated emergency
    free model as the last step for every chain", then "de-duplicate while
    preserving order": of an id that occurs twice the first occurrence
    stays. *)
Definition candidate_chain (candidates : list string) : list string :=
  dedup [] (candidates ++ [EMERGENCY_FREE_MODEL]).

(** Modelled from the spec: steps 1 and 2 of the chain construction, section
    4.3 (the router sources are missing): the resolved model, then the other
    models of its tier.  An explicit model is normalised and forwarded even
    when the catalogue does not know it; it has no tier companions
    (scenarios 3 and 6). *)
Definition primary_and_tier (cat : Catalog) (req : Request) : list string :=
  match profileOf (model req) with
  | ProfileExplicit => [normalizeModelId (model req)]
  | profile =>
      resolve cat profile (classification req) (balance_empty req)
      :: same_tier cat profile (classification req) (balance_empty req)
  end.

(** Modelled from the spec: session pinning, section 4.3 (the router sources
    are missing): the valid pin of (session_id, tier_profile), provided it
    is compatible with the classification. *)
Definition pinned_model (cat : Catalog) (req : Request) (store : list Pin)
    (now : Z) : option string :=
  match session_id req with
  | Some session =>
      match (pin_get store session (profileOf (model req)) now).1 with
      | Some m => if compatible cat m (classification req) then Some m else None
      | None => None
      end
  | None => None
  end.

(** Modelled from the spec: "place the pinned model at the head of the
    chain", section 4.3 (the router sources are missing); the chain holds no
    id twice (section 8), so the pinned model leaves the place it had. *)
Definition place_at_head (pinned : string) (chain : list string) : list string :=
  pinned :: List.filter (fun m => negb (Utf16.eqb m pinned)) chain.

(** Modelled from the spec: the candidate chain of a request, sections 4.3
    and 4.10 (the router sources are missing): the chain of the primary and
    its tier, with the pinned model placed at its head; with an empty
    balance the request goes straight to the emergency free model. *)
Definition route (cat : Catalog) (req : Request) (store : list Pin) (now : Z)
  : list string :=
  if balance_empty req then candidate_chain []
  else
    let chain := candidate_chain (primary_and_tier cat req) in
    match pinned_model cat req store now with
    | Some pinned => place_at_head pinned chain
    | None => chain
    end.

(** Modelled from the spec: what one upstream attempt yields, section 4.7
    (the dispatcher sources are missing): a response with status and body,
    or a transport failure. *)
Inductive UpstreamReply :=
| HttpReply (status : Z) (body : string)
| TransportFailure.

(** Modelled from the spec: classification of a response, sections 4.7 and 9
    (the dispatcher sources are missing): the payment marker is looked for
    in the body "regardless of HTTP status". *)
Definition classify (cat : Catalog) (reply : UpstreamReply) : ResultKind :=
  match reply with
  | TransportFailure => TransportError
  | HttpReply status body =>
      if (status =? 402) || JsString.includes PAYMENT_FAILED_MARKER body
      then PaymentError
      else if (200 <=? status) && (status <=? 299) then Success
      else if (400 <=? status) && (status <=? 599) && provider_error_body cat body
      then ProviderError
      else if (400 <=? status) && (status <=? 499) then ClientError
      else unlisted_kind cat status body
  end.

(** Modelled from the spec: the result triple of section 4.7 (the dispatcher
    sources are missing). *)
Record DispatchResult := {
  kind : ResultKind;
  reply : UpstreamReply
}.

(** Modelled from the spec: one attempt, section 4.7 (the dispatcher sources
    are missing): the outgoing body carries the candidate id; [upstream]
    maps the id it receives to its reply. *)
Definition dispatch (cat : Catalog) (upstream : string -> UpstreamReply)
    (candidate : string) : DispatchResult :=
  let r := upstream candidate in
  {| kind := classify cat r; reply := r |}.

(** Modelled from the spec: the outcome of the fallback loop, section 4.8
    (the executor sources are missing): the ids sent upstream in order, the
    result returned and the model that succeeded. *)
Record Outcome := {
  sent : list string;
  result : option DispatchResult;
  served_by : option string
}.

(** Modelled from the spec: the recoverable kinds of sections 4.7 and 7
    (the executor sources are missing): every error kind but the client
    error lets the executor move on. *)
Definition recoverable (k : ResultKind) : bool :=
  match k with
  | PaymentError | ProviderError | TransportError => true
  | Success | ClientError => false
  end.

(** Modelled from the spec: the fallback executor, section 4.8 (the executor
    sources are missing): success and client errors return, recoverable
    kinds move on, and an exhausted chain returns the last result. *)
Fixpoint execute (cat : Catalog) (upstream : string -> UpstreamReply)
    (chain : list string) (last : option DispatchResult) : Outcome :=
  match chain with
  | [] => {| sent := []; result := last; served_by := None |}
  | candidate :: rest =>
      let r := dispatch cat upstream candidate in
      match kind r with
      | Success => {| sent := [candidate]; result := Some r; served_by := Some candidate |}
      | ClientError => {| sent := [candidate]; result := Some r; served_by := None |}
      | _ =>
          let o := execute cat upstream rest (Some r) in
          {| sent := candidate :: sent o; result := result o;
             served_by := served_by o |}
      end
  end.

(** Modelled from the spec: one chat request end to end, section 2 (the
    proxy sources are missing): route, run the chain, and pin the model that
    succeeded when the request carries a session id. *)
Definition handle_request (cat : Catalog) (upstream : string -> UpstreamReply)
    (store : list Pin) (now : Z) (req : Request) : Outcome * list Pin :=
  let chain := route cat req store now in
  let o := execute cat upstream chain None in
  let store1 :=
    match session_id req with
    | Some session => (pin_get store session (profileOf (model req)) now).2
    | None => store
    end in
  match served_by o, session_id req with
  | Some m, Some session =>
      (o, pin_set cat store1 session (profileOf (model req)) m now)
  | _, _ => (o, store1)
  end.

(** A string without ["/"], for statements about the vendor segment. *)
Fixpoint no_slash (s : string) : bool :=
  match s with
  | EmptyString => true
  | String c s' => negb (char_eqb c "/") && no_slash s'
  end.

(** The mock upstream of the tests: the models listed in [failModels]
    answer with [failure], the others with a 200. *)
Definition mock_upstream (failModels : list string) (failure : UpstreamReply)
  : string -> UpstreamReply :=
  fun m => if existsb (Utf16.eqb m) failModels then failure else HttpReply 200 "ok".

(** The two failures the tests simulate: a 400 that wraps the payment
    failure, and a 400 provider error. *)
Definition wrapped_payment_failure : UpstreamReply :=
  HttpReply 400
    ("Payment required: " +:+ PAYMENT_FAILED_MARKER +:+ ", merchant_status 402").

Definition billing_error : UpstreamReply :=
  HttpReply 400 "API provider returned a billing error, type provider_error".

(** A request of the tests, without and with a session header. *)
Definition plain_request (m : string) : Request :=
  {| model := m; session_id := None; classification := [General];
     balance_empty := false |}.

Definition session_request (session m : string) : Request :=
  {| model := m; session_id := Some session; classification := [Reasoning];
     balance_empty := false |}.

(** The same requests when the wallet is known to be empty. *)
Definition empty_balance_request (m : string) : Request :=
  {| model := m; session_id := None; classification := [General];
     balance_empty := true |}.

(** A small catalogue for the examples: two premium models, one economy
    model, and the emergency model as the only free one. *)
Definition sample_catalog : Catalog :=
  {| resolve := fun profile tags empty =>
       match profile with
       | ProfilePremium => "anthropic/claude-sonnet-4"
       | ProfileEco => "deepseek/deepseek-chat"
       | ProfileFree => EMERGENCY_FREE_MODEL
       | _ => if empty then EMERGENCY_FREE_MODEL else "openai/gpt-4o"
       end;
     same_tier := fun profile tags empty =>
       match profile with
       | ProfilePremium => ["openai/gpt-4o"]
       | _ => []
       end;
     compatible := fun _ _ => true;
     pin_ttl := 600000;
     pin_capacity := 1000;
     provider_error_body := JsString.includes "provider_error";
     unlisted_kind := fun _ _ => ProviderError |}.

End Router.

(** ** The command line ([cli.ts]) *)

Module Cli.
Import Js.

Definition CLAWCREDIT_DEFAULT_BASE_URL : string := "https://api.claw.credit".
Definition CLAWCREDIT_DEFAULT_CHAIN : string := "BASE".
Definition CLAWCREDIT_DEFAULT_ASSET : string :=
  "0x833589fCD6eDb6E08f4c7C32D4f71b54bdA02913".

(** [parseInt(s, 10)]: leading white space is skipped, a sign is read, and
    the longest prefix of decimal digits gives the value; [NaN] when there
    is no digit. *)
Definition parseInt10 (s : string) : JsNumber :=
  let t := JsString.trimStart s in
  let '(sign, r) :=
    match t with
    | String "+" r => (1, r)
    | String "-" r => (-1, r)
    | _ => (1, t)
    end in
  match digits 10 r 0 0%nat with
  | (v, S _, _) => to_double (inject_Z (sign * v))
  | _ => NaN
  end.

(** The result of [parseArgs]; [port] is [None] while it is [undefined]. *)
Record Args := {
  version : bool;
  help : bool;
  port : option JsNumber
}.

(** The loop of [parseArgs] from one position on: [args] is what is left
    of the argument vector and [result] what the loop has set so far.
    [args[i + 1]] is falsy when it is missing or the empty string. *)
Fixpoint parseArgs_from (args : list string) (result : Args) : Args :=
  match args with
  | [] => result
  | arg :: rest =>
      if Utf16.eqb arg "--version" || Utf16.eqb arg "-v" then
        parseArgs_from rest
          {| version := true; help := help result; port := port result |}
      else if Utf16.eqb arg "--help" || Utf16.eqb arg "-h" then
        parseArgs_from rest
          {| version := version result; help := true; port := port result |}
      else if Utf16.eqb arg "--port" then
        match rest with
        | next :: rest' =>
            if JsString.truthy next then
              parseArgs_from rest'
                {| version := version result; help := help result;
                   port := Some (parseInt10 next) |}
            else parseArgs_from rest result
        | [] => result
        end
      else parseArgs_from rest result
  end.

Definition parseArgs (args : list string) : Args :=
  parseArgs_from args {| version := false; help := false; port := None |}.

(** What [resolveOrGenerateWalletKey] resolves to. *)
Record ResolvedWallet := {
  key : string;
  address : string;
  source : string
}.

(** The options [main] hands to [startProxy] (the callbacks only log). *)
Module Options.
Record ProxyOptions := {
  paymentMode : string;
  walletKey : option string;
  clawCredit : option ClawCredit.Config.ClawCreditConfig;
  port : option JsNumber
}.
End Options.
Export Options (ProxyOptions).

(** How a run of [main] goes on: it prints the version or the help text and
    exits with status 0, it fails with a message (status 1), or it calls
    [startProxy]. *)
Inductive Run :=
| PrintVersion
| PrintHelp
| FatalError (message : string)
| StartProxy (options : ProxyOptions).

(** [process.env.NAME || fallback] *)
Definition env_or (env : gmap string string) (name fallback : string) : string :=
  JsString.or_default (env !! name) fallback.

(** [main] up to its call of [startProxy]: [argv] is
    [process.argv.slice(2)], [env] is [process.env], and [wallet] is what
    [resolveOrGenerateWalletKey] gives when it is awaited, [inl] carrying
    the message of a rejection.  The balance report and the signal handlers
    that follow the call are not part of the model. *)
Definition main (rt : Runtime) (argv : list string) (env : gmap string string)
    (wallet : string + ResolvedWallet) : Run :=
  let args := parseArgs argv in
  if version args then PrintVersion
  else if help args then PrintHelp
  else
    let paymentMode :=
      toLowerCase rt
        (JsString.trim (env_or env "BLOCKRUN_PAYMENT_MODE" "wallet")) in
    let useClawCredit := Utf16.eqb paymentMode "clawcredit" in
    if useClawCredit then
      let apiToken := JsString.trim (env_or env "CLAWCREDIT_API_TOKEN" "") in
      if negb (JsString.truthy apiToken) then
        FatalError
          "CLAWCREDIT_API_TOKEN is required when BLOCKRUN_PAYMENT_MODE=clawcredit"
      else
        let clawCreditConfig :=
          {| ClawCredit.Config.baseUrl :=
               Some (JsString.trim
                       (env_or env "CLAWCREDIT_BASE_URL"
                          CLAWCREDIT_DEFAULT_BASE_URL));
             ClawCredit.Config.apiToken := apiToken;
             ClawCredit.Config.chain :=
               toUpperCase rt
                 (JsString.trim
                    (env_or env "CLAWCREDIT_PAYMENT_CHAIN"
                       CLAWCREDIT_DEFAULT_CHAIN));
             ClawCredit.Config.asset :=
               JsString.trim
                 (env_or env "CLAWCREDIT_PAYMENT_ASSET"
                    CLAWCREDIT_DEFAULT_ASSET) |} in
        StartProxy
          {| Options.paymentMode := "clawcredit";
             Options.walletKey := None;
             Options.clawCredit := Some clawCreditConfig;
             Options.port := port args |}
    else
      match wallet with
      | inl message => FatalError message
      | inr resolved =>
          StartProxy
            {| Options.paymentMode := "wallet";
               Options.walletKey := Some (key resolved);
               Options.clawCredit := None;
               Options.port := port args |}
      end.

(** The environment of the claw.credit integration test. *)
Definition test_env : gmap string string :=
  <["BLOCKRUN_PAYMENT_MODE" := "clawcredit"]>
    (<["CLAWCREDIT_API_TOKEN" := "claw_test_token"]>
       (<["CLAWCREDIT_BASE_URL" := "http://127.0.0.1:9000/"]>
          (<["CLAWCREDIT_PAYMENT_CHAIN" := "base"]> ∅))).

Definition test_wallet : string + ResolvedWallet :=
  inr {| key := "0x01"; address := "0xabc"; source := "saved" |}.

End Cli.

(** ** The Claude CLI backend ([handleLocalClaudeRequest]) *)

Module LocalClaude.
Import Js LocalBackend.

Definition newline : char := "010"%char.

(** What the handler's own code can throw before it starts the CLI; the
    text of each message is the engine's. *)
Inductive Thrown :=
| InvalidJson (text : string)
| ReadOfNull (key : string)
| NotAFunction (what : string)
| NotPrimitive.

(** The platform: [JSON], and the messages of the errors above. *)
Record Engine := {
  runtime : Runtime;
  message_of : Thrown -> string
}.

(** Truthiness of a parsed value: [null], [false], [0] and [""] are
    falsy. *)
Definition truthy (v : Json) : bool :=
  match v with
  | JNull => false
  | JBool b => b
  | JNumber repr => negb (Utf16.eqb repr "0")
  | JString s => JsString.truthy s
  | JArray _ => true
  | JObject _ => true
  end.

(** [String(v)] as a template literal or a property key applies it.  An
    array joins its elements with commas, [null] printing as nothing; a
    plain object prints as [[object Object]], unless it has a member named
    [toString], which parsed from JSON is no function: the conversion then
    throws ([None]). *)
Fixpoint toString (v : Json) : option string :=
  match v with
  | JNull => Some "null"
  | JBool true => Some "true"
  | JBool false => Some "false"
  | JNumber repr => Some repr
  | JString s => Some s
  | JArray items =>
      (fix join_items (l : list Json) : option string :=
         match l with
         | [] => Some ""
         | x :: rest =>
             match (match x with JNull => Some "" | _ => toString x end) with
             | Some e =>
                 match rest with
                 | [] => Some e
                 | _ :: _ =>
                     match join_items rest with
                     | Some r => Some (e +:+ "," +:+ r)
                     | None => None
                     end
                 end
             | None => None
             end
         end) items
  | JObject fields =>
      match property "toString" fields with
      | Some _ => None
      | None => Some "[object Object]"
      end
  end.

(** [`${v}`] where [v] may be [undefined]. *)
Definition interpolate (v : option Json) : Thrown + string :=
  match v with
  | None => inr "undefined"
  | Some value =>
      match toString value with
      | Some s => inr s
      | None => inl NotPrimitive
      end
  end.

(** [v.key] for one of the names the handler reads ([messages], [model],
    [role], [content]; no built-in member has such a name): reading a
    member of [null] throws, and only objects have members of their own. *)
Definition get (key : string) (v : Json) : Thrown + option Json :=
  match v with
  | JNull => inl (ReadOfNull key)
  | JObject fields => inr (property key fields)
  | _ => inr None
  end.

(** [`${m.role}: ${m.content}`] *)
Definition line (m : Json) : Thrown + string :=
  match get "role" m with
  | inl e => inl e
  | inr role =>
      match interpolate role with
      | inl e => inl e
      | inr r =>
          match get "content" m with
          | inl e => inl e
          | inr content =>
              match interpolate content with
              | inl e => inl e
              | inr c => inr (r +:+ ": " +:+ c)
              end
          end
      end
  end.

(** [messages.map(...)], stopping at the first element that throws. *)
Fixpoint lines (messages : list Json) : Thrown + list string :=
  match messages with
  | [] => inr []
  | m :: rest =>
      match line m with
      | inl e => inl e
      | inr l =>
          match lines rest with
          | inl e => inl e
          | inr ls => inr (l :: ls)
          end
      end
  end.

(** [parsed.messages || []], which must then have a [map] method: of the
    values JSON gives, only arrays do. *)
Definition messages_of (parsed : Json) : Thrown + list Json :=
  match get "messages" parsed with
  | inl e => inl e
  | inr None => inr []
  | inr (Some v) =>
      if truthy v then
        match v with
        | JArray items => inr items
        | _ => inl (NotAFunction "messages.map")
        end
      else inr []
  end.

Definition separator : string := String newline (String newline EmptyString).

Definition prompt_of (parsed : Json) : Thrown + string :=
  match messages_of parsed with
  | inl e => inl e
  | inr messages =>
      match lines messages with
      | inl e => inl e
      | inr ls => inr (Text.join separator ls)
      end
  end.

(** An argument of the CLI: a string, or, when the model name hits a member
    that [modelMap] inherits from [Object.prototype], that member (a
    function, or the prototype itself). *)
Inductive Arg :=
| Str (s : string)
| Builtin (name : string).

Definition modelMap : list (string * string) :=
  [("anthropic/claude-sonnet-4", "claude-sonnet-4-20250514");
   ("anthropic/claude-opus-4", "claude-opus-4-20250514");
   ("anthropic/claude-opus-4.5", "claude-opus-4-20250514");
   ("anthropic/claude-haiku-4.5", "claude-haiku-4-20250514");
   ("sonnet", "claude-sonnet-4-20250514");
   ("opus", "claude-opus-4-20250514");
   ("haiku", "claude-haiku-4-20250514");
   ("claude", "claude-sonnet-4-20250514")].

(** The names every object literal inherits. *)
Definition Object_prototype : list string :=
  ["constructor"; "__defineGetter__"; "__defineSetter__"; "hasOwnProperty";
   "__lookupGetter__"; "__lookupSetter__"; "isPrototypeOf";
   "propertyIsEnumerable"; "toString"; "valueOf"; "__proto__";
   "toLocaleString"].

Fixpoint assoc (key : string) (l : list (string * string)) : option string :=
  match l with
  | [] => None
  | (k, v) :: rest => if Utf16.eqb k key then Some v else assoc key rest
  end.

(** [modelMap[key] || "claude-sonnet-4-20250514"]: the listed strings and
    the inherited members are all truthy. *)
Definition cliModel_of (key : string) : Arg :=
  match assoc key modelMap with
  | Some id => Str id
  | None =>
      if existsb (Utf16.eqb key) Object_prototype then Builtin key
      else Str "claude-sonnet-4-20250514"
  end.

(** [parsed.model || ""] as a property key. *)
Definition model_key (model : option Json) : Thrown + string :=
  match model with
  | None => inr ""
  | Some v =>
      if truthy v then
        match toString v with
        | Some s => inr s
        | None => inl NotPrimitive
        end
      else inr ""
  end.

(** The call [spawn(backend.command, args, {timeout: 120000})] and the
    prompt written to the child's standard input. *)
Record Spawn := {
  spawn_command : string;
  spawn_args : list Arg;
  spawn_timeout : Z;
  stdin : string
}.

(** The body of the [try] block down to the call of [spawn]: the parsed
    request and the call, or what was thrown on the way. *)
Definition prepare (engine : Engine) (body : string)
    (backend : LocalBackendConfig) : Thrown + Json * Spawn :=
  match JSON_parse (runtime engine) body with
  | None => inl (InvalidJson body)
  | Some parsed =>
      match prompt_of parsed with
      | inl e => inl e
      | inr prompt =>
          let args := Str <$> default [] (args backend) in
          let args := args ++ [Str "--print"] in
          match get "model" parsed with
          | inl e => inl e
          | inr model =>
              match model_key model with
              | inl e => inl e
              | inr key =>
                  let cliModel := cliModel_of key in
                  let args := args ++ [Str "--model"; cliModel] in
                  inr (parsed,
                       {| spawn_command := command backend;
                          spawn_args := args;
                          spawn_timeout := 120000;
                          stdin := prompt |})
              end
          end
      end
  end.

(** What becomes of the child: [spawn] (or the write to its input) throws,
    the child reports an error, or it closes with an exit code ([None] when
    a signal ended it) after writing [stdout] and [stderr]. *)
Inductive ChildEvent :=
| SpawnThrows (message : string)
| ErrorEvent (message : string)
| CloseEvent (code : option Z) (stdout stderr : string).

(** What the handler writes to [res]: the status and the value handed to
    [JSON.stringify]; the content type is always [application/json]. *)
Record Written := {
  status : Z;
  content_type : string;
  body : Json
}.

Definition error_body (message : string) : Json :=
  JObject
    [("error",
      JObject [("message", JString message);
               ("type", JString "local_backend_error")])].

Definition failure (message : string) : Written :=
  {| status := 500; content_type := "application/json";
     body := error_body message |}.

(** [parsed.model || "claude-cli"] *)
Definition model_or (model : option Json) (fallback : string) : Json :=
  match model with
  | Some v => if truthy v then v else JString fallback
  | None => JString fallback
  end.

(** The OpenAI-compatible response; [now] and [now'] are the two readings
    of [Date.now()]. *)
Definition completion (now now' : Z) (model : option Json) (stdout : string)
  : Json :=
  JObject
    [("id", JString ("chatcmpl-local-" +:+ Text.decimal_Z now));
     ("object", JString "chat.completion");
     ("created", JNumber (Text.decimal_Z (now' / 1000)));
     ("model", model_or model "claude-cli");
     ("choices",
      JArray
        [JObject
           [("index", JNumber "0");
            ("message",
             JObject [("role", JString "assistant");
                      ("content", JString (JsString.trim stdout))]);
            ("finish_reason", JString "stop")]]);
     ("usage",
      JObject [("prompt_tokens", JNumber "0");
               ("completion_tokens", JNumber "0");
               ("total_tokens", JNumber "0")]);
     ("_local_backend", JBool true)].

(** [handleLocalClaudeRequest]: the call of [spawn] it made, if it got that
    far, and what it wrote to [res].  [child] answers a call with the first
    of the events the handler listens for.  Log lines are left out. *)
Definition handleLocalClaudeRequest (engine : Engine)
    (child : Spawn -> ChildEvent) (now now' : Z) (body : string)
    (backend : LocalBackendConfig) : option Spawn * Written :=
  match prepare engine body backend with
  | inl e => (None, failure ("Local backend error: " +:+ message_of engine e))
  | inr (parsed, call) =>
      (Some call,
       match child call with
       | SpawnThrows message => failure ("Local backend error: " +:+ message)
       | ErrorEvent message =>
           failure ("Failed to spawn Claude CLI: " +:+ message)
       | CloseEvent code stdout stderr =>
           if bool_decide (code = Some 0) then
             let model :=
               match get "model" parsed with
               | inr model => model
               | inl _ => None
               end in
             {| status := 200; content_type := "application/json";
                body := completion now now' model stdout |}
           else
             failure
               ("Claude CLI failed: "
                +:+ JsString.or_default (Some stderr) "Unknown error")
       end)
  end.

(** A reference engine and requests for the examples. *)
Definition node : Engine :=
  {| runtime := JsonRef.runtime;
     message_of := fun e =>
       match e with
       | InvalidJson _ => "Unexpected token in JSON"
       | ReadOfNull key =>
           "Cannot read properties of null (reading '" +:+ key +:+ "')"
       | NotAFunction what => what +:+ " is not a function"
       | NotPrimitive => "Cannot convert object to primitive value"
       end |}.

Definition claude_backend : LocalBackendConfig :=
  {| enabled := true; command := "/usr/local/bin/claude";
     args := Some ["--output-format"; "json"] |}.

Definition chat_request (model : string) : string :=
  JsonRef.json_text
    ("{'model':'" +:+ model
     +:+ "','messages':[{'role':'system','content':'Be brief.'},"
     +:+ "{'role':'user','content':'Hello'}]}").

Definition exits (code : option Z) (stdout stderr : string)
  : Spawn -> ChildEvent :=
  fun _ => CloseEvent code stdout stderr.

End LocalClaude.

(** ** The environment file written by [scripts/setup-clawcredit.sh]

    The script ends with a Node program that rewrites the [.env] file of
    the OpenClaw state directory; this module follows that program. *)

Module EnvFile.
Import Js.

Definition LF : char := "010"%char.
Definition CR : char := "013"%char.

(** The names of [pairs], in the order of the object literal. *)
Definition keys : list string :=
  ["BLOCKRUN_PAYMENT_MODE"; "CLAWCREDIT_API_TOKEN"; "CLAWCREDIT_BASE_URL";
   "CLAWCREDIT_PAYMENT_CHAIN"; "CLAWCREDIT_PAYMENT_ASSET"].

(** [Object.entries(pairs)]: every name with the value the environment of
    the program holds for it, [None] when it holds none. *)
Definition pairs (env : gmap string string) : list (string * option string) :=
  (fun k => (k, env !! k)) <$> keys.

(** [text.split(/\r?\n/)] *)
Fixpoint split_lines (text : string) : list string :=
  match text with
  | EmptyString => [EmptyString]
  | String c rest =>
      if char_eqb c LF then EmptyString :: split_lines rest
      else
        match rest with
        | String d rest' =>
            if char_eqb c CR && char_eqb d LF then
              EmptyString :: split_lines rest'
            else
              match split_lines rest with
              | l :: ls => String c l :: ls
              | [] => [String c EmptyString]
              end
        | EmptyString => [String c EmptyString]
        end
  end.

(** [lines.findIndex(p)], [None] for [-1]. *)
Fixpoint findIndex (p : string -> bool) (lines : list string) : option nat :=
  match lines with
  | [] => None
  | l :: rest => if p l then Some 0%nat else S <$> findIndex p rest
  end.

(** [setLine(key, value)] on the array [lines].  The keys are fixed names
    made of letters and underscores, for which the test of the regular
    expression [^key=] is the prefix test. *)
Definition setLine (rt : Runtime) (key value : string) (lines : list string)
  : list string :=
  let encoded := JSON_stringify rt (JString value) in
  let next := key +:+ "=" +:+ encoded in
  match findIndex (JsString.startsWith (key +:+ "=")) lines with
  | Some idx => <[idx := next]> lines
  | None => lines ++ [next]
  end.

(** [v == null || String(v).trim() === ''] *)
Definition skipped (v : option string) : bool :=
  match v with
  | None => true
  | Some value => Utf16.eqb (JsString.trim value) ""
  end.

(** The loop over the entries. *)
Fixpoint setLines (rt : Runtime) (entries : list (string * option string))
    (lines : list string) : list string :=
  match entries with
  | [] => lines
  | (k, v) :: rest =>
      match v with
      | Some value =>
          if skipped v then setLines rt rest lines
          else setLines rt rest (setLine rt k value lines)
      | None => setLines rt rest lines
      end
  end.

(** [while (lines.length > 0 && lines[lines.length - 1] === '') lines.pop()] *)
Fixpoint dropTrailingEmpty (lines : list string) : list string :=
  match lines with
  | [] => []
  | l :: rest =>
      match dropTrailingEmpty rest with
      | [] => if Utf16.eqb l "" then [] else [l]
      | kept => l :: kept
      end
  end.

(** The array [lines] when the program has run on it. *)
Definition updated_lines (rt : Runtime) (env : gmap string string)
    (lines : list string) : list string :=
  dropTrailingEmpty (setLines rt (pairs env) lines).

(** The text written to the file; [existing] is the text of the file when
    there is one. *)
Definition update (rt : Runtime) (existing : option string)
    (env : gmap string string) : string :=
  let lines :=
    match existing with
    | Some text => split_lines text
    | None => []
    end in
  Text.join (String LF EmptyString) (updated_lines rt env lines)
  +:+ String LF EmptyString.

(** The line [setLine] writes for a key. *)
Definition entry (rt : Runtime) (key value : string) : string :=
  key +:+ "=" +:+ JSON_stringify rt (JString value).

(** The first line a predicate holds of. *)
Definition first_line (p : string -> bool) (lines : list string) : option string :=
  List.find p lines.

(** The entries the program writes: the names whose value is not blank,
    each with its value, in the order of [pairs]. *)
Definition written_pairs (env : gmap string string) : list (string * string) :=
  omap (fun kv : string * option string =>
          match kv.2 with
          | Some value => if skipped (Some value) then None else Some (kv.1, value)
          | None => None
          end)
    (pairs env).

(** The place of the first line of a key. *)
Definition place (key : string) (lines : list string) : option nat :=
  findIndex (JsString.startsWith (key +:+ "=")) lines.

(** The entry whose key has its first line at line [i]. *)
Definition owner (entries : list (string * string)) (lines : list string)
    (i : nat) : option (string * string) :=
  List.find (fun kv => bool_decide (place kv.1 lines = Some i)) entries.

(** The lines of the file, each in its place: the first line of a key
    that is written gives way to the entry of the key, every other line
    stays. *)
Definition rewritten (rt : Runtime) (entries : list (string * string))
    (lines : list string) : list string :=
  imap (fun i old =>
          match owner entries lines i with
          | Some kv => entry rt kv.1 kv.2
          | None => old
          end)
    lines.

(** The entries of the keys that have no line, in their order. *)
Definition appended (rt : Runtime) (entries : list (string * string))
    (lines : list string) : list string :=
  (fun kv => entry rt kv.1 kv.2)
    <$> List.filter (fun kv => bool_decide (place kv.1 lines = None)) entries.

(** A string that holds no line break. *)
Definition no_break (l : string) : bool :=
  negb (Text.has_char LF l) && negb (Text.has_char CR l).

(** Keys none of which can be taken for another: [k'=] is no prefix of a
    line that starts with [k=]. *)
Definition independent (names : list string) : Prop :=
  forall k k' l,
    k ∈ names -> k' ∈ names -> k <> k' ->
    JsString.startsWith (k +:+ "=") l = true ->
    JsString.startsWith (k' +:+ "=") l = false.

(** The environment in which the script runs the program. *)
Definition setup_env : gmap string string :=
  <["BLOCKRUN_PAYMENT_MODE" := "clawcredit"]>
    (<["CLAWCREDIT_API_TOKEN" := "claw_test_token"]>
       (<["CLAWCREDIT_BASE_URL" := "https://api.claw.credit"]>
          (<["CLAWCREDIT_PAYMENT_CHAIN" := "BASE"]> ∅))).

End EnvFile.
(* ===================================================================== *)
(** * Part II: theorems                                                   *)
(* ===================================================================== *)

(** Comparisons of code units as propositions, for [lia]. *)
Ltac bool_prop :=
  repeat
    (rewrite ?orb_true_iff, ?andb_true_iff, ?negb_true_iff, ?orb_false_iff,
       ?andb_false_iff, ?negb_false_iff, ?N.leb_le, ?N.leb_gt, ?N.ltb_lt,
       ?N.ltb_ge, ?N.eqb_eq, ?N.eqb_neq).

Ltac bool_prop_in H :=
  repeat
    (rewrite ?orb_true_iff, ?andb_true_iff, ?negb_true_iff, ?orb_false_iff,
       ?andb_false_iff, ?negb_false_iff, ?N.leb_le, ?N.leb_gt, ?N.ltb_lt,
       ?N.ltb_ge, ?N.eqb_eq, ?N.eqb_neq in H).

(** ** Strings of code units *)

Module Utf16Facts.

Lemma char_eqb_eq (a b : char) : char_eqb a b = true <-> a = b.
Proof.
  destruct a as [m], b as [n]. unfold char_eqb. simpl. rewrite N.eqb_eq.
  split; [intros ->; reflexivity|intros H; injection H; trivial].
Qed.

Lemma char_eqb_refl (a : char) : char_eqb a a = true.
Proof. apply char_eqb_eq. reflexivity. Qed.

Lemma char_eqb_neq (a b : char) : char_eqb a b = false <-> a <> b.
Proof.
  rewrite <- char_eqb_eq. destruct (char_eqb a b); split; congruence.
Qed.

Lemma char_eqb_code (a : char) (n : N) : char_eqb a (Char n) = (code a =? n)%N.
Proof. reflexivity. Qed.

Lemma eqb_eq (s t : string) : Utf16.eqb s t = true <-> s = t.
Proof.
  revert t. induction s as [|c s IH]; intros [|d t]; simpl;
    try (split; [discriminate|discriminate]); try (split; reflexivity).
  rewrite andb_true_iff, char_eqb_eq, IH. split.
  - intros [-> ->]. reflexivity.
  - intros H. injection H. auto.
Qed.

Lemma eqb_refl (s : string) : Utf16.eqb s s = true.
Proof. apply eqb_eq. reflexivity. Qed.

Lemma eqb_neq (s t : string) : Utf16.eqb s t = false <-> s <> t.
Proof.
  rewrite <- eqb_eq. destruct (Utf16.eqb s t); split; congruence.
Qed.

Lemma eqb_sym (s t : string) : Utf16.eqb s t = Utf16.eqb t s.
Proof.
  destruct (Utf16.eqb t s) eqn:E.
  - apply eqb_eq in E. subst. apply eqb_refl.
  - apply eqb_neq. apply eqb_neq in E. congruence.
Qed.

Lemma append_assoc (a b c : string) : (a +:+ b) +:+ c = a +:+ (b +:+ c).
Proof. induction a as [|x a IH]; simpl; [reflexivity|]. rewrite IH. reflexivity. Qed.

Lemma append_empty_r (a : string) : a +:+ "" = a.
Proof. induction a as [|x a IH]; simpl; [reflexivity|]. rewrite IH. reflexivity. Qed.

Lemma length_append (a b : string) :
  Utf16.length (a +:+ b) = (Utf16.length a + Utf16.length b)%nat.
Proof. induction a as [|x a IH]; simpl; [reflexivity|]. rewrite IH. reflexivity. Qed.

End Utf16Facts.

(** ** Strings *)

Module JsStringFacts.
Import JsString.

Lemma startsWith_app (p r : string) : startsWith p (p +:+ r) = true.
Proof.
  induction p as [|a p IH]; simpl; [reflexivity|].
  rewrite Utf16Facts.char_eqb_refl. exact IH.
Qed.

Lemma startsWith_spec (p s : string) :
  startsWith p s = true <-> exists r, s = p +:+ r.
Proof.
  split.
  - revert s. induction p as [|a p IH]; intros s H.
    + exists s. reflexivity.
    + destruct s as [|b s]; simpl in H; [discriminate|].
      apply andb_true_iff in H as [Hab Hps].
      apply Utf16Facts.char_eqb_eq in Hab. subst b.
      destruct (IH _ Hps) as [r ->]. exists r. reflexivity.
  - intros [r ->]. apply startsWith_app.
Qed.

Lemma includes_unfold (p s : string) :
  includes p s =
  startsWith p s || match s with EmptyString => false | String _ s' => includes p s' end.
Proof. destruct s; reflexivity. Qed.

Lemma includes_spec (p s : string) :
  includes p s = true <-> exists a b, s = a +:+ p +:+ b.
Proof.
  split.
  - induction s as [|c s IH]; simpl; intros H.
    + rewrite orb_false_r in H. apply startsWith_spec in H as [r Hr].
      exists EmptyString, r. exact Hr.
    + apply orb_true_iff in H as [H|H].
      * apply startsWith_spec in H as [r Hr]. exists EmptyString, r. exact Hr.
      * destruct (IH H) as (a & b & ->). exists (String c a), b. reflexivity.
  - intros (a & b & ->). induction a as [|c a IH]; simpl.
    + rewrite includes_unfold, startsWith_app. reflexivity.
    + rewrite IH. apply orb_true_r.
Qed.

Lemma trimStart_head_ok (s : string) : head_ok (trimStart s) = true.
Proof.
  induction s as [|c s IH]; simpl; [reflexivity|].
  destruct (is_space c) eqn:E; [exact IH|]. simpl. rewrite E. reflexivity.
Qed.

Lemma trimStart_fixed (s : string) : head_ok s = true -> trimStart s = s.
Proof.
  destruct s as [|c s]; simpl; [reflexivity|].
  destruct (is_space c); [discriminate|reflexivity].
Qed.

Lemma trimEnd_last_ok (s : string) : last_ok (trimEnd s) = true.
Proof.
  induction s as [|c s IH]; simpl; [reflexivity|].
  destruct (trimEnd s) as [|d t] eqn:E.
  - destruct (is_space c) eqn:Ec; simpl; [reflexivity|]. rewrite Ec. reflexivity.
  - exact IH.
Qed.

Lemma trimEnd_fixed (s : string) : last_ok s = true -> trimEnd s = s.
Proof.
  induction s as [|c s IH]; simpl; [reflexivity|].
  destruct s as [|d s'].
  - simpl. destruct (is_space c); [discriminate|reflexivity].
  - intros H. rewrite (IH H). reflexivity.
Qed.

Lemma trimEnd_head_ok (s : string) : head_ok s = true -> head_ok (trimEnd s) = true.
Proof.
  destruct s as [|c s]; simpl; [reflexivity|]. intros H.
  destruct (trimEnd s); [|exact H].
  destruct (is_space c) eqn:E; [discriminate|]. simpl. rewrite E. reflexivity.
Qed.

Lemma trim_head_ok (s : string) : head_ok (trim s) = true.
Proof. apply trimEnd_head_ok, trimStart_head_ok. Qed.

Lemma trim_last_ok (s : string) : last_ok (trim s) = true.
Proof. apply trimEnd_last_ok. Qed.

Lemma trim_fixed (s : string) :
  head_ok s = true -> last_ok s = true -> trim s = s.
Proof.
  intros Hh Hl. unfold trim. rewrite (trimStart_fixed _ Hh). apply trimEnd_fixed, Hl.
Qed.

Lemma trim_idempotent (s : string) : trim (trim s) = trim s.
Proof. apply trim_fixed; [apply trim_head_ok|apply trim_last_ok]. Qed.

Lemma trimStart_skips (w s : string) :
  all_space w = true -> trimStart (w +:+ s) = trimStart s.
Proof.
  induction w as [|c w IH]; simpl; [reflexivity|].
  intros H. apply andb_true_iff in H as [-> Hw]. exact (IH Hw).
Qed.

Lemma trimEnd_all_space (w : string) : all_space w = true -> trimEnd w = EmptyString.
Proof.
  induction w as [|c w IH]; simpl; [reflexivity|].
  intros H. apply andb_true_iff in H as [-> Hw]. rewrite (IH Hw). reflexivity.
Qed.

Lemma trimEnd_skips (s w : string) :
  all_space w = true -> trimEnd (s +:+ w) = trimEnd s.
Proof.
  intros Hw. induction s as [|c s IH]; simpl.
  - apply trimEnd_all_space, Hw.
  - rewrite IH. reflexivity.
Qed.

Lemma trimStart_all_space (w : string) : all_space w = true -> trimStart w = EmptyString.
Proof.
  induction w as [|c w IH]; simpl; [reflexivity|].
  intros H. apply andb_true_iff in H as [-> Hw]. exact (IH Hw).
Qed.

Lemma trim_padded (w1 s w2 : string) :
  all_space w1 = true -> all_space w2 = true ->
  head_ok s = true -> last_ok s = true ->
  trim (w1 +:+ s +:+ w2) = s.
Proof.
  intros H1 H2 Hh Hl. unfold trim.
  rewrite (trimStart_skips _ _ H1).
  destruct s as [|c s].
  - simpl. rewrite (trimStart_all_space _ H2). reflexivity.
  - rewrite trimStart_fixed.
    + rewrite (trimEnd_skips _ _ H2). apply trimEnd_fixed, Hl.
    + simpl in *. exact Hh.
Qed.

Lemma is_space_spec (c : char) :
  is_space c = true <->
  (9 <= code c <= 13 \/ code c = 32 \/ code c = 160 \/ code c = 5760
   \/ 8192 <= code c <= 8202 \/ code c = 8232 \/ code c = 8233
   \/ code c = 8239 \/ code c = 8287 \/ code c = 12288
   \/ code c = 65279)%N.
Proof. unfold is_space. cbv zeta. bool_prop. tauto. Qed.

Lemma is_space_letter (c : char) :
  (33 <= code c <= 126)%N -> is_space c = false.
Proof.
  intros H. apply not_true_iff_false. rewrite is_space_spec. lia.
Qed.

Lemma lower_char_code (c : char) :
  code (lower_char c) =
  (if (65 <=? code c) && (code c <=? 90) then code c + 32 else code c)%N.
Proof. unfold lower_char. cbv zeta. destruct (_ && _); reflexivity. Qed.

Lemma upper_char_code (c : char) :
  code (upper_char c) =
  (if (97 <=? code c) && (code c <=? 122) then code c - 32 else code c)%N.
Proof. unfold upper_char. cbv zeta. destruct (_ && _); reflexivity. Qed.

Lemma lower_char_idempotent (c : char) : lower_char (lower_char c) = lower_char c.
Proof.
  destruct c as [n]. unfold lower_char. simpl.
  destruct ((65 <=? n) && (n <=? 90))%N eqn:E; simpl; [|rewrite E; reflexivity].
  replace ((65 <=? n + 32) && (n + 32 <=? 90))%N with false; [reflexivity|].
  symmetry. bool_prop_in E. bool_prop. lia.
Qed.

Lemma lower_char_space (c : char) : is_space (lower_char c) = is_space c.
Proof.
  destruct c as [n]. unfold lower_char. simpl.
  destruct ((65 <=? n) && (n <=? 90))%N eqn:E; simpl; [|reflexivity].
  bool_prop_in E.
  rewrite !is_space_letter; simpl; [reflexivity|lia|lia].
Qed.

Lemma lower_char_slash (c : char) :
  char_eqb (lower_char c) "/" = char_eqb c "/".
Proof.
  destruct c as [n]. unfold lower_char. simpl.
  destruct ((65 <=? n) && (n <=? 90))%N eqn:E; simpl; [|reflexivity].
  bool_prop_in E. unfold char_eqb. simpl.
  transitivity false; [|symmetry]; bool_prop; lia.
Qed.

Lemma upper_char_idempotent (c : char) : upper_char (upper_char c) = upper_char c.
Proof.
  destruct c as [n]. unfold upper_char. simpl.
  destruct ((97 <=? n) && (n <=? 122))%N eqn:E; simpl; [|rewrite E; reflexivity].
  replace ((97 <=? n - 32) && (n - 32 <=? 122))%N with false; [reflexivity|].
  symmetry. bool_prop_in E. bool_prop. lia.
Qed.

Lemma asciiLowerCase_idempotent (s : string) :
  asciiLowerCase (asciiLowerCase s) = asciiLowerCase s.
Proof.
  induction s as [|c s IH]; simpl; [reflexivity|].
  rewrite lower_char_idempotent, IH. reflexivity.
Qed.

Lemma asciiUpperCase_idempotent (s : string) :
  asciiUpperCase (asciiUpperCase s) = asciiUpperCase s.
Proof.
  induction s as [|c s IH]; simpl; [reflexivity|].
  rewrite upper_char_idempotent, IH. reflexivity.
Qed.

Lemma upper_char_not_lower (c : char) : is_lower_letter (upper_char c) = false.
Proof.
  destruct c as [n]. unfold upper_char, is_lower_letter. simpl.
  destruct ((97 <=? n) && (n <=? 122))%N eqn:E; simpl; [|exact E].
  bool_prop_in E. bool_prop. lia.
Qed.

Lemma asciiUpperCase_no_lower_letter (s : string) :
  no_lower_letter (asciiUpperCase s) = true.
Proof.
  induction s as [|c s IH]; simpl; [reflexivity|].
  rewrite upper_char_not_lower, IH. reflexivity.
Qed.

Lemma is_ascii_app (a b : string) :
  is_ascii (a +:+ b) = is_ascii a && is_ascii b.
Proof.
  induction a as [|c a IH]; simpl; [reflexivity|].
  rewrite IH, andb_assoc. reflexivity.
Qed.

Lemma truthy_spec (s : string) : truthy s = true <-> s <> EmptyString.
Proof.
  unfold truthy. rewrite negb_true_iff. split.
  - intros H ->. discriminate.
  - intros H. destruct s; [contradiction|reflexivity].
Qed.

End JsStringFacts.

(** ** [getLocalBackend] *)

Module LocalBackendFacts.
Import LocalBackend.

Lemma isAnthropicModel_spec (modelId : string) :
  isAnthropicModel modelId = true <-> names_anthropic_model modelId.
Proof.
  unfold isAnthropicModel, names_anthropic_model.
  rewrite !orb_true_iff, JsStringFacts.startsWith_spec, !Utf16Facts.eqb_eq.
  tauto.
Qed.

Example getLocalBackend_sonnet :
  getLocalBackend "sonnet"
    (Some {| claude := Some {| enabled := true; command := "claude"; args := None |} |})
  = Some {| enabled := true; command := "claude"; args := None |}.
Proof. reflexivity. Qed.

Example getLocalBackend_gpt :
  getLocalBackend "openai/gpt-4o"
    (Some {| claude := Some {| enabled := true; command := "claude"; args := None |} |})
  = None.
Proof. reflexivity. Qed.

(** C10.  [getLocalBackend] returns the configured Claude backend exactly
    when a configuration is given, its Claude backend is present and
    enabled, and the model id starts with ["anthropic/"] or is one of
    ["claude"], ["sonnet"], ["opus"], ["haiku"]; in every other case (no
    configuration, no or a disabled Claude backend, any other model id) it
    returns [undefined]. *)
Theorem getLocalBackend_exactly (modelId : string)
    (config : option LocalBackendsConfig) :
  (forall backend,
     getLocalBackend modelId config = Some backend <->
     (exists cfg, config = Some cfg /\ claude cfg = Some backend)
     /\ enabled backend = true
     /\ names_anthropic_model modelId)
  /\ (getLocalBackend modelId config = None <->
      config = None
      \/ (exists cfg, config = Some cfg /\ claude cfg = None)
      \/ (exists cfg backend,
            config = Some cfg /\ claude cfg = Some backend
            /\ enabled backend = false)
      \/ ~ names_anthropic_model modelId).
Proof.
  unfold getLocalBackend.
  destruct config as [cfg|].
  2:{ split.
      - intros backend. split; [discriminate|].
        intros [(cfg & H & _) _]. discriminate.
      - split; [left; reflexivity | reflexivity]. }
  destruct (claude cfg) as [b|] eqn:Hc.
  2:{ split.
      - intros backend. split; [discriminate|].
        intros [(cfg' & H & H') _]. injection H as <-. congruence.
      - split; [|reflexivity]. intros _. right; left. exists cfg. auto. }
  destruct (enabled b) eqn:He.
  2:{ split.
      - intros backend. split; [discriminate|].
        intros [(cfg' & H & H') [He' _]]. injection H as <-.
        rewrite Hc in H'. injection H' as <-. congruence.
      - split; [|reflexivity]. intros _. right; right; left.
        exists cfg, b. auto. }
  destruct (isAnthropicModel modelId) eqn:Ha.
  - apply isAnthropicModel_spec in Ha. split.
    + intros backend. split.
      * intros [= <-]. split; [exists cfg; auto | auto].
      * intros [(cfg' & H & H') _]. injection H as <-. congruence.
    + split; [discriminate|].
      intros [H|[(cfg' & H & H')|[(cfg' & b' & H & H' & He')|H]]].
      * discriminate.
      * injection H as <-. congruence.
      * injection H as <-. rewrite Hc in H'. injection H' as <-. congruence.
      * contradiction.
  - assert (Hn : ~ names_anthropic_model modelId).
    { intros H. apply isAnthropicModel_spec in H. congruence. }
    split.
    + intros backend. split; [discriminate|]. intros (_ & _ & H). contradiction.
    + split; [|reflexivity]. intros _. right; right; right. exact Hn.
Qed.

End LocalBackendFacts.

(** ** Model-id normalisation *)

Module NormalizeFacts.
Import JsString JsStringFacts Router.

Lemma splitVendor_some (s vendor rest : string) :
  splitVendor s = (vendor, Some rest) ->
  s = vendor +:+ "/" +:+ rest /\ no_slash vendor = true.
Proof.
  revert vendor. induction s as [|c s IH]; simpl; intros vendor H; [discriminate|].
  destruct (char_eqb c "/") eqn:E.
  - injection H as <- <-. apply Utf16Facts.char_eqb_eq in E. subst c. split; reflexivity.
  - destruct (splitVendor s) as [v r]. injection H as <- ->.
    destruct (IH v eq_refl) as [-> Hv]. split; [reflexivity|].
    simpl. rewrite E, Hv. reflexivity.
Qed.

Lemma splitVendor_none (s vendor : string) :
  splitVendor s = (vendor, None) -> vendor = s /\ no_slash s = true.
Proof.
  revert vendor. induction s as [|c s IH]; simpl; intros vendor H.
  - injection H as <-. split; reflexivity.
  - destruct (char_eqb c "/") eqn:E; [discriminate|].
    destruct (splitVendor s) as [v r]. injection H as <- ->.
    destruct (IH v eq_refl) as [-> Hs]. split; [reflexivity|].
    rewrite Hs. reflexivity.
Qed.

Lemma splitVendor_app (vendor rest : string) :
  no_slash vendor = true ->
  splitVendor (vendor +:+ "/" +:+ rest) = (vendor, Some rest).
Proof.
  induction vendor as [|c v IH]; simpl in *; intros H; [reflexivity|].
  apply andb_true_iff in H as [Hc Hv]. apply negb_true_iff in Hc.
  rewrite Hc, (IH Hv). reflexivity.
Qed.

Lemma splitVendor_no_slash (s : string) :
  no_slash s = true -> splitVendor s = (s, None).
Proof.
  induction s as [|c s IH]; simpl; intros H; [reflexivity|].
  apply andb_true_iff in H as [Hc Hs]. apply negb_true_iff in Hc.
  rewrite Hc, (IH Hs). reflexivity.
Qed.

Lemma no_slash_toLowerCase (s : string) : no_slash (asciiLowerCase s) = no_slash s.
Proof.
  induction s as [|c s IH]; simpl; [reflexivity|].
  rewrite lower_char_slash, IH. reflexivity.
Qed.

Lemma head_ok_lowered (vendor rest : string) :
  head_ok (vendor +:+ "/" +:+ rest) = true ->
  head_ok (asciiLowerCase vendor +:+ "/" +:+ rest) = true.
Proof.
  destruct vendor as [|c v]; simpl; [reflexivity|].
  rewrite lower_char_space. auto.
Qed.

Lemma last_ok_app (a b : string) :
  b <> EmptyString -> last_ok (a +:+ b) = last_ok b.
Proof.
  intros Hb. induction a as [|c a IH]; simpl; [reflexivity|].
  destruct (a +:+ b) eqn:E; [|exact IH].
  destruct a; simpl in E; [contradiction|discriminate].
Qed.

Lemma last_ok_lowered (vendor rest : string) :
  last_ok (vendor +:+ "/" +:+ rest) = true ->
  last_ok (asciiLowerCase vendor +:+ "/" +:+ rest) = true.
Proof.
  assert (Hne : "/" +:+ rest <> EmptyString) by (simpl; discriminate).
  rewrite (last_ok_app vendor _ Hne), (last_ok_app (asciiLowerCase vendor) _ Hne).
  auto.
Qed.

(** Every string is its trimmed core between two runs of white space. *)
Lemma trimStart_decompose (s : string) :
  exists w, all_space w = true /\ s = w +:+ trimStart s.
Proof.
  induction s as [|c s (w & Hw & IH)]; simpl.
  - exists EmptyString. split; reflexivity.
  - destruct (is_space c) eqn:E.
    + exists (String c w). simpl. rewrite E, Hw. split; [reflexivity|].
      f_equal. exact IH.
    + exists EmptyString. split; reflexivity.
Qed.

Lemma trimEnd_decompose (s : string) :
  exists w, all_space w = true /\ s = trimEnd s +:+ w.
Proof.
  induction s as [|c s (w & Hw & IH)]; simpl.
  - exists EmptyString. split; reflexivity.
  - destruct (trimEnd s) as [|d t] eqn:E.
    + destruct (is_space c) eqn:Ec.
      * exists (String c w). simpl. rewrite Ec, Hw. split; [reflexivity|].
        f_equal. exact IH.
      * exists w. split; [exact Hw|]. simpl. f_equal. exact IH.
    + exists w. split; [exact Hw|]. simpl. f_equal. exact IH.
Qed.

Lemma trim_decompose (s : string) :
  exists w1 w2,
    all_space w1 = true /\ all_space w2 = true /\ s = w1 +:+ trim s +:+ w2.
Proof.
  destruct (trimStart_decompose s) as (w1 & H1 & E1).
  destruct (trimEnd_decompose (trimStart s)) as (w2 & H2 & E2).
  exists w1, w2. repeat split; try assumption.
  unfold trim. rewrite <- E2. exact E1.
Qed.

Lemma normalizeModelId_clean (vendor rest : string) :
  no_slash vendor = true ->
  head_ok (vendor +:+ "/" +:+ rest) = true ->
  last_ok (vendor +:+ "/" +:+ rest) = true ->
  normalizeModelId (vendor +:+ "/" +:+ rest) = asciiLowerCase vendor +:+ "/" +:+ rest.
Proof.
  intros Hv Hh Hl. unfold normalizeModelId.
  rewrite (trim_fixed _ Hh Hl), (splitVendor_app _ _ Hv). reflexivity.
Qed.

Lemma normalizeModelId_padded (w1 vendor rest w2 : string) :
  all_space w1 = true -> all_space w2 = true ->
  no_slash vendor = true ->
  head_ok (vendor +:+ "/" +:+ rest) = true ->
  last_ok (vendor +:+ "/" +:+ rest) = true ->
  normalizeModelId (w1 +:+ (vendor +:+ "/" +:+ rest) +:+ w2)
  = asciiLowerCase vendor +:+ "/" +:+ rest.
Proof.
  intros H1 H2 Hv Hh Hl. unfold normalizeModelId.
  rewrite (trim_padded _ _ _ H1 H2 Hh Hl), (splitVendor_app _ _ Hv). reflexivity.
Qed.

Example normalizeModelId_deepseek :
  normalizeModelId "  DEEPSEEK/deepseek-chat  " = "deepseek/deepseek-chat".
Proof. reflexivity. Qed.

Example normalizeModelId_keeps_rest :
  normalizeModelId " OpenAI/GPT-4o/Mini " = "openai/GPT-4o/Mini".
Proof. reflexivity. Qed.

(** C8.  Model-id normalisation is idempotent: normalising a normalised id
    changes nothing, for every input string. *)
Theorem normalizeModelId_idempotent (x : string) :
  normalizeModelId (normalizeModelId x) = normalizeModelId x.
Proof.
  pose proof (trim_head_ok x) as Hh. pose proof (trim_last_ok x) as Hl.
  destruct (splitVendor (trim x)) as [vendor [rest|]] eqn:E.
  - assert (Hn : normalizeModelId x = asciiLowerCase vendor +:+ "/" +:+ rest).
    { unfold normalizeModelId. rewrite E. reflexivity. }
    apply splitVendor_some in E as [E Hv]. rewrite E in Hh, Hl.
    rewrite Hn, normalizeModelId_clean.
    + rewrite asciiLowerCase_idempotent. reflexivity.
    + rewrite no_slash_toLowerCase. exact Hv.
    + apply head_ok_lowered, Hh.
    + apply last_ok_lowered, Hl.
  - assert (Hn : normalizeModelId x = trim x).
    { unfold normalizeModelId. rewrite E. reflexivity. }
    rewrite Hn. unfold normalizeModelId. rewrite trim_idempotent, E. reflexivity.
Qed.

End NormalizeFacts.

(** ** Candidate chains and the fallback executor *)

Module ChainFacts.
Import JsString JsStringFacts Router.

Lemma existsb_eqb_elem (x : string) (seen : list string) :
  existsb (Utf16.eqb x) seen = true <-> x ∈ seen.
Proof.
  rewrite existsb_exists. split.
  - intros (y & Hy & E). apply Utf16Facts.eqb_eq in E. subst y.
    apply list_elem_of_In, Hy.
  - intros H. exists x. split; [apply list_elem_of_In, H | apply Utf16Facts.eqb_refl].
Qed.

Lemma dedup_elem (seen l : list string) (y : string) :
  y ∈ dedup seen l <-> y ∈ l /\ y ∉ seen.
Proof.
  revert seen. induction l as [|x l IH]; intros seen; simpl.
  - split; [intros H; inversion H | intros [H _]; inversion H].
  - destruct (existsb (Utf16.eqb x) seen) eqn:E.
    + apply existsb_eqb_elem in E. rewrite IH, elem_of_cons.
      split; [tauto|]. intros [[->|H] Hn]; [contradiction | tauto].
    + assert (Hx : x ∉ seen).
      { intros H. apply existsb_eqb_elem in H. congruence. }
      rewrite !elem_of_cons, IH, elem_of_cons.
      split.
      * intros [->|(H & Hn)]; [tauto|]. split; [tauto|]. tauto.
      * intros [[->|H] Hn]; [tauto|].
        destruct (decide (y = x)) as [->|Hne]; [tauto|]. right. tauto.
Qed.

Lemma dedup_NoDup (seen l : list string) : NoDup (dedup seen l).
Proof.
  revert seen. induction l as [|x l IH]; intros seen; simpl.
  - constructor.
  - destruct (existsb (Utf16.eqb x) seen); [apply IH|].
    apply NoDup_cons. split; [|apply IH].
    rewrite dedup_elem, elem_of_cons. tauto.
Qed.

(** With nothing placed yet, the first candidate stays at the head. *)
Lemma dedup_head (x : string) (l : list string) :
  dedup [] (x :: l) = x :: dedup [x] l.
Proof. reflexivity. Qed.

Lemma existsb_eqb_false (x : string) (seen : list string) :
  existsb (Utf16.eqb x) seen = false <-> x ∉ seen.
Proof.
  rewrite <- existsb_eqb_elem. destruct (existsb _ _); split; congruence.
Qed.

(** An id appended to the candidates stays at the end when it is new. *)
Lemma dedup_snoc (seen l : list string) (x : string) :
  x ∉ l -> x ∉ seen -> dedup seen (l ++ [x]) = dedup seen l ++ [x].
Proof.
  revert seen. induction l as [|y l IH]; intros seen Hl Hs; simpl.
  - apply existsb_eqb_false in Hs. rewrite Hs. reflexivity.
  - apply not_elem_of_cons in Hl as [Hxy Hl].
    destruct (existsb (Utf16.eqb y) seen); [apply IH; assumption|].
    rewrite IH; [reflexivity|assumption|].
    apply not_elem_of_cons. split; assumption.
Qed.

(** An id appended to the candidates goes when it occurs before. *)
Lemma dedup_snoc_seen (seen l : list string) (x : string) :
  x ∈ l \/ x ∈ seen -> dedup seen (l ++ [x]) = dedup seen l.
Proof.
  revert seen. induction l as [|y l IH]; intros seen H; simpl.
  - destruct H as [H|H]; [inversion H|].
    apply existsb_eqb_elem in H. rewrite H. reflexivity.
  - destruct (existsb (Utf16.eqb y) seen) eqn:E.
    + apply IH. destruct H as [H|H]; [|tauto].
      apply elem_of_cons in H as [->|H]; [|tauto].
      right. apply existsb_eqb_elem, E.
    + rewrite IH; [reflexivity|].
      destruct H as [H|H].
      * apply elem_of_cons in H as [->|H]; [right; left|tauto].
      * right. right. exact H.
Qed.

(** Steps 3 and 4 together: the emergency model is added at the end of
    the candidates that do not name it, and nothing is added to those that
    do. *)
Lemma candidate_chain_spec (l : list string) :
  candidate_chain l
  = if decide (EMERGENCY_FREE_MODEL ∈ l) then dedup [] l
    else dedup [] l ++ [EMERGENCY_FREE_MODEL].
Proof.
  unfold candidate_chain. destruct (decide _) as [H|H].
  - apply dedup_snoc_seen. tauto.
  - apply dedup_snoc; [exact H|]. intros Hn. inversion Hn.
Qed.

Lemma candidate_chain_last (l : list string) :
  EMERGENCY_FREE_MODEL ∉ l ->
  last (candidate_chain l) = Some EMERGENCY_FREE_MODEL.
Proof.
  intros H. rewrite candidate_chain_spec.
  destruct (decide _); [contradiction|]. apply last_snoc.
Qed.

Lemma candidate_chain_NoDup (l : list string) : NoDup (candidate_chain l).
Proof. apply dedup_NoDup. Qed.

Lemma candidate_chain_elem (l : list string) (y : string) :
  y ∈ candidate_chain l <-> y ∈ l \/ y = EMERGENCY_FREE_MODEL.
Proof.
  unfold candidate_chain.
  rewrite dedup_elem, elem_of_app, list_elem_of_singleton.
  split; [tauto|]. intros H. split; [exact H|]. intros Hn. inversion Hn.
Qed.

Lemma candidate_chain_single (m : string) :
  m <> EMERGENCY_FREE_MODEL ->
  candidate_chain [m] = [m; EMERGENCY_FREE_MODEL].
Proof.
  intros H.
  assert (E : Utf16.eqb EMERGENCY_FREE_MODEL m = false).
  { apply Utf16Facts.eqb_neq. congruence. }
  change (candidate_chain [m])
    with (m :: (if Utf16.eqb EMERGENCY_FREE_MODEL m || false then []
                else [EMERGENCY_FREE_MODEL])).
  rewrite E. reflexivity.
Qed.

Lemma candidate_chain_free_alone :
  candidate_chain [EMERGENCY_FREE_MODEL] = [EMERGENCY_FREE_MODEL].
Proof. reflexivity. Qed.

Lemma candidate_chain_empty : candidate_chain [] = [EMERGENCY_FREE_MODEL].
Proof. reflexivity. Qed.

(** *** The pinned model at the head *)

Lemma place_at_head_elem (pinned : string) (chain : list string) (y : string) :
  y ∈ place_at_head pinned chain <-> y = pinned \/ y ∈ chain.
Proof.
  unfold place_at_head.
  rewrite elem_of_cons, !list_elem_of_In, List.filter_In, negb_true_iff,
    Utf16Facts.eqb_neq.
  destruct (decide (y = pinned)); tauto.
Qed.

Lemma place_at_head_NoDup (pinned : string) (chain : list string) :
  NoDup chain -> NoDup (place_at_head pinned chain).
Proof.
  intros H. unfold place_at_head. apply NoDup_cons. split.
  - rewrite list_elem_of_In, List.filter_In, negb_true_iff, Utf16Facts.eqb_neq.
    tauto.
  - apply NoDup_ListNoDup, List.NoDup_filter, NoDup_ListNoDup, H.
Qed.

Lemma place_at_head_last (pinned x : string) (chain : list string) :
  x <> pinned -> last chain = Some x ->
  last (place_at_head pinned chain) = Some x.
Proof.
  intros Hx H. apply last_Some in H as [l ->]. unfold place_at_head.
  rewrite List.filter_app. simpl.
  apply Utf16Facts.eqb_neq in Hx. rewrite Hx. simpl.
  rewrite app_comm_cons. apply last_snoc.
Qed.

(** Placing the head of a chain at its head changes nothing. *)
Lemma place_at_head_head (m : string) (rest : list string) :
  NoDup (m :: rest) -> place_at_head m (m :: rest) = m :: rest.
Proof.
  intros H. apply NoDup_cons in H as [Hm _]. unfold place_at_head. simpl.
  rewrite Utf16Facts.eqb_refl. simpl. f_equal.
  induction rest as [|y rest IH]; simpl; [reflexivity|].
  apply not_elem_of_cons in Hm as [Hy Hm].
  assert (E : Utf16.eqb y m = false) by (apply Utf16Facts.eqb_neq; congruence).
  rewrite E. simpl. f_equal. apply IH, Hm.
Qed.

(** *** The chain of a request *)

Lemma route_NoDup (cat : Catalog) (req : Request) (store : list Pin) (now : Z) :
  NoDup (route cat req store now).
Proof.
  unfold route. destruct (balance_empty req); [apply candidate_chain_NoDup|].
  destruct (pinned_model cat req store now);
    [apply place_at_head_NoDup|]; apply candidate_chain_NoDup.
Qed.

Lemma route_has_emergency_model (cat : Catalog) (req : Request)
    (store : list Pin) (now : Z) :
  EMERGENCY_FREE_MODEL ∈ route cat req store now.
Proof.
  unfold route. destruct (balance_empty req).
  - apply candidate_chain_elem. tauto.
  - destruct (pinned_model cat req store now).
    + apply place_at_head_elem. right. apply candidate_chain_elem. tauto.
    + apply candidate_chain_elem. tauto.
Qed.

Lemma route_elem (cat : Catalog) (req : Request) (store : list Pin) (now : Z)
    (y : string) :
  y ∈ route cat req store now ->
  y = EMERGENCY_FREE_MODEL \/ y ∈ primary_and_tier cat req
  \/ pinned_model cat req store now = Some y.
Proof.
  unfold route. destruct (balance_empty req).
  - rewrite candidate_chain_elem. intros [H|H]; [inversion H|tauto].
  - destruct (pinned_model cat req store now) as [m|].
    + rewrite place_at_head_elem, candidate_chain_elem.
      intros [->|[H|H]]; tauto.
    + rewrite candidate_chain_elem. tauto.
Qed.

(** The emergency model is the last of the chain unless it occurs earlier,
    as the pinned model or among the primary and its tier. *)
Lemma route_last (cat : Catalog) (req : Request) (store : list Pin) (now : Z) :
  pinned_model cat req store now <> Some EMERGENCY_FREE_MODEL ->
  EMERGENCY_FREE_MODEL ∉ primary_and_tier cat req ->
  last (route cat req store now) = Some EMERGENCY_FREE_MODEL.
Proof.
  intros Hp Hl. unfold route. destruct (balance_empty req); [reflexivity|].
  destruct (pinned_model cat req store now) as [m|].
  - apply place_at_head_last; [congruence|]. apply candidate_chain_last, Hl.
  - apply candidate_chain_last, Hl.
Qed.

Lemma route_explicit (cat : Catalog) (req : Request) (store : list Pin) (now : Z) :
  profileOf (model req) = ProfileExplicit ->
  balance_empty req = false ->
  pinned_model cat req store now = None
  \/ pinned_model cat req store now = Some (normalizeModelId (model req)) ->
  route cat req store now = candidate_chain [normalizeModelId (model req)].
Proof.
  intros Hp Hb Hn. unfold route, primary_and_tier. rewrite Hb, Hp.
  destruct Hn as [-> | ->]; [reflexivity|].
  pose proof (candidate_chain_NoDup [normalizeModelId (model req)]) as Hd.
  revert Hd. unfold candidate_chain. simpl. apply place_at_head_head.
Qed.

Lemma route_empty_balance (cat : Catalog) (req : Request) (store : list Pin)
    (now : Z) :
  balance_empty req = true -> route cat req store now = [EMERGENCY_FREE_MODEL].
Proof. intros H. unfold route. rewrite H. reflexivity. Qed.

Lemma pinned_model_sessionless (cat : Catalog) (req : Request) (store : list Pin)
    (now : Z) :
  session_id req = None -> pinned_model cat req store now = None.
Proof. intros H. unfold pinned_model. rewrite H. reflexivity. Qed.

(** *** The executor, one step at a time *)

Section Executor.

Context (cat : Catalog) (upstream : string -> UpstreamReply).

(** Case analysis on the kind of the attempt at [m]. *)
Ltac by_kind m := destruct (classify cat (upstream m)); try discriminate.

Lemma execute_success (m : string) (rest : list string)
    (last : option DispatchResult) :
  kind (dispatch cat upstream m) = Success ->
  execute cat upstream (m :: rest) last
  = {| sent := [m]; result := Some (dispatch cat upstream m); served_by := Some m |}.
Proof. intros H. simpl in *. rewrite H. reflexivity. Qed.

Lemma execute_client_error (m : string) (rest : list string)
    (last : option DispatchResult) :
  kind (dispatch cat upstream m) = ClientError ->
  execute cat upstream (m :: rest) last
  = {| sent := [m]; result := Some (dispatch cat upstream m); served_by := None |}.
Proof. intros H. simpl in *. rewrite H. reflexivity. Qed.

Lemma execute_recoverable (m : string) (rest : list string)
    (last : option DispatchResult) :
  recoverable (kind (dispatch cat upstream m)) = true ->
  execute cat upstream (m :: rest) last
  = let o := execute cat upstream rest (Some (dispatch cat upstream m)) in
    {| sent := m :: sent o; result := result o; served_by := served_by o |}.
Proof. intros H. simpl in *. by_kind m; reflexivity. Qed.

(** The executor never sends more than the chain, in the chain's order, and
    so never the same model twice when the chain has no repetition. *)
Lemma execute_sent_prefix (chain : list string) (last : option DispatchResult) :
  sent (execute cat upstream chain last) `prefix_of` chain.
Proof.
  revert last. induction chain as [|m rest IH]; intros last; simpl.
  - reflexivity.
  - by_kind m; simpl;
      try (apply prefix_cons, IH);
      apply prefix_cons, prefix_nil.
Qed.

Lemma execute_sent_NoDup (chain : list string) (last : option DispatchResult) :
  NoDup chain -> NoDup (sent (execute cat upstream chain last)).
Proof.
  intros H. destruct (execute_sent_prefix chain last) as [k Hk].
  rewrite Hk in H. apply NoDup_app in H. tauto.
Qed.

(** A pin is written only for a model whose attempt was a success. *)
Lemma execute_served_by (chain : list string) (last : option DispatchResult)
    (m : string) :
  served_by (execute cat upstream chain last) = Some m ->
  m ∈ chain /\ kind (dispatch cat upstream m) = Success.
Proof.
  revert last. induction chain as [|c rest IH]; intros last; simpl; [discriminate|].
  destruct (classify cat (upstream c)) eqn:E; simpl; try discriminate;
    try (intros H; destruct (IH _ H) as [Hin Hk]; split;
         [apply elem_of_cons; right; exact Hin | exact Hk]).
  intros [= <-]. split; [apply elem_of_cons; left; reflexivity | exact E].
Qed.

Lemma execute_two (m free : string) :
  recoverable (kind (dispatch cat upstream m)) = true ->
  sent (execute cat upstream [m; free] None) = [m; free].
Proof.
  intros H. rewrite (execute_recoverable _ _ _ H). simpl.
  by_kind free; reflexivity.
Qed.

End Executor.

End ChainFacts.

(** ** The routing claims *)

Module RouterFacts.
Import JsString JsStringFacts Router NormalizeFacts ChainFacts.

Lemma handle_request_outcome (cat : Catalog) (upstream : string -> UpstreamReply)
    (store : list Pin) (now : Z) (req : Request) :
  (handle_request cat upstream store now req).1
  = execute cat upstream (route cat req store now) None.
Proof.
  unfold handle_request.
  destruct (served_by _); destruct (session_id req); reflexivity.
Qed.

Lemma classify_marker (cat : Catalog) (status : Z) (body : string) :
  includes PAYMENT_FAILED_MARKER body = true ->
  classify cat (HttpReply status body) = PaymentError.
Proof. intros H. simpl. rewrite H, orb_true_r. reflexivity. Qed.

Lemma classify_402 (cat : Catalog) (body : string) :
  classify cat (HttpReply 402 body) = PaymentError.
Proof. reflexivity. Qed.

(** The first regression test: the model fails with a 400 that wraps the
    payment failure, every other model answers. *)
Example wrapped_failure_test :
  sent (handle_request sample_catalog
          (mock_upstream ["xai/grok-code-fast-1"] wrapped_payment_failure)
          [] 0 (plain_request "xai/grok-code-fast-1")).1
  = ["xai/grok-code-fast-1"; "nvidia/gpt-oss-120b"].
Proof. reflexivity. Qed.

(** *** The session pin store *)

Lemma pin_matches_spec (session : string) (profile : TierProfile) (p : Pin) :
  pin_matches session profile p = true
  <-> pin_session p = session /\ pin_profile p = profile.
Proof.
  unfold pin_matches.
  rewrite andb_true_iff, Utf16Facts.eqb_eq, bool_decide_eq_true. reflexivity.
Qed.

Lemma pin_get_some (store : list Pin) (session : string) (profile : TierProfile)
    (now : Z) (m : string) :
  (pin_get store session profile now).1 = Some m ->
  exists p, p ∈ store /\ pin_session p = session /\ pin_profile p = profile
            /\ pin_model p = m /\ now < pin_expires_at p.
Proof.
  unfold pin_get.
  destruct (List.find (pin_matches session profile) store) as [p|] eqn:E;
    [|discriminate].
  apply List.find_some in E as [Hin Hm]. apply pin_matches_spec in Hm as [Hs Hp].
  destruct (now <? pin_expires_at p) eqn:Ht; [|discriminate].
  simpl. intros [= <-]. exists p. apply Z.ltb_lt in Ht.
  rewrite list_elem_of_In. auto.
Qed.

Lemma pin_get_store_subset (store : list Pin) (session : string)
    (profile : TierProfile) (now : Z) (p : Pin) :
  p ∈ (pin_get store session profile now).2 -> p ∈ store.
Proof.
  unfold pin_get.
  destruct (List.find (pin_matches session profile) store) as [q|]; [|auto].
  destruct (now <? pin_expires_at q); simpl; [auto|].
  rewrite !list_elem_of_In, List.filter_In. tauto.
Qed.

Lemma elem_of_tail {A : Type} (x : A) (l : list A) : x ∈ tail l -> x ∈ l.
Proof. destruct l; simpl; [auto|]. intros H. apply elem_of_cons. right. exact H. Qed.

(** A store after [set] holds pins of the store before and the new pin. *)
Lemma pin_set_elem (cat : Catalog) (store : list Pin) (session : string)
    (profile : TierProfile) (m : string) (now : Z) (p : Pin) :
  p ∈ pin_set cat store session profile m now ->
  p ∈ store
  \/ p = {| pin_session := session; pin_profile := profile; pin_model := m;
            pin_expires_at := now + pin_ttl cat |}.
Proof.
  unfold pin_set. intros H.
  assert (H' : p ∈ List.filter (fun q => negb (pin_matches session profile q)) store
                   ++ [{| pin_session := session; pin_profile := profile;
                          pin_model := m; pin_expires_at := now + pin_ttl cat |}]).
  { destruct (_ <? _)%nat in H; [apply elem_of_tail|]; exact H. }
  apply elem_of_app in H' as [H'|H'].
  - left. rewrite list_elem_of_In in *. apply List.filter_In in H'. tauto.
  - right. apply list_elem_of_singleton in H'. exact H'.
Qed.

(** Every pin in the store after a request was there before, or is the pin
    of this request's own session and profile for the model that succeeded. *)
Lemma handle_request_pins (cat : Catalog) (upstream : string -> UpstreamReply)
    (store : list Pin) (now : Z) (req : Request) (p : Pin) :
  p ∈ (handle_request cat upstream store now req).2 ->
  p ∈ store
  \/ (session_id req = Some (pin_session p)
      /\ pin_profile p = profileOf (model req)
      /\ served_by (handle_request cat upstream store now req).1 = Some (pin_model p)).
Proof.
  rewrite handle_request_outcome. unfold handle_request.
  destruct (served_by _) as [m|]; destruct (session_id req) as [session|]; simpl.
  - intros H. apply pin_set_elem in H as [H| ->].
    + left. eapply pin_get_store_subset, H.
    + right. auto.
  - auto.
  - intros H. left. eapply pin_get_store_subset, H.
  - auto.
Qed.

(** C1, as the specification states it, fails for a request that is not
    routed to its own model first.  A session whose pin under the explicit
    profile is [openai/gpt-4o] asks for [xai/grok-code-fast-1]; the first
    attempt returns the wrapped failure and the models sent are
    [openai/gpt-4o] and then [xai/grok-code-fast-1].  With an empty wallet
    the only model sent is [nvidia/gpt-oss-120b]. *)
Lemma wrapped_failure_sequence_after_pin_or_empty_balance :
  (let first :=
     handle_request sample_catalog (mock_upstream [] billing_error) [] 0
       (session_request "sess-1" "openai/gpt-4o") in
   let upstream := mock_upstream ["openai/gpt-4o"] wrapped_payment_failure in
   let second :=
     handle_request sample_catalog upstream first.2 1000
       (session_request "sess-1" "xai/grok-code-fast-1") in
   profileOf "xai/grok-code-fast-1" = ProfileExplicit
   /\ (pin_get first.2 "sess-1" ProfileExplicit 1000).1 = Some "openai/gpt-4o"
   /\ head (sent second.1) = Some "openai/gpt-4o"
   /\ upstream "openai/gpt-4o" = wrapped_payment_failure
   /\ sent second.1 = ["openai/gpt-4o"; "xai/grok-code-fast-1"]
   /\ sent second.1 <> ["xai/grok-code-fast-1"; "nvidia/gpt-oss-120b"])
  /\ (let upstream :=
        mock_upstream ["xai/grok-code-fast-1"; "nvidia/gpt-oss-120b"]
          wrapped_payment_failure in
      let only :=
        handle_request sample_catalog upstream [] 0
          (empty_balance_request "xai/grok-code-fast-1") in
      head (sent only.1) = Some "nvidia/gpt-oss-120b"
      /\ upstream "nvidia/gpt-oss-120b" = wrapped_payment_failure
      /\ sent only.1 = ["nvidia/gpt-oss-120b"]
      /\ sent only.1 <> ["xai/grok-code-fast-1"; "nvidia/gpt-oss-120b"]).
Proof. repeat split; try reflexivity; vm_compute; discriminate. Qed.

(** C1 (amended).  A response whose body contains the token
    [x402_payment_failed] is classified as a payment failure whatever its
    HTTP status, just as a direct 402 is; the executor then moves on to the
    next candidate in the same way for both; and a request for the explicit
    model [xai/grok-code-fast-1] whose wallet is not empty and whose session
    has no pin for another model, and whose first attempt returns such a
    wrapped failure, sends exactly [xai/grok-code-fast-1] and then
    [nvidia/gpt-oss-120b] upstream. *)
Theorem wrapped_payment_failure_falls_back (cat : Catalog) :
  (forall status before after,
     classify cat
       (HttpReply status (before +:+ PAYMENT_FAILED_MARKER +:+ after))
     = PaymentError)
  /\ (forall body, classify cat (HttpReply 402 body) = PaymentError)
  /\ (forall upstream m rest last,
        kind (dispatch cat upstream m) = PaymentError ->
        execute cat upstream (m :: rest) last
        = let o := execute cat upstream rest (Some (dispatch cat upstream m)) in
          {| sent := m :: sent o; result := result o; served_by := served_by o |})
  /\ (forall upstream store now req status before after,
        model req = "xai/grok-code-fast-1" ->
        balance_empty req = false ->
        pinned_model cat req store now = None
        \/ pinned_model cat req store now = Some "xai/grok-code-fast-1" ->
        upstream "xai/grok-code-fast-1"
        = HttpReply status (before +:+ PAYMENT_FAILED_MARKER +:+ after) ->
        sent (handle_request cat upstream store now req).1
        = ["xai/grok-code-fast-1"; "nvidia/gpt-oss-120b"]).
Proof.
  assert (Hm : forall status before after,
             classify cat
               (HttpReply status (before +:+ PAYMENT_FAILED_MARKER +:+ after))
             = PaymentError).
  { intros status before after. apply classify_marker.
    apply includes_spec. exists before, after. reflexivity. }
  split; [exact Hm|]. split; [apply classify_402|]. split.
  - intros upstream m rest last H. apply execute_recoverable. rewrite H. reflexivity.
  - intros upstream store now req status before after Hmodel Hb Hp Hup.
    assert (Hn : normalizeModelId (model req) = "xai/grok-code-fast-1")
      by (rewrite Hmodel; reflexivity).
    rewrite handle_request_outcome, route_explicit; try assumption.
    2:{ rewrite Hmodel. reflexivity. }
    2:{ rewrite Hn. exact Hp. }
    rewrite Hn, candidate_chain_single by discriminate.
    apply execute_two. unfold dispatch. simpl kind. rewrite Hup, Hm. reflexivity.
Qed.

(** The theorem at the request of the regression test. *)
Lemma wrapped_payment_failure_witness :
  sent (handle_request sample_catalog
          (mock_upstream ["xai/grok-code-fast-1"] wrapped_payment_failure)
          [] 0 (plain_request "xai/grok-code-fast-1")).1
  = ["xai/grok-code-fast-1"; "nvidia/gpt-oss-120b"].
Proof.
  exact (proj2 (proj2 (proj2 (wrapped_payment_failure_falls_back sample_catalog)))
           (mock_upstream ["xai/grok-code-fast-1"] wrapped_payment_failure)
           [] 0 (plain_request "xai/grok-code-fast-1")
           400 "Payment required: " ", merchant_status 402"
           eq_refl eq_refl (or_introl eq_refl) eq_refl).
Defined.

(** The fifth fallback test: an explicit model fails with a billing error
    and the free model answers. *)
Example explicit_fallback_test :
  sent (handle_request sample_catalog (mock_upstream ["openai/gpt-4o"] billing_error)
          [] 0 (plain_request "openai/gpt-4o")).1
  = ["openai/gpt-4o"; "nvidia/gpt-oss-120b"].
Proof. reflexivity. Qed.

Example premium_chain :
  route sample_catalog (plain_request "premium") [] 0
  = ["anthropic/claude-sonnet-4"; "openai/gpt-4o"; "nvidia/gpt-oss-120b"].
Proof. reflexivity. Qed.

(** C2, as the specification states it, fails in two places.  The chain of
    the explicit model [nvidia/gpt-oss-120b] is that model alone (the
    emergency model appended in step 3 goes in step 4), so when its single
    attempt fails recoverably there is no second attempt.  And a session
    whose request was served by the emergency model has that model pinned:
    its next request has the emergency model at the head of the chain and
    the requested model at the end. *)
Lemma emergency_model_named_or_pinned :
  (let upstream := mock_upstream ["nvidia/gpt-oss-120b"] billing_error in
   let req := plain_request "nvidia/gpt-oss-120b" in
   profileOf (model req) = ProfileExplicit
   /\ route sample_catalog req [] 0 = ["nvidia/gpt-oss-120b"]
   /\ recoverable (kind (dispatch sample_catalog upstream "nvidia/gpt-oss-120b"))
      = true
   /\ sent (handle_request sample_catalog upstream [] 0 req).1
      = ["nvidia/gpt-oss-120b"]
   /\ sent (handle_request sample_catalog upstream [] 0 req).1 !! 1%nat
      <> Some "nvidia/gpt-oss-120b")
  /\ (let req := session_request "sess-1" "xai/grok-code-fast-1" in
      let first :=
        handle_request sample_catalog
          (mock_upstream ["xai/grok-code-fast-1"] billing_error) [] 0 req in
      served_by first.1 = Some "nvidia/gpt-oss-120b"
      /\ route sample_catalog req first.2 1000
         = ["nvidia/gpt-oss-120b"; "xai/grok-code-fast-1"]
      /\ last (route sample_catalog req first.2 1000)
         <> Some "nvidia/gpt-oss-120b").
Proof. repeat split; try reflexivity; vm_compute; discriminate. Qed.

(** C2 (amended).  Whatever alias or explicit model a request names, the
    candidate chain the router produces contains the emergency free model
    [nvidia/gpt-oss-120b] and has no model id twice; the emergency model is
    the last of the chain unless it occurs earlier, as the pinned model or
    among the primary and its tier, and it is the whole chain when the
    wallet is empty.  The chain of an explicit model other than the
    emergency model, with a wallet that is not empty and no pin for another
    model, is that model followed by the emergency model, so when its
    single attempt fails recoverably the second and final model attempted
    is [nvidia/gpt-oss-120b]; the chain of the emergency model named
    explicitly is that model alone. *)
Theorem chain_ends_with_emergency_model (cat : Catalog)
    (upstream : string -> UpstreamReply) (store : list Pin) (now : Z)
    (req : Request) :
  EMERGENCY_FREE_MODEL ∈ route cat req store now
  /\ NoDup (route cat req store now)
  /\ (pinned_model cat req store now <> Some EMERGENCY_FREE_MODEL ->
      EMERGENCY_FREE_MODEL ∉ primary_and_tier cat req ->
      last (route cat req store now) = Some EMERGENCY_FREE_MODEL)
  /\ (balance_empty req = true ->
      route cat req store now = [EMERGENCY_FREE_MODEL])
  /\ (profileOf (model req) = ProfileExplicit ->
      balance_empty req = false ->
      pinned_model cat req store now = None
      \/ pinned_model cat req store now = Some (normalizeModelId (model req)) ->
      (normalizeModelId (model req) <> EMERGENCY_FREE_MODEL ->
       route cat req store now
       = [normalizeModelId (model req); EMERGENCY_FREE_MODEL]
       /\ (recoverable
             (kind (dispatch cat upstream (normalizeModelId (model req)))) = true ->
           sent (handle_request cat upstream store now req).1
           = [normalizeModelId (model req); EMERGENCY_FREE_MODEL]))
      /\ (normalizeModelId (model req) = EMERGENCY_FREE_MODEL ->
          route cat req store now = [EMERGENCY_FREE_MODEL])).
Proof.
  split; [apply route_has_emergency_model|]. split; [apply route_NoDup|].
  split; [apply route_last|]. split; [apply route_empty_balance|].
  intros Hp Hb Hn. rewrite handle_request_outcome, route_explicit by assumption.
  split.
  - intros Hne. rewrite candidate_chain_single by assumption.
    split; [reflexivity|]. intros Hr. apply execute_two, Hr.
  - intros ->. reflexivity.
Qed.

(** The theorem at the fifth fallback test. *)
Lemma chain_ends_with_emergency_model_witness :
  sent (handle_request sample_catalog (mock_upstream ["openai/gpt-4o"] billing_error)
          [] 0 (plain_request "openai/gpt-4o")).1
  = ["openai/gpt-4o"; "nvidia/gpt-oss-120b"].
Proof.
  refine (proj2 (proj1 (proj2 (proj2 (proj2 (proj2
            (chain_ends_with_emergency_model sample_catalog
               (mock_upstream ["openai/gpt-4o"] billing_error) [] 0
               (plain_request "openai/gpt-4o")))))
            eq_refl eq_refl (or_introl eq_refl)) _) eq_refl).
  vm_compute. discriminate.
Defined.

(** The sixth fallback test: case and padding of an explicit model. *)
Example explicit_normalization_test :
  sent (handle_request sample_catalog (mock_upstream [] billing_error)
          [] 0 (plain_request "  DEEPSEEK/deepseek-chat  ")).1
  = ["deepseek/deepseek-chat"].
Proof. reflexivity. Qed.

(** C7, as the specification states it, fails for a request that is not
    routed to its own model first: with an empty wallet the explicit model
    ["  DEEPSEEK/deepseek-chat  "] is answered by [nvidia/gpt-oss-120b], the
    only model sent, and in a session whose pin under the explicit profile
    is [openai/gpt-4o] it is answered by that model. *)
Lemma explicit_model_not_forwarded_when_pinned_or_empty :
  (let only :=
     handle_request sample_catalog (mock_upstream [] billing_error) [] 0
       (empty_balance_request "  DEEPSEEK/deepseek-chat  ") in
   profileOf "  DEEPSEEK/deepseek-chat  " = ProfileExplicit
   /\ sent only.1 = ["nvidia/gpt-oss-120b"]
   /\ sent only.1 <> ["deepseek/deepseek-chat"])
  /\ (let first :=
        handle_request sample_catalog (mock_upstream [] billing_error) [] 0
          (session_request "sess-1" "openai/gpt-4o") in
      let second :=
        handle_request sample_catalog (mock_upstream [] billing_error)
          first.2 1000 (session_request "sess-1" "  DEEPSEEK/deepseek-chat  ") in
      sent second.1 = ["openai/gpt-4o"]
      /\ sent second.1 <> ["deepseek/deepseek-chat"]).
Proof. repeat split; try reflexivity; vm_compute; discriminate. Qed.

(** C7 (amended).  Normalisation trims the surrounding white space of a
    model string and lower-cases the vendor segment before the first ["/"],
    the rest of the id being kept as it is; an id without ["/"] is only
    trimmed.  For an explicit (non-alias) model whose wallet is not empty
    and whose session has no pin for another model, the upstream request
    carries exactly the normalised id, in a single upstream call when that
    call succeeds.  ["  DEEPSEEK/deepseek-chat  "] is forwarded as
    ["deepseek/deepseek-chat"]. *)
Theorem explicit_model_forwarded_normalized (cat : Catalog)
    (upstream : string -> UpstreamReply) (store : list Pin) (now : Z)
    (req : Request) :
  (forall x,
     (exists w1 w2,
        all_space w1 = true /\ all_space w2 = true
        /\ x = w1 +:+ trim x +:+ w2)
     /\ head_ok (trim x) = true /\ last_ok (trim x) = true
     /\ (forall vendor rest,
           no_slash vendor = true ->
           trim x = vendor +:+ "/" +:+ rest ->
           normalizeModelId x = asciiLowerCase vendor +:+ "/" +:+ rest)
     /\ (no_slash (trim x) = true -> normalizeModelId x = trim x))
  /\ (profileOf (model req) = ProfileExplicit ->
      balance_empty req = false ->
      pinned_model cat req store now = None
      \/ pinned_model cat req store now = Some (normalizeModelId (model req)) ->
      kind (dispatch cat upstream (normalizeModelId (model req))) = Success ->
      sent (handle_request cat upstream store now req).1
      = [normalizeModelId (model req)]
      /\ served_by (handle_request cat upstream store now req).1
         = Some (normalizeModelId (model req)))
  /\ normalizeModelId "  DEEPSEEK/deepseek-chat  " = "deepseek/deepseek-chat".
Proof.
  split; [|split; [|reflexivity]].
  - intros x. split; [|split; [apply trim_head_ok|split; [apply trim_last_ok|split]]].
    + destruct (trim_decompose x) as (w1 & w2 & H1 & H2 & E).
      exists w1, w2. repeat split; assumption.
    + intros vendor rest Hv Ht. unfold normalizeModelId.
      rewrite Ht, (splitVendor_app _ _ Hv). reflexivity.
    + intros Hs. unfold normalizeModelId.
      rewrite (splitVendor_no_slash _ Hs). reflexivity.
  - intros Hp Hb Hn Hs.
    rewrite handle_request_outcome, route_explicit by assumption.
    assert (He : forall chain,
               execute cat upstream (normalizeModelId (model req) :: chain) None
               = {| sent := [normalizeModelId (model req)];
                    result := Some (dispatch cat upstream (normalizeModelId (model req)));
                    served_by := Some (normalizeModelId (model req)) |}).
    { intros chain. apply execute_success, Hs. }
    destruct (decide (normalizeModelId (model req) = EMERGENCY_FREE_MODEL)) as [E|E].
    + rewrite E in *. rewrite candidate_chain_free_alone, He. repeat split.
    + rewrite candidate_chain_single, He by assumption. repeat split.
Qed.

(** The theorem at the sixth fallback test. *)
Lemma explicit_model_forwarded_normalized_witness :
  sent (handle_request sample_catalog (mock_upstream [] billing_error)
          [] 0 (plain_request "  DEEPSEEK/deepseek-chat  ")).1
  = ["deepseek/deepseek-chat"].
Proof.
  exact (proj1 (proj1 (proj2
           (explicit_model_forwarded_normalized sample_catalog
              (mock_upstream [] billing_error) [] 0
              (plain_request "  DEEPSEEK/deepseek-chat  ")))
           eq_refl eq_refl (or_introl eq_refl) eq_refl)).
Defined.

(** The second regression test: a premium request pins its model, and the
    economy request of the same session is routed as if there were no pin. *)
Example session_profile_switch_test :
  let first :=
    handle_request sample_catalog (mock_upstream [] billing_error) [] 0
      (session_request "sess-1" "premium") in
  served_by first.1 = Some "anthropic/claude-sonnet-4"
  /\ (pin_get first.2 "sess-1" ProfilePremium 1000).1 = Some "anthropic/claude-sonnet-4"
  /\ (pin_get first.2 "sess-1" ProfileEco 1000).1 = None
  /\ route sample_catalog (session_request "sess-1" "eco") first.2 1000
     = ["deepseek/deepseek-chat"; "nvidia/gpt-oss-120b"].
Proof. repeat split. Qed.

(** C3, as the specification states it, fails when the model pinned under
    [premium] is one the [eco] chain holds of its own: the premium models
    fail, the emergency model answers and is pinned under [premium]; the
    [eco] request of the same session finds no pin, and when its own model
    fails it is answered by the emergency model, the very model the first
    request pinned. *)
Lemma eco_request_served_by_pinned_emergency_model :
  let upstream :=
    mock_upstream
      ["anthropic/claude-sonnet-4"; "openai/gpt-4o"; "deepseek/deepseek-chat"]
      billing_error in
  let first :=
    handle_request sample_catalog upstream [] 0
      (session_request "sess-1" "premium") in
  let second :=
    handle_request sample_catalog upstream first.2 1000
      (session_request "sess-1" "eco") in
  served_by first.1 = Some "nvidia/gpt-oss-120b"
  /\ (pin_get first.2 "sess-1" ProfilePremium 1000).1 = Some "nvidia/gpt-oss-120b"
  /\ (pin_get first.2 "sess-1" ProfileEco 1000).1 = None
  /\ route sample_catalog (session_request "sess-1" "eco") first.2 1000
     = ["deepseek/deepseek-chat"; "nvidia/gpt-oss-120b"]
  /\ "nvidia/gpt-oss-120b"
     ∈ route sample_catalog (session_request "sess-1" "eco") first.2 1000
  /\ served_by second.1 = Some "nvidia/gpt-oss-120b".
Proof.
  repeat split; try reflexivity.
  apply elem_of_cons. right. apply elem_of_cons. left. reflexivity.
Qed.

(** C3 (amended).  For every session and every two distinct tier profiles A
    and B, a pin written under A is never returned by a lookup under B: what
    a lookup under B returns after a write under A is the model of a pin
    that the store already held for that session under B, and the same
    holds for the store left by a whole request under A.  The later request
    under B (first [premium], then [eco]) is therefore routed without
    regard to the pin of the first: it reaches a model M1 only when M1 is
    the emergency free model, one of its own candidates, or a model already
    pinned for the session under B; and when the store held no pin for the
    session under B, its chain is exactly the chain of a request without
    any pin. *)
Theorem pin_never_crosses_profiles (cat : Catalog) (session : string)
    (A B : TierProfile) :
  A <> B ->
  (forall store m now now' m',
     (pin_get (pin_set cat store session A m now) session B now').1 = Some m' ->
     exists p, p ∈ store /\ pin_session p = session /\ pin_profile p = B
               /\ pin_model p = m')
  /\ (forall upstream store now now' req1 req2 m',
        session_id req1 = Some session -> session_id req2 = Some session ->
        profileOf (model req1) = A -> profileOf (model req2) = B ->
        pinned_model cat req2 (handle_request cat upstream store now req1).2 now'
        = Some m' ->
        exists p, p ∈ store /\ pin_session p = session /\ pin_profile p = B
                  /\ pin_model p = m')
  /\ (forall upstream store now now' req1 req2 m1,
        session_id req1 = Some session -> session_id req2 = Some session ->
        profileOf (model req1) = A -> profileOf (model req2) = B ->
        m1 ∈ route cat req2 (handle_request cat upstream store now req1).2 now' ->
        m1 = EMERGENCY_FREE_MODEL
        \/ m1 ∈ primary_and_tier cat req2
        \/ exists p, p ∈ store /\ pin_session p = session /\ pin_profile p = B
                     /\ pin_model p = m1)
  /\ (forall upstream store now now' req1 req2,
        session_id req1 = Some session -> session_id req2 = Some session ->
        profileOf (model req1) = A -> profileOf (model req2) = B ->
        (forall p, p ∈ store -> pin_session p = session -> pin_profile p <> B) ->
        route cat req2 (handle_request cat upstream store now req1).2 now'
        = route cat req2 [] now').
Proof.
  intros HAB.
  assert (H1 : forall store m now now' m',
             (pin_get (pin_set cat store session A m now) session B now').1 = Some m' ->
             exists p, p ∈ store /\ pin_session p = session /\ pin_profile p = B
                       /\ pin_model p = m').
  { intros store m now now' m' H.
    apply pin_get_some in H as (p & Hin & Hs & Hp & Hm & _).
    apply pin_set_elem in Hin as [Hin| ->]; [|simpl in Hp; contradiction].
    exists p. auto. }
  assert (H2 : forall upstream store now now' req1 req2 m',
             session_id req1 = Some session -> session_id req2 = Some session ->
             profileOf (model req1) = A -> profileOf (model req2) = B ->
             pinned_model cat req2 (handle_request cat upstream store now req1).2 now'
             = Some m' ->
             exists p, p ∈ store /\ pin_session p = session /\ pin_profile p = B
                       /\ pin_model p = m').
  { intros upstream store now now' req1 req2 m' Hs1 Hs2 Hp1 Hp2 H.
    unfold pinned_model in H. rewrite Hs2, Hp2 in H.
    destruct (pin_get _ session B now').1 as [x|] eqn:E; [|discriminate].
    destruct (compatible cat x (classification req2)); [|discriminate].
    injection H as <-.
    apply pin_get_some in E as (p & Hin & Hs & Hp & Hm & _).
    apply handle_request_pins in Hin as [Hin|(_ & Hp' & _)].
    - exists p. auto.
    - rewrite Hp, Hp1 in Hp'. congruence. }
  split; [exact H1|]. split; [exact H2|]. split.
  - intros upstream store now now' req1 req2 m1 Hs1 Hs2 Hp1 Hp2 Hin.
    apply route_elem in Hin as [Hin|[Hin|Hin]]; [tauto|tauto|].
    right. right. exact (H2 _ _ _ _ _ _ _ Hs1 Hs2 Hp1 Hp2 Hin).
  - intros upstream store now now' req1 req2 Hs1 Hs2 Hp1 Hp2 Hfree.
    assert (Hn : pinned_model cat req2 (handle_request cat upstream store now req1).2
                   now' = None).
    { destruct (pinned_model _ _ _ _) as [x|] eqn:E; [|reflexivity].
      destruct (H2 _ _ _ _ _ _ _ Hs1 Hs2 Hp1 Hp2 E) as (p & Hin & Hs & Hp & _).
      destruct (Hfree p Hin Hs Hp). }
    unfold route. rewrite Hn.
    replace (pinned_model cat req2 [] now') with (@None string); [reflexivity|].
    unfold pinned_model. rewrite Hs2. reflexivity.
Qed.

(** The theorem at the second regression test. *)
Lemma pin_never_crosses_profiles_witness :
  route sample_catalog (session_request "sess-1" "eco")
    (handle_request sample_catalog (mock_upstream [] billing_error) [] 0
       (session_request "sess-1" "premium")).2 1000
  = route sample_catalog (session_request "sess-1" "eco") [] 1000.
Proof.
  refine (proj2 (proj2 (proj2
            (pin_never_crosses_profiles sample_catalog "sess-1"
               ProfilePremium ProfileEco _)))
            (mock_upstream [] billing_error) [] 0 1000
            (session_request "sess-1" "premium") (session_request "sess-1" "eco")
            eq_refl eq_refl eq_refl eq_refl _).
  - discriminate.
  - intros p Hp. inversion Hp.
Defined.

End RouterFacts.

(** ** Doubles *)

Module DoubleFacts.
Import Js.
Local Open Scope Q_scope.

Lemma pow2_Qpower (e : Z) : pow2 e == 2 ^ e.
Proof.
  unfold pow2. destruct (0 <=? e)%Z eqn:E.
  - apply Z.leb_le in E. rewrite Zpower_Qpower by exact E. reflexivity.
  - apply Z.leb_gt in E.
    assert (Hp : (0 < 2 ^ (- e))%Z) by (apply Z.pow_pos_nonneg; lia).
    assert (H : 2 ^ e == / inject_Z (2 ^ (- e))).
    { rewrite (Zpower_Qpower 2 (- e)) by lia. rewrite <- Qpower_opp.
      rewrite Z.opp_involutive. reflexivity. }
    rewrite H. destruct (2 ^ (- e))%Z as [|p|p] eqn:Ep; try lia.
    reflexivity.
Qed.

Lemma pow2_pos (e : Z) : 0 < pow2 e.
Proof.
  rewrite pow2_Qpower. apply Qpower_0_lt. reflexivity.
Qed.

Lemma pow2_add (a b : Z) : pow2 (a + b) == pow2 a * pow2 b.
Proof.
  rewrite !pow2_Qpower. apply Qpower_plus. discriminate.
Qed.

Lemma pow2_succ (e : Z) : pow2 (e + 1) == 2 * pow2 e.
Proof. rewrite pow2_add. change (pow2 1) with 2. ring. Qed.

Lemma pow2_le (a b : Z) : (a <= b)%Z -> pow2 a <= pow2 b.
Proof.
  intros H. replace b with (a + (b - a))%Z by lia. rewrite pow2_add.
  assert (H1 : 1 <= pow2 (b - a)).
  { unfold pow2. destruct (0 <=? b - a)%Z eqn:E; [|apply Z.leb_gt in E; lia].
    change 1 with (inject_Z 1). rewrite <- Zle_Qle.
    assert (0 < 2 ^ (b - a))%Z by (apply Z.pow_pos_nonneg; lia). lia. }
  pose proof (pow2_pos a) as Ha. nra.
Qed.

Lemma pow2_nonneg (e : Z) : (0 <= e)%Z -> pow2 e = inject_Z (2 ^ e).
Proof. intros H. unfold pow2. apply Z.leb_le in H. rewrite H. reflexivity. Qed.

Lemma pow2_lt (a b : Z) : (a < b)%Z -> pow2 a < pow2 b.
Proof.
  intros H. apply Qlt_le_trans with (pow2 (a + 1)); [|apply pow2_le; lia].
  rewrite pow2_succ. pose proof (pow2_pos a). lra.
Qed.

(** Cancelling a positive factor. *)
Lemma Qmult_lt_cancel (x y d : Q) : 0 < d -> x * d < y * d -> x < y.
Proof. intros Hd H. nra. Qed.

Lemma Qmult_le_cancel (x y d : Q) : 0 < d -> x * d <= y * d -> x <= y.
Proof. intros Hd H. nra. Qed.

Lemma ilog2_spec (q : Q) :
  0 < q -> pow2 (ilog2 q) <= q /\ q < pow2 (ilog2 q + 1).
Proof.
  intros Hq. destruct q as [n d]. unfold ilog2. cbn [Qnum Qden].
  assert (Hn : (0 < n)%Z) by (unfold Qlt in Hq; simpl in Hq; lia).
  set (a := Z.log2 n). set (b := Z.log2 (Z.pos d)).
  assert (Ha : (2 ^ a <= n < 2 ^ (a + 1))%Z).
  { pose proof (Z.log2_spec n Hn) as H. unfold a. rewrite <- Z.add_1_r in H. exact H. }
  assert (Hb : (2 ^ b <= Z.pos d < 2 ^ (b + 1))%Z).
  { pose proof (Z.log2_spec (Z.pos d) eq_refl) as H. unfold b.
    rewrite <- Z.add_1_r in H. exact H. }
  assert (Ha0 : (0 <= a)%Z) by apply Z.log2_nonneg.
  assert (Hb0 : (0 <= b)%Z) by apply Z.log2_nonneg.
  assert (Hqd : (n # d) * inject_Z (Z.pos d) == inject_Z n).
  { unfold Qeq, Qmult, inject_Z. simpl. lia. }
  assert (Hd : 0 < inject_Z (Z.pos d)) by reflexivity.
  assert (HN1 : pow2 a <= inject_Z n).
  { rewrite pow2_nonneg by lia. rewrite <- Zle_Qle. lia. }
  assert (HN2 : inject_Z n < pow2 (a + 1)).
  { rewrite pow2_nonneg by lia. rewrite <- Zlt_Qlt. lia. }
  assert (HD1 : pow2 b <= inject_Z (Z.pos d)).
  { rewrite pow2_nonneg by lia. rewrite <- Zle_Qle. lia. }
  assert (HD2 : inject_Z (Z.pos d) < pow2 (b + 1)).
  { rewrite pow2_nonneg by lia. rewrite <- Zlt_Qlt. lia. }
  assert (Hup : (n # d) < pow2 (a - b + 1)).
  { apply Qmult_lt_cancel with (inject_Z (Z.pos d)); [exact Hd|].
    rewrite Hqd.
    assert (E : pow2 (a + 1) == pow2 (a - b + 1) * pow2 b).
    { rewrite <- pow2_add. replace (a - b + 1 + b)%Z with (a + 1)%Z by lia.
      reflexivity. }
    pose proof (pow2_pos (a - b + 1)). nra. }
  assert (Hlow : pow2 (a - b - 1) <= (n # d)).
  { apply Qmult_le_cancel with (inject_Z (Z.pos d)); [exact Hd|].
    rewrite Hqd.
    assert (E : pow2 a == pow2 (a - b - 1) * pow2 (b + 1)).
    { rewrite <- pow2_add. replace (a - b - 1 + (b + 1))%Z with a by lia.
      reflexivity. }
    pose proof (pow2_pos (a - b - 1)). nra. }
  destruct (Qle_bool (pow2 (a - b)) (n # d)) eqn:E.
  - apply Qle_bool_iff in E. split; assumption.
  - split; [exact Hlow|].
    replace (a - b - 1 + 1)%Z with (a - b)%Z by lia.
    destruct (Qlt_le_dec (n # d) (pow2 (a - b))) as [H|H]; [exact H|].
    apply Qle_bool_iff in H. congruence.
Qed.

Lemma round_even_near (q : Q) :
  inject_Z (round_even q) - (1 # 2) <= q /\ q <= inject_Z (round_even q) + (1 # 2).
Proof.
  unfold round_even. pose proof (Qfloor_le q) as Hl.
  pose proof (Qlt_floor q) as Hu. rewrite inject_Z_plus in Hu.
  change (inject_Z 1) with 1 in Hu.
  destruct (Qcompare (q - inject_Z (Qfloor q)) (1 # 2)) eqn:E.
  - apply Qeq_alt in E.
    destruct (Z.even (Qfloor q)); [|rewrite inject_Z_plus; change (inject_Z 1) with 1];
      lra.
  - apply Qlt_alt in E. lra.
  - apply Qgt_alt in E. rewrite inject_Z_plus. change (inject_Z 1) with 1. lra.
Qed.

(** Rounding does not pass an integer. *)
Lemma round_even_ge (q : Q) (n : Z) : inject_Z n <= q -> (n <= round_even q)%Z.
Proof.
  intros H. unfold round_even.
  assert (Hf : (n <= Qfloor q)%Z).
  { rewrite <- (Qfloor_Z n). apply Qfloor_resp_le, H. }
  destruct (Qcompare _ _); [destruct (Z.even _)| |]; lia.
Qed.

Lemma round_even_le (q : Q) (n : Z) : q <= inject_Z n -> (round_even q <= n)%Z.
Proof.
  intros H. unfold round_even.
  pose proof (Qfloor_le q) as Hl.
  destruct (Z.eq_dec (Qfloor q) n) as [E|E].
  - assert (Hc : Qcompare (q - inject_Z (Qfloor q)) (1 # 2) = Lt).
    { apply (proj1 (Qlt_alt _ _)). subst n. lra. }
    rewrite Hc. lia.
  - assert (Hf : (Qfloor q <= n)%Z).
    { rewrite <- (Qfloor_Z n). apply Qfloor_resp_le, H. }
    destruct (Qcompare _ _); [destruct (Z.even _)| |]; lia.
Qed.

Lemma Qabs_nonneg_eq (a : Q) : 0 <= a -> Qabs a = a.
Proof.
  destruct a as [n d]. unfold Qle, Qabs. simpl. intros H.
  rewrite Z.abs_eq by lia. reflexivity.
Qed.

Lemma Qle_bool_false (x y : Q) : Qle_bool x y = false <-> y < x.
Proof.
  split; intros H.
  - destruct (Qlt_le_dec y x) as [H'|H']; [exact H'|].
    apply Qle_bool_iff in H'. congruence.
  - destruct (Qle_bool x y) eqn:E; [|reflexivity].
    apply Qle_bool_iff in E. lra.
Qed.

(** [to_double] on a positive number. *)
Lemma to_double_positive (a : Q) :
  0 < a ->
  to_double a
  = let e := Z.max (ilog2 a - 52) (-1074) in
    let v := inject_Z (round_even (a / pow2 e)) * pow2 e in
    if Qle_bool (pow2 1024) v then Infinity false else Finite (Qred v).
Proof.
  intros Ha. unfold to_double. rewrite (Qabs_nonneg_eq a) by lra.
  assert (H0 : Qle_bool a 0 = false) by (apply Qle_bool_false, Ha).
  assert (H1 : Qle_bool 0 a = true) by (apply Qle_bool_iff; lra).
  rewrite H0, H1. reflexivity.
Qed.

(** The unit in the last place of the numbers with exponent [e + 52], and
    the significand of [a] there. *)
Lemma significand (a : Q) (e : Z) : a / pow2 e * pow2 e == a.
Proof.
  pose proof (pow2_pos e) as H. field. intros E. rewrite E in H. lra.
Qed.

(** A finite result lies within half a unit in the last place. *)
Lemma to_double_near (a v : Q) :
  0 < a -> to_double a = Finite v ->
  let e := Z.max (ilog2 a - 52) (-1074) in
  a - pow2 e * (1 # 2) <= v /\ v <= a + pow2 e * (1 # 2) /\ v < pow2 1024.
Proof.
  intros Ha H. rewrite (to_double_positive a Ha) in H. cbv zeta in *.
  set (e := Z.max (ilog2 a - 52) (-1074)) in *.
  set (m := a / pow2 e) in *.
  destruct (Qle_bool (pow2 1024) (inject_Z (round_even m) * pow2 e)) eqn:E;
    [discriminate|].
  injection H as <-. rewrite Qred_correct.
  apply Qle_bool_false in E.
  pose proof (round_even_near m) as [Hl Hu].
  pose proof (significand a e) as Hs. fold m in Hs.
  pose proof (pow2_pos e) as He.
  repeat split; [nra|nra|exact E].
Qed.

(** In the range of the normal numbers the result is finite and its
    relative error is at most [2^-53]. *)
Lemma to_double_normal (a : Q) :
  pow2 (-1022) <= a -> a < pow2 1023 ->
  exists v,
    to_double a = Finite v
    /\ a * (1 - pow2 (-53)) <= v /\ v <= a * (1 + pow2 (-53)).
Proof.
  intros Hlo Hhi.
  assert (Ha : 0 < a) by (pose proof (pow2_pos (-1022)); lra).
  destruct (ilog2_spec a Ha) as [Hk1 Hk2].
  set (k := ilog2 a) in *.
  assert (Hk : (-1022 <= k <= 1022)%Z).
  { split.
    - destruct (Z_lt_le_dec k (-1022)) as [H|H]; [|exact H].
      assert (pow2 (k + 1) <= pow2 (-1022)) by (apply pow2_le; lia). lra.
    - destruct (Z_lt_le_dec 1022 k) as [H|H]; [|exact H].
      assert (pow2 1023 <= pow2 k) by (apply pow2_le; lia). lra. }
  rewrite (to_double_positive a Ha). cbv zeta. fold k.
  replace (Z.max (k - 52) (-1074)) with (k - 52)%Z by lia.
  set (e := (k - 52)%Z). set (m := a / pow2 e).
  pose proof (significand a e) as Hs. fold m in Hs.
  pose proof (pow2_pos e) as He.
  assert (E52 : pow2 k == pow2 52 * pow2 e).
  { rewrite <- pow2_add. replace (52 + e)%Z with k by (unfold e; lia). reflexivity. }
  assert (E53 : pow2 (k + 1) == pow2 53 * pow2 e).
  { rewrite <- pow2_add. replace (53 + e)%Z with (k + 1)%Z by (unfold e; lia).
    reflexivity. }
  assert (Hm1 : pow2 52 <= m).
  { apply Qmult_le_cancel with (pow2 e); [exact He|]. rewrite Hs, <- E52. exact Hk1. }
  assert (Hm2 : m <= pow2 53).
  { apply Qmult_le_cancel with (pow2 e); [exact He|]. rewrite Hs, <- E53. lra. }
  pose proof (round_even_near m) as [Hl Hu].
  assert (Hr : (round_even m <= 2 ^ 53)%Z).
  { apply round_even_le. rewrite <- pow2_nonneg by lia. exact Hm2. }
  assert (Hv : inject_Z (round_even m) * pow2 e <= pow2 (k + 1)).
  { rewrite E53. rewrite (pow2_nonneg 53) by lia.
    rewrite Zle_Qle in Hr. nra. }
  assert (Hfin : Qle_bool (pow2 1024) (inject_Z (round_even m) * pow2 e) = false).
  { apply Qle_bool_false.
    assert (pow2 (k + 1) < pow2 1024) by (apply pow2_lt; lia). lra. }
  rewrite Hfin. eexists. split; [reflexivity|]. rewrite Qred_correct.
  assert (Hhalf : pow2 e * (1 # 2) <= a * pow2 (-53)).
  { assert (E : pow2 e == pow2 k * pow2 (-52)).
    { rewrite <- pow2_add. replace (k + -52)%Z with e by (unfold e; lia).
      reflexivity. }
    assert (E' : pow2 (-52) * (1 # 2) == pow2 (-53)) by reflexivity.
    pose proof (pow2_pos (-53)). pose proof (pow2_pos (-52)). nra. }
  split; nra.
Qed.

(** A finite result is below [2^1024] in magnitude. *)
Lemma to_double_bounded (a v : Q) :
  to_double a = Finite v -> Qabs v < pow2 1024.
Proof.
  unfold to_double.
  destruct (Qle_bool (Qabs a) 0); [intros [= <-]; reflexivity|].
  set (w := inject_Z _ * pow2 _).
  destruct (Qle_bool (pow2 1024) w) eqn:E; [discriminate|].
  apply Qle_bool_false in E. intros [= <-]. rewrite Qred_correct.
  assert (Hw : 0 <= w).
  { unfold w. pose proof (pow2_pos (Z.max (ilog2 (Qabs a) - 52) (-1074))) as He.
    assert (Hr : (0 <= round_even (Qabs a / pow2 (Z.max (ilog2 (Qabs a) - 52) (-1074))))%Z).
    { apply round_even_ge. change (inject_Z 0) with 0.
      pose proof (Qabs_nonneg a). apply Qle_shift_div_l; [exact He|]. lra. }
    rewrite Zle_Qle in Hr. change (inject_Z 0) with 0 in Hr. nra. }
  destruct (Qle_bool 0 a).
  - rewrite Qabs_pos; lra.
  - rewrite Qabs_opp, Qabs_pos; lra.
Qed.

Lemma ilog2_unique (q : Q) (k : Z) :
  0 < q -> pow2 k <= q -> q < pow2 (k + 1) -> ilog2 q = k.
Proof.
  intros Hq Hl Hu. destruct (ilog2_spec q Hq) as [Hl' Hu'].
  destruct (Z.lt_trichotomy (ilog2 q) k) as [H|[H|H]]; [|exact H|].
  - assert (pow2 (ilog2 q + 1) <= pow2 k) by (apply pow2_le; lia). lra.
  - assert (pow2 (k + 1) <= pow2 (ilog2 q)) by (apply pow2_le; lia). lra.
Qed.

Lemma ilog2_comp (q q' : Q) : 0 < q -> q == q' -> ilog2 q = ilog2 q'.
Proof.
  intros Hq E. assert (Hq' : 0 < q') by (rewrite <- E; exact Hq).
  destruct (ilog2_spec q' Hq') as [Hl Hu].
  apply ilog2_unique; [exact Hq|rewrite E; exact Hl|rewrite E; exact Hu].
Qed.

Lemma round_even_comp (q q' : Q) : q == q' -> round_even q = round_even q'.
Proof.
  intros E. unfold round_even. rewrite (Qfloor_comp _ _ E).
  assert (Hc : Qcompare (q - inject_Z (Qfloor q')) (1 # 2)
               = Qcompare (q' - inject_Z (Qfloor q')) (1 # 2)).
  { apply Qcompare_comp; [rewrite E|]; reflexivity. }
  rewrite Hc. reflexivity.
Qed.

Lemma round_even_Z (q : Q) (z : Z) : q == inject_Z z -> round_even q = z.
Proof.
  intros E. rewrite (round_even_comp _ _ E). unfold round_even.
  rewrite Qfloor_Z.
  assert (Hc : Qcompare (inject_Z z - inject_Z z) (1 # 2) = Lt).
  { apply (proj1 (Qlt_alt _ _)). lra. }
  rewrite Hc. reflexivity.
Qed.

Lemma round_even_mono (q q' : Q) : q <= q' -> (round_even q <= round_even q')%Z.
Proof.
  intros H.
  assert (Hf : (Qfloor q <= Qfloor q')%Z) by (apply Qfloor_resp_le, H).
  destruct (Z.eq_dec (Qfloor q) (Qfloor q')) as [E|E].
  - unfold round_even. rewrite E.
    destruct (Qcompare_spec (q - inject_Z (Qfloor q')) (1 # 2)) as [C|C|C];
      destruct (Qcompare_spec (q' - inject_Z (Qfloor q')) (1 # 2)) as [C'|C'|C'];
      try (destruct (Z.even (Qfloor q'))); try lia; exfalso; lra.
  - apply Z.le_trans with (Qfloor q + 1)%Z.
    + unfold round_even.
      destruct (Qcompare _ _); [destruct (Z.even _)| |]; lia.
    + apply Z.le_trans with (Qfloor q'); [lia|].
      unfold round_even.
      destruct (Qcompare (q' - _) _); [destruct (Z.even _)| |]; lia.
Qed.

(** Equal numbers have the same double. *)
Lemma to_double_comp (q q' : Q) : q == q' -> to_double q = to_double q'.
Proof.
  intros E. unfold to_double.
  assert (Ea : Qabs q == Qabs q') by (rewrite E; reflexivity).
  assert (H0 : Qle_bool (Qabs q) 0 = Qle_bool (Qabs q') 0).
  { destruct (Qle_bool (Qabs q') 0) eqn:C.
    - apply Qle_bool_iff. apply Qle_bool_iff in C. rewrite Ea. exact C.
    - apply Qle_bool_false. apply Qle_bool_false in C. rewrite Ea. exact C. }
  rewrite H0. destruct (Qle_bool (Qabs q') 0) eqn:C; [reflexivity|].
  apply Qle_bool_false in C.
  assert (Hk : ilog2 (Qabs q) = ilog2 (Qabs q')).
  { apply ilog2_comp; [rewrite Ea; exact C|exact Ea]. }
  rewrite Hk. set (e := Z.max (ilog2 (Qabs q') - 52) (-1074)).
  assert (Hr : round_even (Qabs q / pow2 e) = round_even (Qabs q' / pow2 e)).
  { apply round_even_comp. rewrite Ea. reflexivity. }
  rewrite Hr. set (v := inject_Z _ * pow2 e).
  assert (Hs : Qle_bool 0 q = Qle_bool 0 q').
  { destruct (Qle_bool 0 q') eqn:C'.
    - apply Qle_bool_iff. apply Qle_bool_iff in C'. rewrite E. exact C'.
    - apply Qle_bool_false. apply Qle_bool_false in C'. rewrite E. exact C'. }
  rewrite Hs. reflexivity.
Qed.

Lemma Qred_inject_Z (n : Z) : Qred (inject_Z n) = inject_Z n.
Proof.
  unfold Qred, inject_Z.
  pose proof (Z.ggcd_gcd n 1) as Hg. pose proof (Z.ggcd_correct_divisors n 1) as Hd.
  destruct (Z.ggcd n 1) as [g [a b]]. simpl in *.
  rewrite Z.gcd_1_r in Hg. subst g. destruct Hd as [Ha Hb].
  assert (Ea : a = n) by lia. assert (Eb : b = 1%Z) by lia.
  rewrite Ea, Eb. reflexivity.
Qed.

(** A whole number below [2^53] is a double. *)
Lemma to_double_integer (n : Z) :
  (1 <= n < 2 ^ 53)%Z -> to_double (inject_Z n) = Finite (inject_Z n).
Proof.
  intros Hn.
  assert (Ha : 0 < inject_Z n).
  { change 0 with (inject_Z 0). rewrite <- Zlt_Qlt. lia. }
  destruct (ilog2_spec _ Ha) as [Hk1 Hk2]. set (k := ilog2 (inject_Z n)) in *.
  assert (Hk : (0 <= k <= 52)%Z).
  { split.
    - destruct (Z_lt_le_dec k 0) as [H|H]; [|exact H].
      assert (pow2 (k + 1) <= pow2 0) by (apply pow2_le; lia).
      assert (inject_Z 1 <= inject_Z n) by (rewrite <- Zle_Qle; lia).
      change (pow2 0) with 1 in *. change (inject_Z 1) with 1 in *. lra.
    - destruct (Z_lt_le_dec 52 k) as [H|H]; [|exact H].
      assert (pow2 53 <= pow2 k) by (apply pow2_le; lia).
      assert (inject_Z n < inject_Z (2 ^ 53)) by (rewrite <- Zlt_Qlt; lia).
      rewrite (pow2_nonneg 53) in * by lia. lra. }
  rewrite (to_double_positive _ Ha). cbv zeta. fold k.
  replace (Z.max (k - 52) (-1074)) with (k - 52)%Z by lia.
  set (e := (k - 52)%Z).
  assert (He : pow2 (- e) * pow2 e == 1).
  { rewrite <- pow2_add. replace (- e + e)%Z with 0%Z by lia. reflexivity. }
  pose proof (pow2_pos e) as Hpe.
  assert (Hm : inject_Z n / pow2 e == inject_Z (n * 2 ^ (- e))).
  { rewrite inject_Z_mult, <- (pow2_nonneg (- e)) by (unfold e; lia).
    apply (Qmult_inj_r _ _ (pow2 e)); [intros E; rewrite E in Hpe; lra|].
    rewrite significand, <- Qmult_assoc, He. ring. }
  rewrite (round_even_Z _ _ Hm).
  assert (Hv : inject_Z (n * 2 ^ (- e)) * pow2 e == inject_Z n).
  { rewrite inject_Z_mult, <- (pow2_nonneg (- e)) by (unfold e; lia).
    rewrite <- Qmult_assoc, He. ring. }
  assert (Hfin : Qle_bool (pow2 1024) (inject_Z (n * 2 ^ (- e)) * pow2 e) = false).
  { apply Qle_bool_false. rewrite Hv.
    assert (inject_Z n < inject_Z (2 ^ 53)) by (rewrite <- Zlt_Qlt; lia).
    assert (pow2 53 <= pow2 1024) by (apply pow2_le; lia).
    rewrite (pow2_nonneg 53) in * by lia. lra. }
  rewrite Hfin. f_equal. rewrite (Qred_complete _ _ Hv).
  apply Qred_inject_Z.
Qed.

Lemma to_double_zero (a : Q) : a == 0 -> to_double a = Finite 0.
Proof.
  intros E. rewrite (to_double_comp _ _ E). reflexivity.
Qed.

Lemma to_double_nonneg (a v : Q) : 0 <= a -> to_double a = Finite v -> 0 <= v.
Proof.
  intros Ha H. destruct (Qlt_le_dec 0 a) as [Hpos|Hle].
  - rewrite (to_double_positive a Hpos) in H. cbv zeta in H.
    set (e := Z.max (ilog2 a - 52) (-1074)) in *.
    destruct (Qle_bool _ _); [discriminate|]. injection H as <-.
    rewrite Qred_correct. pose proof (pow2_pos e) as He.
    assert (Hr : (0 <= round_even (a / pow2 e))%Z).
    { apply round_even_ge. change (inject_Z 0) with 0.
      apply Qle_shift_div_l; [exact He|]. lra. }
    rewrite Zle_Qle in Hr. change (inject_Z 0) with 0 in Hr. nra.
  - rewrite to_double_zero in H by lra. injection H as <-. lra.
Qed.

(** Below [2^1023] the double is finite. *)
Lemma to_double_finite (a : Q) :
  0 <= a -> a < pow2 1023 -> exists v, to_double a = Finite v.
Proof.
  intros Ha Hhi. destruct (Qlt_le_dec 0 a) as [Hpos|Hle].
  2:{ exists 0. apply to_double_zero. lra. }
  destruct (ilog2_spec a Hpos) as [Hk1 Hk2]. set (k := ilog2 a) in *.
  assert (Hk : (k <= 1022)%Z).
  { destruct (Z_lt_le_dec 1022 k) as [H|H]; [|exact H].
    assert (pow2 1023 <= pow2 k) by (apply pow2_le; lia). lra. }
  rewrite (to_double_positive a Hpos). cbv zeta. fold k.
  set (e := Z.max (k - 52) (-1074)). set (m := a / pow2 e).
  pose proof (significand a e) as Hs. fold m in Hs.
  pose proof (pow2_pos e) as He.
  assert (E53 : pow2 (e + 53) == pow2 53 * pow2 e).
  { rewrite <- pow2_add. replace (53 + e)%Z with (e + 53)%Z by lia. reflexivity. }
  assert (Hm : m <= pow2 53).
  { apply Qmult_le_cancel with (pow2 e); [exact He|]. rewrite Hs, <- E53.
    assert (pow2 (k + 1) <= pow2 (e + 53)) by (apply pow2_le; unfold e; lia). lra. }
  assert (Hr : (round_even m <= 2 ^ 53)%Z).
  { apply round_even_le. rewrite <- pow2_nonneg by lia. exact Hm. }
  assert (Hfin : Qle_bool (pow2 1024) (inject_Z (round_even m) * pow2 e) = false).
  { apply Qle_bool_false.
    assert (pow2 (e + 53) < pow2 1024) by (apply pow2_lt; unfold e; lia).
    rewrite (pow2_nonneg 53) in E53 by lia. rewrite Zle_Qle in Hr. nra. }
  rewrite Hfin. eexists. reflexivity.
Qed.

(** Rounding to the nearest double is monotone. *)
Lemma to_double_mono (a b va vb : Q) :
  0 <= a -> a <= b ->
  to_double a = Finite va -> to_double b = Finite vb -> va <= vb.
Proof.
  intros Ha Hab Hva Hvb.
  destruct (Qlt_le_dec 0 a) as [Hpos|Hle].
  2:{ rewrite to_double_zero in Hva by lra. injection Hva as <-.
      apply (to_double_nonneg b); [lra|exact Hvb]. }
  assert (Hb : 0 < b) by lra.
  destruct (ilog2_spec a Hpos) as [Ha1 Ha2]. destruct (ilog2_spec b Hb) as [Hb1 Hb2].
  rewrite (to_double_positive a Hpos) in Hva.
  rewrite (to_double_positive b Hb) in Hvb. cbv zeta in Hva, Hvb.
  set (ka := ilog2 a) in *. set (kb := ilog2 b) in *.
  assert (Hk : (ka <= kb)%Z).
  { destruct (Z_lt_le_dec kb ka) as [H|H]; [|exact H].
    assert (pow2 (kb + 1) <= pow2 ka) by (apply pow2_le; lia). lra. }
  set (ea := Z.max (ka - 52) (-1074)) in *. set (eb := Z.max (kb - 52) (-1074)) in *.
  destruct (Qle_bool _ _) in Hva; [discriminate|]. injection Hva as <-.
  destruct (Qle_bool _ _) in Hvb; [discriminate|]. injection Hvb as <-.
  rewrite !Qred_correct.
  pose proof (pow2_pos ea) as Hea. pose proof (pow2_pos eb) as Heb.
  pose proof (significand a ea) as Hsa. pose proof (significand b eb) as Hsb.
  destruct (Z.eq_dec ea eb) as [E|E].
  - rewrite <- E in *.
    assert (Hm : a / pow2 ea <= b / pow2 ea).
    { apply Qmult_le_cancel with (pow2 ea); [exact Hea|]. rewrite Hsa, Hsb. exact Hab. }
    apply round_even_mono in Hm. rewrite Zle_Qle in Hm. nra.
  - assert (Hlt : (ea < eb)%Z) by (unfold ea, eb in *; lia).
    assert (Heb' : eb = (kb - 52)%Z) by (unfold ea, eb in *; lia).
    assert (Hkk : (ka + 1 <= kb)%Z) by (unfold ea, eb in *; lia).
    apply Qle_trans with (pow2 kb).
    + assert (E1 : pow2 kb == pow2 (kb - ea) * pow2 ea).
      { rewrite <- pow2_add. replace (kb - ea + ea)%Z with kb by lia. reflexivity. }
      assert (Hm : a / pow2 ea <= inject_Z (2 ^ (kb - ea))).
      { rewrite <- pow2_nonneg by (unfold ea, eb in *; lia).
        apply Qmult_le_cancel with (pow2 ea); [exact Hea|]. rewrite Hsa, <- E1.
        assert (pow2 (ka + 1) <= pow2 kb) by (apply pow2_le; lia). lra. }
      apply round_even_le in Hm. rewrite Zle_Qle in Hm.
      rewrite <- pow2_nonneg in Hm by (unfold ea, eb in *; lia). nra.
    + assert (E2 : pow2 kb == pow2 52 * pow2 eb).
      { rewrite <- pow2_add. replace (52 + eb)%Z with kb by lia. reflexivity. }
      assert (Hm : inject_Z (2 ^ 52) <= b / pow2 eb).
      { rewrite <- pow2_nonneg by lia.
        apply Qmult_le_cancel with (pow2 eb); [exact Heb|]. rewrite Hsb, <- E2.
        exact Hb1. }
      apply round_even_ge in Hm. rewrite Zle_Qle in Hm.
      rewrite <- pow2_nonneg in Hm by lia. nra.
Qed.

(** [Number] on a string is [0], or what one of the literal forms gives. *)
Lemma Number_cases (s : string) :
  Number s = Finite 0
  \/ (exists base r, Number s = radix_literal base r)
  \/ (exists r, Number s = unsigned_decimal r)
  \/ (exists r, Number s = negate (unsigned_decimal r)).
Proof.
  unfold Number.
  repeat match goal with
         | |- context [match ?x with _ => _ end] => destruct x
         end;
    try (left; reflexivity);
    try (right; left; eexists; eexists; reflexivity);
    try (right; right; left; eexists; reflexivity);
    right; right; right; eexists; reflexivity.
Qed.

Lemma radix_literal_bounded (base : Z) (r : string) (q : Q) :
  radix_literal base r = Finite q -> Qabs q < pow2 1024.
Proof.
  unfold radix_literal. destruct (digits base r 0 0) as [[v [|n]] [|c t]];
    try discriminate.
  apply to_double_bounded.
Qed.

Lemma unsigned_decimal_bounded (r : string) (q : Q) :
  unsigned_decimal r = Finite q -> Qabs q < pow2 1024.
Proof.
  unfold unsigned_decimal. destruct (Utf16.eqb r "Infinity"); [discriminate|].
  destruct (digits 10 r 0 0) as [[ip n1] r1].
  destruct (match r1 with String "." r0 => digits 10 r0 0 0 | _ => (0%Z, 0%nat, r1) end)
    as [[fp n2] r2].
  destruct ((n1 =? 0)%nat && (n2 =? 0)%nat); [discriminate|].
  destruct (exponent_part r2); [|discriminate].
  apply to_double_bounded.
Qed.

(** Every finite number [Number] gives is a double. *)
Lemma Number_bounded (s : string) (q : Q) :
  Number s = Finite q -> Qabs q < pow2 1024.
Proof.
  destruct (Number_cases s) as [H|[(base & r & H)|[(r & H)|(r & H)]]];
    rewrite H.
  - intros [= <-]. reflexivity.
  - apply radix_literal_bounded.
  - apply unsigned_decimal_bounded.
  - destruct (unsigned_decimal r) as [| |x] eqn:E; try discriminate.
    simpl. intros [= <-]. rewrite Qabs_opp. apply (unsigned_decimal_bounded r), E.
Qed.

End DoubleFacts.

(** ** The claw.credit backend: amounts *)

Module AmountFacts.
Import Js ClawCredit DoubleFacts.
Local Open Scope Q_scope.

Lemma eps_small :
  0 < pow2 (-53) /\ pow2 (-53) <= 1 # 9000000000000000 /\ pow2 (-51) == 4 * pow2 (-53).
Proof.
  split; [apply pow2_pos|]. split; [apply Qle_bool_iff; reflexivity|reflexivity].
Qed.

Lemma per_million (q : Q) : q / inject_Z 1000000 == q * (1 # 1000000).
Proof. reflexivity. Qed.

Lemma millionths (n : Z) : (n # 1000000) == inject_Z n * (1 # 1000000).
Proof. rewrite Qmake_Qdiv. reflexivity. Qed.

Lemma normal_range :
  pow2 (-1022) <= 1 # 1000000 /\ pow2 1024 == 2 * pow2 1023
  /\ inject_Z (10 ^ 21) + 1 <= pow2 1023.
Proof.
  split; [apply Qle_bool_iff; vm_compute; reflexivity|].
  split; [apply (pow2_succ 1023)|apply Qle_bool_iff; vm_compute; reflexivity].
Qed.

(** The quotient [micros / 1_000_000] of a double of at least 1. *)
Lemma divide_micros (q : Q) :
  1 <= q -> Qabs q < pow2 1024 ->
  exists x,
    divide q 1000000 = Finite x
    /\ q * (1 # 1000000) * (1 - pow2 (-53)) <= x
    /\ x <= q * (1 # 1000000) * (1 + pow2 (-53)).
Proof.
  intros H1 Hb. rewrite Qabs_pos in Hb by lra.
  destruct normal_range as (Hlo & Hhi & _). pose proof (pow2_pos 1023) as Hp.
  unfold divide.
  destruct (to_double_normal (q / inject_Z 1000000)) as (x & Hx & Hl & Hu).
  - rewrite per_million. lra.
  - rewrite per_million. lra.
  - exists x. rewrite per_million in Hl, Hu. auto.
Qed.

(** [toFixed(6)] read back, on a positive number below [10^21]: the double
    of the nearest number of millionths, the larger one on a tie. *)
Lemma toFixed6_small (x : Q) :
  0 <= x -> x < inject_Z (10 ^ 21) ->
  toFixed6 x
  = to_double (Qfloor (x * inject_Z 1000000 + (1 # 2)) # 1000000).
Proof.
  intros Hpos Hlt. unfold toFixed6. rewrite (Qabs_nonneg_eq x) by exact Hpos.
  assert (H0 : Qle_bool 0 x = true) by (apply Qle_bool_iff; exact Hpos).
  assert (H1 : Qle_bool (inject_Z (10 ^ 21)) x = false)
    by (apply Qle_bool_false, Hlt).
  rewrite H0, H1. reflexivity.
Qed.

Lemma toFixed6_large (x : Q) :
  inject_Z (10 ^ 21) <= x -> toFixed6 x = Finite x.
Proof.
  intros Hge. unfold toFixed6.
  assert (Hpos : 0 <= x).
  { apply Qle_trans with (inject_Z (10 ^ 21)); [|exact Hge].
    apply Qle_bool_iff. reflexivity. }
  rewrite (Qabs_nonneg_eq x Hpos).
  assert (H1 : Qle_bool (inject_Z (10 ^ 21)) x = true) by (apply Qle_bool_iff, Hge).
  rewrite H1. reflexivity.
Qed.

(** What [microsToUsd] computes from the number it reads. *)
Lemma microsToUsd_finite (estimatedAmount : option string) (q : Q) :
  Number (default "" estimatedAmount) = Finite q ->
  microsToUsd estimatedAmount
  = if Qle_bool q 0 then to_double (1 # 100)
    else match divide q 1000000 with
         | Finite x => toFixed6 x
         | other => other
         end.
Proof. intros H. unfold microsToUsd. rewrite H. reflexivity. Qed.

(** The number of millionths nearest to a positive [x]. *)
Lemma nearest_millionth (x : Q) :
  let n := Qfloor (x * inject_Z 1000000 + (1 # 2)) in
  inject_Z n <= x * 1000000 + (1 # 2) /\ x * 1000000 + (1 # 2) < inject_Z n + 1.
Proof.
  cbv zeta. change (inject_Z 1000000) with 1000000.
  split; [apply Qfloor_le|].
  pose proof (Qlt_floor (x * 1000000 + (1 # 2))) as H.
  rewrite inject_Z_plus in H. exact H.
Qed.

Example to_double_cent :
  to_double (1 # 100) = Finite (5764607523034235 # 576460752303423488).
Proof. vm_compute. reflexivity. Qed.

Example microsToUsd_missing : microsToUsd None = to_double (1 # 100).
Proof. reflexivity. Qed.

Example microsToUsd_text : microsToUsd (Some "n/a") = to_double (1 # 100).
Proof. reflexivity. Qed.

Example microsToUsd_dollar :
  microsToUsd (Some "1234567") = to_double (1234567 # 1000000).
Proof. vm_compute. reflexivity. Qed.

(** C4, as the specification states it, fails: the amount for 5000
    micro-USD is the double nearest to 0.005, which is below 0.01 USD. *)
Lemma microsToUsd_no_floor :
  microsToUsd (Some "5000") = to_double (5 # 1000)
  /\ (forall v, microsToUsd (Some "5000") = Finite v -> v < 1 # 100)
  /\ microsToUsd (Some "5000") <> to_double (1 # 100).
Proof.
  assert (H : microsToUsd (Some "5000")
              = Finite (5764607523034235 # 1152921504606846976))
    by (vm_compute; reflexivity).
  split; [vm_compute; reflexivity|]. split.
  - intros v Hv. rewrite H in Hv. injection Hv as <-. reflexivity.
  - rewrite H. vm_compute. discriminate.
Qed.

(** C4 (amended).  The amount placed in [transaction.amount] is 0.01 USD
    when the pre-authorization amount is missing, not a number, infinite,
    zero or negative.  For a finite value [q] of at least 1 micro-USD it
    is [q] divided by 1_000_000 and rounded to 6 decimal places, in double
    arithmetic: the quotient is the double [x] nearest to [q / 1_000_000];
    below 10^21 the amount is the double nearest to [n / 1_000_000], where
    [n] is the whole number of millionths nearest to [x] (the larger one
    on a tie), and from 10^21 on it is [x] itself.  The amount is finite
    and strictly positive, it differs from [q / 1_000_000] by at most half
    a millionth and a relative error of [2^-51], and it has no lower bound
    of 0.01 USD: up to 9999 micro-USD it is below 0.01 USD. *)
Theorem microsToUsd_amount (estimatedAmount : option string) :
  ((forall q, Number (default "" estimatedAmount) = Finite q -> q <= 0) ->
   microsToUsd estimatedAmount = to_double (1 # 100))
  /\ (forall q,
        Number (default "" estimatedAmount) = Finite q -> 1 <= q ->
        exists x v,
          divide q 1000000 = Finite x
          /\ Qabs (x - q / inject_Z 1000000) <= q / inject_Z 1000000 * pow2 (-53)
          /\ microsToUsd estimatedAmount = Finite v
          /\ (x < inject_Z (10 ^ 21) ->
              exists n : Z,
                inject_Z n <= x * 1000000 + (1 # 2) < inject_Z n + 1
                /\ to_double (n # 1000000) = Finite v
                /\ Qabs (v - (n # 1000000)) <= (n # 1000000) * pow2 (-53))
          /\ (inject_Z (10 ^ 21) <= x -> v = x)
          /\ 0 < v
          /\ Qabs (v - q / inject_Z 1000000)
             <= (1 # 2000000) + q / inject_Z 1000000 * pow2 (-51)
          /\ (q <= 9999 -> v < 1 # 100)).
Proof.
  split.
  - intros H. unfold microsToUsd.
    destruct (Number (default "" estimatedAmount)) as [| |q] eqn:E; try reflexivity.
    assert (H0 : Qle_bool q 0 = true) by (apply Qle_bool_iff, H; reflexivity).
    simpl. rewrite H0. reflexivity.
  - intros q Hq H1.
    destruct eps_small as (He0 & He4 & He51).
    destruct normal_range as (Hlo & Hhi & Hbig).
    destruct (divide_micros q H1 (Number_bounded _ _ Hq)) as (x & Hx & Hxl & Hxu).
    rewrite (microsToUsd_finite _ _ Hq), Hx.
    assert (H0 : Qle_bool q 0 = false) by (apply Qle_bool_false; lra).
    rewrite H0. pose proof (per_million q) as Hpm.
    rewrite <- Hpm in Hxl, Hxu. set (y := q / inject_Z 1000000) in *.
    assert (Hy : 1 # 1000000 <= y) by lra.
    assert (Hxpos : 0 < x) by nra.
    assert (Hxy : Qabs (x - y) <= y * pow2 (-53)).
    { apply Qabs_Qle_condition. split; nra. }
    destruct (Qlt_le_dec x (inject_Z (10 ^ 21))) as [Hsmall|Hlarge].
    + rewrite (toFixed6_small x (Qlt_le_weak _ _ Hxpos) Hsmall).
      destruct (nearest_millionth x) as [Hn1 Hn2].
      set (n := Qfloor (x * inject_Z 1000000 + (1 # 2))) in *.
      assert (Hn : 1 <= inject_Z n).
      { change 1 with (inject_Z 1). rewrite <- Zle_Qle.
        apply Z.lt_succ_r. rewrite Zlt_Qlt. unfold Z.succ.
        rewrite inject_Z_plus. change (inject_Z 1) with 1. nra. }
      pose proof (millionths n) as Hz. set (z := n # 1000000) in *.
      destruct (to_double_normal z) as (v & Hv & Hvl & Hvu).
      { lra. }
      { nra. }
      exists x, v. rewrite Hv.
      assert (Hvz : Qabs (v - z) <= z * pow2 (-53)).
      { apply Qabs_Qle_condition. split; nra. }
      assert (Hzx : z <= x + (1 # 2000000) /\ x - (1 # 2000000) <= z) by (split; lra).
      repeat split; try assumption; try reflexivity.
      * intros _. exists n. repeat split; assumption.
      * intros Hge. lra.
      * nra.
      * apply Qabs_Qle_condition. apply Qabs_Qle_condition in Hvz, Hxy.
        split; nra.
      * intros H9.
        assert (Hn9 : inject_Z n <= 9999).
        { change 9999 with (inject_Z 9999). rewrite <- Zle_Qle.
          apply Z.lt_succ_r. rewrite Zlt_Qlt. unfold Z.succ.
          rewrite inject_Z_plus. change (inject_Z 9999) with 9999.
          change (inject_Z 1) with 1. nra. }
        nra.
    + rewrite (toFixed6_large x Hlarge). exists x, x.
      repeat split; try assumption; try reflexivity.
      * intros Hlt. lra.
      * apply Qabs_Qle_condition. apply Qabs_Qle_condition in Hxy.
        split; nra.
      * intros H9.
        assert (Hc : 10000 <= inject_Z (10 ^ 21)) by (apply Qle_bool_iff; reflexivity).
        nra.
Qed.

(** The theorem at 1_234_567 micro-USD. *)
Lemma microsToUsd_amount_witness :
  exists x v,
    divide 1234567 1000000 = Finite x
    /\ microsToUsd (Some "1234567") = Finite v /\ 0 < v.
Proof.
  destruct (proj2 (microsToUsd_amount (Some "1234567")) 1234567)
    as (x & v & Hx & _ & Hv & _ & _ & Hpos & _).
  - vm_compute. reflexivity.
  - unfold Qle. simpl. lia.
  - exists x, v. auto.
Defined.

End AmountFacts.

(** ** The claw.credit backend: requests and responses *)

Module ClawCreditFacts.
Import JsString JsStringFacts Js ClawCredit.

Lemma ok_spec (status : Z) : ok status = true <-> 200 <= status <= 299.
Proof. unfold ok. rewrite andb_true_iff, !Z.leb_le. reflexivity. Qed.

Lemma ok_false (status : Z) : ok status = false <-> ~ (200 <= status <= 299).
Proof. rewrite <- ok_spec. destruct (ok status); split; congruence. Qed.

Lemma has_key_property (key : string) (fields : list (string * Json)) :
  has_key key (JObject fields) = false <-> property key fields = None.
Proof.
  simpl. rewrite bool_decide_eq_false.
  destruct (property key fields); split; intros H.
  - exfalso. apply H. eexists. reflexivity.
  - discriminate.
  - reflexivity.
  - intros [x Hx]. discriminate.
Qed.

Lemma merchantResponse_without_key (parsed : Json) :
  has_key "merchant_response" parsed = false -> merchantResponse parsed = parsed.
Proof.
  destruct parsed as [| | | | |fields]; try reflexivity.
  intros H. apply has_key_property in H. simpl. rewrite H. reflexivity.
Qed.

Lemma or_empty_object_not_null (value : Json) :
  value <> JNull -> or_empty_object value = value.
Proof. destruct value; [contradiction|reflexivity..]. Qed.

(** *** Headers *)

Lemma is_http_space_is_space (c : char) :
  is_http_space c = true -> is_space c = true.
Proof.
  unfold is_http_space. cbv zeta. intros H. apply is_space_spec.
  bool_prop_in H. lia.
Qed.

Lemma strip_http_end_fixed (s : string) :
  last_ok s = true -> strip_http_end s = s.
Proof.
  induction s as [|c s IH]; simpl; [reflexivity|].
  destruct s as [|d s'].
  - simpl. intros H. destruct (is_http_space c) eqn:E; [|reflexivity].
    apply is_http_space_is_space in E. rewrite E in H. discriminate.
  - intros H. rewrite (IH H). reflexivity.
Qed.

Lemma strip_http_start_fixed (s : string) :
  head_ok s = true -> strip_http_start s = s.
Proof.
  destruct s as [|c s]; simpl; [reflexivity|]. intros H.
  destruct (is_http_space c) eqn:E; [|reflexivity].
  apply is_http_space_is_space in E. rewrite E in H. discriminate.
Qed.

(** A value that neither starts nor ends with white space is its own
    normal form. *)
Lemma normalize_value_fixed (s : string) :
  head_ok s = true -> last_ok s = true -> normalize_value s = s.
Proof.
  intros Hh Hl. unfold normalize_value.
  rewrite (strip_http_start_fixed _ Hh). apply strip_http_end_fixed, Hl.
Qed.

Lemma is_tchar_ascii (c : char) : is_tchar c = true -> (code c <? 128)%N = true.
Proof. unfold is_tchar. cbv zeta. intros H. bool_prop_in H. bool_prop. lia. Qed.

Lemma all_tchar_ascii (s : string) : all_tchar s = true -> is_ascii s = true.
Proof.
  induction s as [|c s IH]; simpl; [reflexivity|]. intros H.
  apply andb_true_iff in H as [Hc Hs]. rewrite (is_tchar_ascii _ Hc), (IH Hs).
  reflexivity.
Qed.

Lemma lower_char_ascii (c : char) :
  (code c <? 128)%N = true -> (code (lower_char c) <? 128)%N = true.
Proof.
  rewrite lower_char_code. intros H.
  destruct ((65 <=? code c) && (code c <=? 90))%N eqn:E; [|exact H].
  bool_prop_in E. bool_prop. lia.
Qed.

Lemma asciiLowerCase_ascii (s : string) :
  is_ascii s = true -> is_ascii (asciiLowerCase s) = true.
Proof.
  induction s as [|c s IH]; simpl; [reflexivity|]. intros H.
  apply andb_true_iff in H as [Hc Hs].
  rewrite (lower_char_ascii _ Hc), (IH Hs). reflexivity.
Qed.

(** The platform's lower-casing leaves a lower-cased header name as it
    is. *)
Lemma toLowerCase_header_name (rt : Runtime) (name : string) :
  is_header_name name = true ->
  toLowerCase rt (asciiLowerCase name) = asciiLowerCase name.
Proof.
  intros H. apply andb_true_iff in H as [_ H].
  rewrite toLowerCase_ascii by (apply asciiLowerCase_ascii, all_tchar_ascii, H).
  apply asciiLowerCase_idempotent.
Qed.

(** [new Headers] keeps the pairs, each value normalised, or throws. *)
Lemma new_Headers_spec (init : HeadersInit) (headers : list (string * string)) :
  new_Headers init = Some headers ->
  headers = (fun h => (h.1, normalize_value h.2)) <$> init
  /\ Forall (fun h => is_header_name h.1 = true) init.
Proof.
  revert headers. induction init as [|[name value] init IH]; simpl; intros headers H.
  - injection H as <-. split; [reflexivity|constructor].
  - destruct (is_header_name name && is_header_value (normalize_value value)) eqn:E;
      [|discriminate].
    destruct (new_Headers init) as [rest|]; [|discriminate].
    injection H as <-. destruct (IH rest eq_refl) as [-> Hall].
    apply andb_true_iff in E as [E _].
    split; [reflexivity|]. constructor; assumption.
Qed.

Lemma values_of_normalized (name : string) (init : HeadersInit) :
  values_of name ((fun h => (h.1, normalize_value h.2)) <$> init)
  = normalize_value <$> values_of name init.
Proof.
  unfold values_of. induction init as [|[n v] init IH]; [reflexivity|].
  rewrite fmap_cons. cbn [List.filter fst snd].
  destruct (Utf16.eqb (asciiLowerCase n) name); rewrite ?fmap_cons; cbn [snd];
    [f_equal|]; exact IH.
Qed.

Lemma values_of_elem (name value : string) (init : HeadersInit) :
  (name, value) ∈ init -> value ∈ values_of (asciiLowerCase name) init.
Proof.
  intros H. unfold values_of.
  apply (list_elem_of_fmap_2 snd _ (name, value)).
  apply list_elem_of_In, List.filter_In. split; [apply list_elem_of_In, H|].
  simpl. apply Utf16Facts.eqb_refl.
Qed.

Lemma entries_flat_map (headers : list (string * string)) :
  entries headers
  = flat_map (entries_of headers)
      (remove_dups (asciiLowerCase <$> headers.*1)).
Proof. reflexivity. Qed.

Lemma entries_of_key (headers : list (string * string)) (name : string)
    (e : string * string) :
  e ∈ entries_of headers name -> e.1 = name.
Proof.
  unfold entries_of. destruct (Utf16.eqb name "set-cookie").
  - intros H. apply list_elem_of_fmap in H as (v & -> & _). reflexivity.
  - intros H. apply list_elem_of_singleton in H. subst e. reflexivity.
Qed.

Lemma flat_map_entries_key (headers : list (string * string))
    (names : list string) (e : string * string) :
  e ∈ flat_map (entries_of headers) names -> e.1 ∈ names.
Proof.
  rewrite list_elem_of_In, List.in_flat_map. intros (name & Hn & He).
  apply list_elem_of_In in He. rewrite (entries_of_key _ _ _ He).
  apply list_elem_of_In, Hn.
Qed.

(** *** The object built from the entries *)

Lemma assign_header_kept (rt : Runtime) (out : gmap string string)
    (key value : string) :
  kept rt key = true -> assign_header rt out (key, value) = <[key := value]> out.
Proof.
  unfold kept, assign_header. intros H.
  apply andb_true_iff in H as [H1 H2]. apply negb_true_iff in H1, H2.
  rewrite H1, H2. reflexivity.
Qed.

Lemma assign_header_dropped (rt : Runtime) (out : gmap string string)
    (key value : string) :
  kept rt key = false -> assign_header rt out (key, value) = out.
Proof.
  unfold kept, assign_header. intros H.
  destruct (is_hop_header (toLowerCase rt key)); [reflexivity|].
  destruct (Utf16.eqb key "__proto__"); [reflexivity|discriminate].
Qed.

Lemma assign_header_other (rt : Runtime) (out : gmap string string)
    (e : string * string) (k : string) :
  e.1 <> k -> assign_header rt out e !! k = out !! k.
Proof.
  destruct e as [key value]. simpl. intros H. unfold assign_header.
  destruct (is_hop_header _); [reflexivity|].
  destruct (Utf16.eqb key "__proto__"); [reflexivity|].
  apply lookup_insert_ne, H.
Qed.

Lemma foldl_assign_other (rt : Runtime) (es : list (string * string))
    (acc : gmap string string) (k : string) :
  (forall e, e ∈ es -> e.1 <> k) ->
  foldl (assign_header rt) acc es !! k = acc !! k.
Proof.
  revert acc. induction es as [|e es IH]; intros acc H; cbn [foldl]; [reflexivity|].
  rewrite IH.
  - apply assign_header_other, H. left.
  - intros e' He'. apply H. right. exact He'.
Qed.

Lemma foldl_assign_dropped (rt : Runtime) (es : list (string * string))
    (acc : gmap string string) (k : string) :
  kept rt k = false -> foldl (assign_header rt) acc es !! k = acc !! k.
Proof.
  intros Hk. revert acc.
  induction es as [|[key value] es IH]; intros acc; cbn [foldl]; [reflexivity|].
  rewrite IH. destruct (decide (key = k)) as [->|Hne].
  - rewrite assign_header_dropped by exact Hk. reflexivity.
  - apply assign_header_other. exact Hne.
Qed.

(** A key of the object comes from an entry that was kept. *)
Lemma foldl_assign_some (rt : Runtime) (es : list (string * string))
    (acc : gmap string string) (k v : string) :
  foldl (assign_header rt) acc es !! k = Some v ->
  acc !! k = Some v \/ ((k, v) ∈ es /\ kept rt k = true).
Proof.
  revert acc. induction es as [|[key value] es IH]; intros acc; cbn [foldl]; [auto|].
  intros H. apply IH in H as [H|[H Hk]].
  - destruct (decide (key = k)) as [->|Hne].
    + destruct (kept rt k) eqn:Hk.
      * rewrite assign_header_kept, lookup_insert_eq in H by exact Hk.
        injection H as ->. right. split; [left|reflexivity].
      * rewrite assign_header_dropped in H by exact Hk. auto.
    + rewrite assign_header_other in H by exact Hne. auto.
  - right. split; [right; exact H|exact Hk].
Qed.

(** The last entry of a key decides its value. *)
Lemma foldl_assign_last (rt : Runtime) (es1 es2 : list (string * string))
    (acc : gmap string string) (k v : string) :
  kept rt k = true ->
  (forall e, e ∈ es2 -> e.1 <> k) ->
  foldl (assign_header rt) acc (es1 ++ (k, v) :: es2) !! k = Some v.
Proof.
  intros Hk H. rewrite foldl_app. cbn [foldl].
  rewrite (foldl_assign_other rt es2 _ k H), assign_header_kept by exact Hk.
  apply lookup_insert_eq.
Qed.

(** A name with a single entry is found with the value of that entry. *)
Lemma entries_lookup (rt : Runtime) (headers : list (string * string))
    (k v : string) :
  k ∈ asciiLowerCase <$> headers.*1 ->
  kept rt k = true ->
  entries_of headers k = [(k, v)] ->
  foldl (assign_header rt) ∅ (entries headers) !! k = Some v.
Proof.
  intros Hin Hk He. rewrite entries_flat_map.
  pose proof (NoDup_remove_dups (asciiLowerCase <$> headers.*1)) as Hnd.
  apply (proj2 (elem_of_remove_dups _ _)) in Hin.
  apply list_elem_of_split in Hin as (l1 & l2 & Hl).
  rewrite Hl in *. rewrite List.flat_map_app. cbn [flat_map]. rewrite He.
  apply NoDup_app in Hnd as (_ & _ & Hnd). apply NoDup_cons in Hnd as [Hfresh _].
  apply foldl_assign_last; [exact Hk|].
  intros e Hin E. apply Hfresh. rewrite <- E.
  apply (flat_map_entries_key headers), Hin.
Qed.

Lemma normalized_names (init : HeadersInit) :
  ((fun h : string * string => (h.1, normalize_value h.2)) <$> init).*1 = init.*1.
Proof.
  induction init as [|[n v] init IH]; [reflexivity|].
  rewrite !fmap_cons, IH. reflexivity.
Qed.

Lemma header_name_kept (rt : Runtime) (name : string) :
  is_header_name name = true ->
  kept rt (asciiLowerCase name)
  = negb (is_hop_header (asciiLowerCase name))
    && negb (Utf16.eqb (asciiLowerCase name) "__proto__").
Proof.
  intros H. unfold kept. rewrite (toLowerCase_header_name rt name H). reflexivity.
Qed.

(** What [headersToObject] returns for the headers that were given. *)
Lemma headersToObject_spec (rt : Runtime) (init : HeadersInit)
    (out : gmap string string) :
  headersToObject rt (Some init) = inr out ->
  (forall name, is_hop_header (asciiLowerCase name) = true -> out !! name = None)
  /\ (forall k v,
        out !! k = Some v ->
        exists name, name ∈ init.*1 /\ k = asciiLowerCase name)
  /\ (forall name value,
        (name, value) ∈ init ->
        is_hop_header (asciiLowerCase name) = false ->
        asciiLowerCase name <> "__proto__" ->
        (asciiLowerCase name <> "set-cookie" ->
         out !! asciiLowerCase name
         = Some (Text.join ", "
                   (normalize_value <$> values_of (asciiLowerCase name) init)))
        /\ (values_of (asciiLowerCase name) init = [value] ->
            out !! asciiLowerCase name = Some (normalize_value value))).
Proof.
  unfold headersToObject.
  destruct (new_Headers init) as [headers|] eqn:E; [|discriminate].
  intros [= <-]. apply new_Headers_spec in E as [-> Hvalid].
  set (headers := (fun h : string * string => (h.1, normalize_value h.2)) <$> init).
  assert (Hname : forall name, name ∈ init.*1 -> is_header_name name = true).
  { intros name Hin. apply list_elem_of_fmap in Hin as (h & -> & Hh).
    rewrite Forall_forall in Hvalid. apply Hvalid, Hh. }
  assert (Hkey : forall k v,
            foldl (assign_header rt) ∅ (entries headers) !! k = Some v ->
            kept rt k = true /\ exists name, name ∈ init.*1 /\ k = asciiLowerCase name).
  { intros k v H. apply foldl_assign_some in H as [H|[H Hk]].
    - rewrite lookup_empty in H. discriminate.
    - split; [exact Hk|]. rewrite entries_flat_map in H.
      apply flat_map_entries_key in H. apply (proj1 (elem_of_remove_dups _ _)) in H.
      unfold headers in H. rewrite normalized_names in H. cbn [fst] in H.
      apply list_elem_of_fmap in H as (name & -> & Hin). exists name. auto. }
  split; [|split].
  - intros name Hhop.
    destruct (foldl (assign_header rt) ∅ (entries headers) !! name) as [v|] eqn:E;
      [|reflexivity].
    destruct (Hkey _ _ E) as [Hk (n0 & Hin & ->)].
    rewrite (header_name_kept rt n0 (Hname _ Hin)) in Hk.
    rewrite asciiLowerCase_idempotent in Hhop. rewrite Hhop in Hk. discriminate.
  - intros k v H. apply (Hkey k v H).
  - intros name value Hin Hhop Hproto.
    assert (Hn : name ∈ init.*1).
    { apply (list_elem_of_fmap_2 fst _ (name, value)), Hin. }
    assert (Hk : kept rt (asciiLowerCase name) = true).
    { rewrite (header_name_kept rt name (Hname _ Hn)), Hhop.
      apply Utf16Facts.eqb_neq in Hproto. rewrite Hproto. reflexivity. }
    assert (Hin' : asciiLowerCase name ∈ asciiLowerCase <$> headers.*1).
    { unfold headers. rewrite normalized_names.
      apply list_elem_of_fmap_2, Hn. }
    split.
    + intros Hcookie. apply entries_lookup; try assumption.
      unfold entries_of. apply Utf16Facts.eqb_neq in Hcookie. rewrite Hcookie.
      unfold headers. rewrite values_of_normalized. reflexivity.
    + intros Hone. apply entries_lookup; try assumption.
      unfold entries_of, headers. rewrite values_of_normalized, Hone.
      destruct (Utf16.eqb (asciiLowerCase name) "set-cookie"); reflexivity.
Qed.

(** *** The reply of the service *)

Lemma new_Response_json (text : string) :
  new_Response text 200 "application/json"
  = inr {| status := 200; content_type := "application/json"; body := text |}.
Proof. reflexivity. Qed.

Lemma new_Response_accepted (text : string) (status : Z) (contentType : string) :
  200 <= status <= 599 ->
  null_body_status status = false ->
  is_header_value contentType = true ->
  normalize_value contentType = contentType ->
  new_Response text status contentType
  = inr {| status := status; content_type := contentType; body := text |}.
Proof.
  intros Hs Hn Hv Hc. unfold new_Response.
  assert (E : negb ((200 <=? status) && (status <=? 599)) = false).
  { apply negb_false_iff, andb_true_iff. rewrite !Z.leb_le. exact Hs. }
  rewrite E. cbn [new_Headers]. rewrite Hc, Hv, Hn. reflexivity.
Qed.

Lemma null_body_status_false (status : Z) :
  300 <= status -> status <> 304 -> null_body_status status = false.
Proof.
  intros H1 H2. unfold null_body_status.
  repeat (apply orb_false_iff; split); apply Z.eqb_neq; lia.
Qed.

(** The two branches of the closure's reply. *)
Lemma respond_not_ok (rt : Runtime) (payResponse : PayResponse) :
  ok (pay_status payResponse) = false ->
  respond rt payResponse
  = new_Response (pay_text payResponse) (pay_status payResponse)
      (or_default (pay_content_type payResponse) "application/json").
Proof. intros H. unfold respond. rewrite H. reflexivity. Qed.

Lemma respond_ok (rt : Runtime) (payResponse : PayResponse) :
  ok (pay_status payResponse) = true ->
  respond rt payResponse
  = inr {| status := 200; content_type := "application/json";
           body :=
             JSON_stringify rt
               (or_empty_object
                  (merchantResponse
                     (default (JObject [("raw", JString (pay_text payResponse))])
                        (JSON_parse rt (pay_text payResponse))))) |}.
Proof.
  intros H. unfold respond. rewrite H. cbn [negb]. rewrite new_Response_json.
  destruct (JSON_parse rt (pay_text payResponse)); reflexivity.
Qed.

(** The content type handed on is a header value. *)
Lemma content_type_accepted (payResponse : PayResponse) :
  well_formed payResponse ->
  is_header_value (or_default (pay_content_type payResponse) "application/json")
  = true
  /\ normalize_value (or_default (pay_content_type payResponse) "application/json")
     = or_default (pay_content_type payResponse) "application/json".
Proof.
  unfold well_formed, or_default.
  destruct (pay_content_type payResponse) as [value|]; [|split; reflexivity].
  intros H. destruct (truthy value); [exact H|split; reflexivity].
Qed.

Lemma call_sent (rt : Runtime) (self : ClawCreditFetch)
    (fetch : PayRequest -> option PayResponse) (now : Z) (input : RequestInfo)
    (init : option RequestInit) (preAuth : option PreAuthParams)
    (request : PayRequest) :
  (call rt self fetch now input init preAuth).1 = Some request
  <-> payRequest rt self now input init preAuth = inr request.
Proof.
  unfold call. destruct (payRequest rt self now input init preAuth); simpl;
    split; congruence.
Qed.

Lemma call_settled (rt : Runtime) (self : ClawCreditFetch)
    (fetch : PayRequest -> option PayResponse) (now : Z) (input : RequestInfo)
    (init : option RequestInit) (preAuth : option PreAuthParams)
    (request : PayRequest) (payResponse : PayResponse) :
  payRequest rt self now input init preAuth = inr request ->
  fetch request = Some payResponse ->
  (call rt self fetch now input init preAuth).2
  = match respond rt payResponse with
    | inl e => Thrown e
    | inr response => Resolved response
    end.
Proof. intros H1 H2. unfold call. rewrite H1. simpl. rewrite H2. reflexivity. Qed.

(** The reply of the integration test's mock service. *)
Example merchant_response_extracted :
  respond JsonRef.runtime
    {| pay_status := 200; pay_content_type := Some "application/json";
       pay_text :=
         JsonRef.json_text
           "{'status':'success','tx_hash':'mock-tx-hash','merchant_response':{'id':'chatcmpl-mock','choices':[{'index':0}]},'remaining_balance_usd':10}" |}
  = inr {| status := 200; content_type := "application/json";
           body := JsonRef.json_text "{'id':'chatcmpl-mock','choices':[{'index':0}]}" |}.
Proof. reflexivity. Qed.

Example payment_required_propagated :
  respond JsonRef.runtime
    {| pay_status := 402; pay_content_type := Some "text/plain";
       pay_text := "insufficient credit" |}
  = inr {| status := 402; content_type := "text/plain";
           body := "insufficient credit" |}.
Proof. reflexivity. Qed.

(** C5, as the specification states it, fails for a wrapper whose
    [merchant_response] is [null]: the body returned is [{}], not the
    extracted member. *)
Lemma null_merchant_response_forwarded_as_empty_object :
  JSON_parse JsonRef.runtime (JsonRef.json_text "{'merchant_response':null}")
  = Some (JObject [("merchant_response", JNull)])
  /\ merchantResponse (JObject [("merchant_response", JNull)]) = JNull
  /\ respond JsonRef.runtime
       {| pay_status := 200; pay_content_type := Some "application/json";
          pay_text := JsonRef.json_text "{'merchant_response':null}" |}
     = inr {| status := 200; content_type := "application/json"; body := "{}" |}
  /\ "{}" <> JSON_stringify JsonRef.runtime JNull.
Proof. repeat split. discriminate. Qed.

(** C5 (amended).  When the status of the reply of [/v1/transaction/pay]
    is one the platform accepts for a response with a body and is not 2xx
    (300 to 599, other than 304), the backend returns a response with that
    status, that body and the content type of the reply; when it is 2xx the
    backend returns a response with status 200 whose body is the extracted
    merchant payload, printed as JSON: for a wrapper that carries a
    [merchant_response] it is that member, or [{}] when the member is
    [null], so the dispatcher sees what the merchant returned. *)
Theorem pay_response_forwarded (rt : Runtime) (self : ClawCreditFetch)
    (fetch : PayRequest -> option PayResponse) (now : Z) (input : RequestInfo)
    (init : option RequestInit) (preAuth : option PreAuthParams)
    (request : PayRequest) (payResponse : PayResponse) :
  payRequest rt self now input init preAuth = inr request ->
  fetch request = Some payResponse ->
  (300 <= pay_status payResponse <= 599 ->
   pay_status payResponse <> 304 ->
   well_formed payResponse ->
   exists response,
     (call rt self fetch now input init preAuth).2 = Resolved response
     /\ status response = pay_status payResponse
     /\ body response = pay_text payResponse
     /\ content_type response
        = or_default (pay_content_type payResponse) "application/json")
  /\ (200 <= pay_status payResponse <= 299 ->
      exists response,
        (call rt self fetch now input init preAuth).2 = Resolved response
        /\ status response = 200
        /\ content_type response = "application/json"
        /\ body response
           = JSON_stringify rt
               (or_empty_object
                  (merchantResponse
                     (default (JObject [("raw", JString (pay_text payResponse))])
                        (JSON_parse rt (pay_text payResponse)))))
        /\ forall fields inner,
             JSON_parse rt (pay_text payResponse) = Some (JObject fields) ->
             property "merchant_response" fields = Some inner ->
             (inner <> JNull -> body response = JSON_stringify rt inner)
             /\ (inner = JNull -> body response = JSON_stringify rt (JObject []))).
Proof.
  intros Hreq Hfetch. rewrite (call_settled _ _ _ _ _ _ _ _ _ Hreq Hfetch). split.
  - intros Hs H304 Hwf.
    assert (Hn : ok (pay_status payResponse) = false) by (apply ok_false; lia).
    destruct (content_type_accepted _ Hwf) as [Hv Hc].
    rewrite (respond_not_ok _ _ Hn), new_Response_accepted;
      try assumption; [|lia|apply null_body_status_false; [lia|exact H304]].
    eexists. split; [reflexivity|]. repeat split.
  - intros Hok. apply ok_spec in Hok. rewrite (respond_ok _ _ Hok).
    eexists. split; [reflexivity|]. cbn [status content_type body].
    split; [reflexivity|]. split; [reflexivity|]. split; [reflexivity|].
    intros fields inner Hp Hf. rewrite Hp. simpl. rewrite Hf. split.
    + intros Hnn. rewrite (or_empty_object_not_null _ Hnn). reflexivity.
    + intros ->. reflexivity.
Qed.

(** The theorem at the reply of the integration test. *)
Lemma pay_response_forwarded_witness :
  exists response,
    (call JsonRef.runtime test_backend
       (fun _ =>
          Some {| pay_status := 200; pay_content_type := None;
                  pay_text :=
                    JsonRef.json_text "{'merchant_response':{'choices':[]}}" |})
       0 (InputString "https://blockrun.ai/api/v1/chat/completions")
       (Some test_init) None).2 = Resolved response
    /\ body response = JsonRef.json_text "{'choices':[]}".
Proof.
  destruct (payRequest JsonRef.runtime test_backend 0
              (InputString "https://blockrun.ai/api/v1/chat/completions")
              (Some test_init) None) as [e|request] eqn:E;
    [vm_compute in E; discriminate|].
  destruct (proj2 (pay_response_forwarded JsonRef.runtime test_backend
              (fun _ =>
                 Some {| pay_status := 200; pay_content_type := None;
                         pay_text :=
                           JsonRef.json_text "{'merchant_response':{'choices':[]}}" |})
              0 (InputString "https://blockrun.ai/api/v1/chat/completions")
              (Some test_init) None request _ E eq_refl))
    as (response & Hcall & _ & _ & _ & Hinner); [simpl; lia|].
  exists response. split; [exact Hcall|].
  exact (proj1 (Hinner [("merchant_response", JObject [("choices", JArray [])])]
                  (JObject [("choices", JArray [])]) eq_refl eq_refl)
           ltac:(discriminate)).
Defined.

(** C9, as stated, fails for a reply whose body is [null]: the parsed
    reply has no [merchant_response] key, yet what is forwarded is [{}] and
    not the parsed reply. *)
Lemma null_reply_forwarded_as_empty_object :
  JSON_parse JsonRef.runtime "null" = Some JNull
  /\ has_key "merchant_response" JNull = false
  /\ respond JsonRef.runtime
       {| pay_status := 200; pay_content_type := None; pay_text := "null" |}
     = inr {| status := 200; content_type := "application/json"; body := "{}" |}
  /\ "{}" <> JSON_stringify JsonRef.runtime JNull.
Proof. repeat split. discriminate. Qed.

Example invalid_json_wrapped :
  respond JsonRef.runtime
    {| pay_status := 200; pay_content_type := None; pay_text := "oops" |}
  = inr {| status := 200; content_type := "application/json";
           body := JsonRef.json_text "{'raw':'oops'}" |}.
Proof. reflexivity. Qed.

(** C9 (amended).  For every 2xx reply of [/v1/transaction/pay] the backend
    returns a status-200 JSON response, also in the degenerate cases: a
    body that is not valid JSON is forwarded as [{"raw": <body text>}]; a
    parsed reply other than [null] without a [merchant_response] key is
    forwarded whole; and a [null] [merchant_response], like a reply that is
    itself [null], is forwarded as [{}]. *)
Theorem degenerate_replies_forwarded (rt : Runtime) (payResponse : PayResponse) :
  200 <= pay_status payResponse <= 299 ->
  exists response,
    respond rt payResponse = inr response
    /\ status response = 200
    /\ content_type response = "application/json"
    /\ (exists value, body response = JSON_stringify rt value)
    /\ (JSON_parse rt (pay_text payResponse) = None ->
        body response
        = JSON_stringify rt (JObject [("raw", JString (pay_text payResponse))]))
    /\ (forall parsed,
          JSON_parse rt (pay_text payResponse) = Some parsed ->
          has_key "merchant_response" parsed = false ->
          parsed <> JNull ->
          body response = JSON_stringify rt parsed)
    /\ (forall fields,
          JSON_parse rt (pay_text payResponse) = Some (JObject fields) ->
          property "merchant_response" fields = Some JNull ->
          body response = JSON_stringify rt (JObject []))
    /\ (JSON_parse rt (pay_text payResponse) = Some JNull ->
        body response = JSON_stringify rt (JObject [])).
Proof.
  intros Hok. apply ok_spec in Hok. rewrite (respond_ok _ _ Hok).
  eexists. split; [reflexivity|]. cbn [status content_type body].
  split; [reflexivity|]. split; [reflexivity|]. split; [eexists; reflexivity|].
  split; [|split; [|split]].
  - intros ->. reflexivity.
  - intros parsed -> Hk Hn. simpl.
    rewrite (merchantResponse_without_key _ Hk), (or_empty_object_not_null _ Hn).
    reflexivity.
  - intros fields -> Hf. simpl. rewrite Hf. reflexivity.
  - intros ->. reflexivity.
Qed.

(** The theorem at a reply that is not JSON. *)
Lemma degenerate_replies_forwarded_witness :
  exists response,
    respond JsonRef.runtime
      {| pay_status := 200; pay_content_type := None; pay_text := "oops" |}
    = inr response
    /\ body response = JsonRef.json_text "{'raw':'oops'}".
Proof.
  destruct (degenerate_replies_forwarded JsonRef.runtime
              {| pay_status := 200; pay_content_type := None; pay_text := "oops" |})
    as (response & Hr & _ & _ & _ & Hraw & _); [simpl; lia|].
  exists response. split; [exact Hr|]. exact (Hraw eq_refl).
Defined.

(** *** The request sent to the service *)

Lemma createClawCreditFetch_inr (rt : Runtime) (config : ClawCreditConfig)
    (self : ClawCreditFetch) :
  createClawCreditFetch rt config = inr self ->
  trim (Config.apiToken config) <> EmptyString
  /\ self
     = {| serviceUrl :=
            stripTrailingSlashes (or_default (Config.baseUrl config) DEFAULT_SERVICE_URL);
          chain := toUpperCase rt (Config.chain config);
          asset := Config.asset config;
          apiToken := trim (Config.apiToken config) |}.
Proof.
  unfold createClawCreditFetch.
  destruct (truthy (trim (Config.apiToken config))) eqn:E; simpl; [|discriminate].
  intros [= <-]. split; [apply truthy_spec, E | reflexivity].
Qed.

(** An empty or blank token is refused. *)
Lemma createClawCreditFetch_blank_token (rt : Runtime) (config : ClawCreditConfig) :
  all_space (Config.apiToken config) = true ->
  createClawCreditFetch rt config
  = inl "CLAWCREDIT_API_TOKEN is required for claw.credit payment mode".
Proof.
  intros H. unfold createClawCreditFetch, trim.
  rewrite (trimStart_all_space _ H). reflexivity.
Qed.

Example createClawCreditFetch_test :
  createClawCreditFetch JsonRef.runtime test_config = inr test_backend.
Proof. reflexivity. Qed.

Example embedded_headers_test :
  headersToObject JsonRef.runtime (init_headers test_init)
  = inr {[ "content-type" := "application/json"; "x-request-id" := "abc" ]}.
Proof. vm_compute. reflexivity. Qed.

(** Names are lower-cased, values lose the white space around them, the
    values of a repeated name are joined, and of a repeated [set-cookie] the
    last value stays; [host] and [__proto__] are not embedded. *)
Example embedded_headers_normalised :
  headersToObject JsonRef.runtime
    (Some [("X-A", " v "); ("__proto__", "x"); ("x-a", "w");
           ("Set-Cookie", "a=1"); ("set-cookie", "b=2"); ("Host", "h")])
  = inr {[ "x-a" := "v, w"; "set-cookie" := "b=2" ]}.
Proof. vm_compute. reflexivity. Qed.

(** A name that is no token, or a value outside Latin-1, makes
    [new Headers] throw. *)
Example headers_rejected :
  headersToObject JsonRef.runtime (Some [("X A", "v")]) = inl TypeError
  /\ headersToObject JsonRef.runtime (Some [("X-A", String (Char 8364) "")])
     = inl TypeError.
Proof. split; reflexivity. Qed.

(** A token without white space around it, after ["Bearer "], is a header
    value in normal form. *)
Lemma bearer_normal (token : string) :
  token <> EmptyString -> last_ok token = true ->
  normalize_value ("Bearer " +:+ token) = "Bearer " +:+ token.
Proof.
  intros Hne Hl. apply normalize_value_fixed; [reflexivity|].
  rewrite (NormalizeFacts.last_ok_app "Bearer " token Hne). exact Hl.
Qed.

Lemma payRequest_inr (rt : Runtime) (self : ClawCreditFetch) (now : Z)
    (input : RequestInfo) (init : option RequestInit)
    (preAuth : option PreAuthParams) (request : PayRequest) :
  payRequest rt self now input init preAuth = inr request ->
  exists headers,
    headersToObject rt (init ≫= init_headers) = inr headers
    /\ http_headers (request_http (request_body (pay_body request))) = headers
    /\ pay_url request = serviceUrl self +:+ "/v1/transaction/pay"
    /\ pay_headers request
       = [("content-type", "application/json");
          ("authorization", "Bearer " +:+ apiToken self)]
    /\ tx_chain (transaction (pay_body request)) = chain self
    /\ tx_amount (transaction (pay_body request))
       = microsToUsd (estimatedAmount <$> preAuth).
Proof.
  unfold payRequest.
  destruct (headersToObject rt (init ≫= init_headers)) as [e|headers];
    [discriminate|].
  intros [= <-]. exists headers. repeat split.
Qed.

(** C6, as stated, fails for a token configured with white space around
    it: the header carries the trimmed token, not the configured one. *)
Lemma authorization_carries_trimmed_token :
  createClawCreditFetch JsonRef.runtime padded_config = inr padded_backend
  /\ pay_headers
       <$> (call JsonRef.runtime padded_backend (fun _ => None) 0
              (InputString "https://blockrun.ai/api/v1/chat/completions")
              (Some test_init) None).1
     = Some [("content-type", "application/json");
             ("authorization", "Bearer claw_test_token")]
  /\ "Bearer claw_test_token" <> "Bearer " +:+ Config.apiToken padded_config.
Proof.
  split; [reflexivity|]. split; [vm_compute; reflexivity|]. discriminate.
Qed.

(** C6 (amended).  Every request the backend sends goes to
    [/v1/transaction/pay] with an [Authorization] header equal to
    ["Bearer "] followed by the configured API token with the white space
    around it removed (the configured token itself when it has none).  The
    headers embedded in [request_body.http.headers] exclude [host],
    [content-length] and [connection] and hold only names that came in;
    every other incoming header is preserved under its lower-cased name,
    with the white space around its value removed and the values of a
    repeated name joined by a comma and a space (a repeated [set-cookie]
    and a header named [__proto__] aside).  [transaction.chain] is the
    configured chain in upper case. *)
Theorem pay_request_shape (rt : Runtime) (config : ClawCreditConfig)
    (self : ClawCreditFetch) (fetch : PayRequest -> option PayResponse)
    (now : Z) (input : RequestInfo) (init : option RequestInit)
    (preAuth : option PreAuthParams) (request : PayRequest) :
  createClawCreditFetch rt config = inr self ->
  (call rt self fetch now input init preAuth).1 = Some request ->
  pay_url request = serviceUrl self +:+ "/v1/transaction/pay"
  /\ pay_headers request
     = [("content-type", "application/json");
        ("authorization", "Bearer " +:+ trim (Config.apiToken config))]
  /\ trim (Config.apiToken config) <> EmptyString
  /\ normalize_value ("Bearer " +:+ trim (Config.apiToken config))
     = "Bearer " +:+ trim (Config.apiToken config)
  /\ (head_ok (Config.apiToken config) = true ->
      last_ok (Config.apiToken config) = true ->
      pay_headers request
      = [("content-type", "application/json");
         ("authorization", "Bearer " +:+ Config.apiToken config)])
  /\ (forall name,
        is_hop_header (asciiLowerCase name) = true ->
        http_headers (request_http (request_body (pay_body request))) !! name
        = None)
  /\ (forall key value,
        http_headers (request_http (request_body (pay_body request))) !! key
        = Some value ->
        exists headers name,
          init ≫= init_headers = Some headers
          /\ name ∈ headers.*1 /\ key = asciiLowerCase name)
  /\ (forall headers name value,
        init ≫= init_headers = Some headers ->
        (name, value) ∈ headers ->
        is_hop_header (asciiLowerCase name) = false ->
        asciiLowerCase name <> "__proto__" ->
        (asciiLowerCase name <> "set-cookie" ->
         http_headers (request_http (request_body (pay_body request)))
           !! asciiLowerCase name
         = Some (Text.join ", "
                   (normalize_value <$> values_of (asciiLowerCase name) headers)))
        /\ (values_of (asciiLowerCase name) headers = [value] ->
            http_headers (request_http (request_body (pay_body request)))
              !! asciiLowerCase name
            = Some (normalize_value value)))
  /\ tx_chain (transaction (pay_body request)) = toUpperCase rt (Config.chain config)
  /\ (is_ascii (Config.chain config) = true ->
      no_lower_letter (tx_chain (transaction (pay_body request))) = true).
Proof.
  intros Hcreate Hcall. apply createClawCreditFetch_inr in Hcreate as [Htoken ->].
  apply call_sent, payRequest_inr in Hcall
    as (out & Hout & -> & -> & -> & -> & _).
  cbn [serviceUrl apiToken chain].
  split; [reflexivity|]. split; [reflexivity|]. split; [exact Htoken|].
  split; [apply bearer_normal; [exact Htoken|apply trim_last_ok]|].
  split; [intros Hh Hl; rewrite (trim_fixed _ Hh Hl); reflexivity|].
  assert (Hspec :
            (forall name, is_hop_header (asciiLowerCase name) = true ->
                          out !! name = None)
            /\ (forall key value,
                  out !! key = Some value ->
                  exists headers name,
                    init ≫= init_headers = Some headers
                    /\ name ∈ headers.*1 /\ key = asciiLowerCase name)
            /\ (forall headers name value,
                  init ≫= init_headers = Some headers ->
                  (name, value) ∈ headers ->
                  is_hop_header (asciiLowerCase name) = false ->
                  asciiLowerCase name <> "__proto__" ->
                  (asciiLowerCase name <> "set-cookie" ->
                   out !! asciiLowerCase name
                   = Some (Text.join ", "
                             (normalize_value
                                <$> values_of (asciiLowerCase name) headers)))
                  /\ (values_of (asciiLowerCase name) headers = [value] ->
                      out !! asciiLowerCase name = Some (normalize_value value)))).
  { destruct (init ≫= init_headers) as [headers|] eqn:E.
    - destruct (headersToObject_spec rt headers out Hout) as (H1 & H2 & H3).
      split; [exact H1|]. split.
      + intros key value H. destruct (H2 key value H) as (name & Hn & Hk).
        exists headers, name. auto.
      + intros headers' name value [= <-]. apply H3.
    - injection Hout as <-. split; [intros; apply lookup_empty|].
      split; [intros key value H; rewrite lookup_empty in H|]; discriminate. }
  destruct Hspec as (H1 & H2 & H3).
  split; [exact H1|]. split; [exact H2|]. split; [exact H3|].
  split; [reflexivity|].
  intros Hascii. rewrite (toUpperCase_ascii rt _ Hascii).
  apply asciiUpperCase_no_lower_letter.
Qed.

(** The theorem at the configuration of the integration test. *)
Lemma pay_request_shape_witness :
  pay_headers
    <$> (call JsonRef.runtime test_backend (fun _ => None) 0
           (InputString "https://blockrun.ai/api/v1/chat/completions")
           (Some test_init) None).1
  = Some [("content-type", "application/json");
          ("authorization", "Bearer " +:+ trim (Config.apiToken test_config))].
Proof.
  destruct (call JsonRef.runtime test_backend (fun _ => None) 0
              (InputString "https://blockrun.ai/api/v1/chat/completions")
              (Some test_init) None).1 as [request|] eqn:E;
    [|vm_compute in E; discriminate].
  simpl. f_equal.
  exact (proj1 (proj2
           (pay_request_shape JsonRef.runtime test_config test_backend
              (fun _ => None) 0
              (InputString "https://blockrun.ai/api/v1/chat/completions")
              (Some test_init) None request eq_refl E))).
Defined.

End ClawCreditFacts.

(** ** The claw.credit backend: what the configuration becomes *)

Module ServiceFacts.
Import JsString Text Js ClawCredit JsStringFacts.

Lemma trimStart_empty (s : string) : trimStart s = EmptyString -> all_space s = true.
Proof.
  induction s as [|c s IH]; simpl; [reflexivity|].
  destruct (is_space c); [exact IH | discriminate].
Qed.

Lemma trimEnd_empty (s : string) : trimEnd s = EmptyString -> all_space s = true.
Proof.
  induction s as [|c s IH]; simpl; [reflexivity|].
  destruct (trimEnd s); [|discriminate].
  destruct (is_space c); [intros _; apply IH; reflexivity | discriminate].
Qed.

Lemma trim_empty (s : string) : trim s = EmptyString <-> all_space s = true.
Proof.
  split.
  - unfold trim. intros H. apply trimEnd_empty in H.
    pose proof (trimStart_head_ok s) as Hh.
    destruct (trimStart s) as [|c t] eqn:E.
    + apply trimStart_empty, E.
    + simpl in H, Hh. destruct (is_space c); discriminate.
  - intros H. unfold trim. rewrite (trimStart_all_space _ H). reflexivity.
Qed.

Lemma strip_no_trailing (s : string) :
  ends_with_slash (stripTrailingSlashes s) = false.
Proof.
  induction s as [|c s IH]; simpl; [reflexivity|].
  destruct (stripTrailingSlashes s) as [|d t] eqn:E.
  - destruct (char_eqb c "/") eqn:Ec; simpl; [reflexivity | exact Ec].
  - exact IH.
Qed.

Lemma strip_decompose (s : string) :
  exists t, all_slash t = true /\ s = stripTrailingSlashes s +:+ t.
Proof.
  induction s as [|c s (t & Ht & IH)]; simpl.
  - exists EmptyString. split; reflexivity.
  - destruct (stripTrailingSlashes s) as [|d u] eqn:E.
    + destruct (char_eqb c "/") eqn:Ec.
      * exists (String c t). simpl. rewrite Ec, Ht. split; [reflexivity|].
        f_equal. exact IH.
      * exists t. split; [exact Ht|]. simpl. f_equal. exact IH.
    + exists t. split; [exact Ht|]. simpl. f_equal. exact IH.
Qed.

Lemma strip_all_slash (t : string) :
  all_slash t = true -> stripTrailingSlashes t = EmptyString.
Proof.
  induction t as [|c t IH]; simpl; [reflexivity|].
  intros H. apply andb_true_iff in H as [-> Ht]. rewrite (IH Ht). reflexivity.
Qed.

Lemma strip_app_slashes (s t : string) :
  all_slash t = true -> stripTrailingSlashes (s +:+ t) = stripTrailingSlashes s.
Proof.
  intros Ht. induction s as [|c s IH]; simpl.
  - apply strip_all_slash, Ht.
  - rewrite IH. reflexivity.
Qed.

Lemma strip_fixed (s : string) :
  ends_with_slash s = false -> stripTrailingSlashes s = s.
Proof.
  induction s as [|c s IH]; simpl; [reflexivity|].
  destruct s as [|d s'].
  - simpl. intros ->. reflexivity.
  - intros H. rewrite (IH H). reflexivity.
Qed.

(** X1.  [createClawCreditFetch] throws exactly when the configured token
    is empty or white space throughout, and always with the same message;
    for every other token it returns the closure, whose token is not
    empty. *)
Theorem createClawCreditFetch_throws_iff_blank (rt : Runtime)
    (config : ClawCreditConfig) :
  (forall message,
     createClawCreditFetch rt config = inl message
     <-> all_space (Config.apiToken config) = true
         /\ message
            = "CLAWCREDIT_API_TOKEN is required for claw.credit payment mode")
  /\ ((exists self, createClawCreditFetch rt config = inr self)
      <-> all_space (Config.apiToken config) = false)
  /\ (forall self,
        createClawCreditFetch rt config = inr self -> apiToken self <> EmptyString).
Proof.
  assert (Hcase :
    (all_space (Config.apiToken config) = true
     /\ createClawCreditFetch rt config
        = inl "CLAWCREDIT_API_TOKEN is required for claw.credit payment mode")
    \/ (all_space (Config.apiToken config) = false
        /\ exists self, createClawCreditFetch rt config = inr self
                        /\ apiToken self <> EmptyString)).
  { unfold createClawCreditFetch.
    destruct (truthy (trim (Config.apiToken config))) eqn:E; simpl.
    - right. apply truthy_spec in E. split.
      + destruct (all_space (Config.apiToken config)) eqn:Ea; [|reflexivity].
        apply trim_empty in Ea. contradiction.
      + eexists. split; [reflexivity | exact E].
    - left. split; [|reflexivity]. apply trim_empty.
      unfold truthy in E. apply negb_false_iff, Utf16Facts.eqb_eq in E. exact E. }
  destruct Hcase as [[Ha E] | (Ha & self & E & Hne)]; rewrite E, Ha.
  - split; [|split].
    + intros message. split; [intros [= <-]; split; reflexivity|].
      intros [_ ->]. reflexivity.
    + split; [intros [self [=]] | discriminate].
    + intros self [=].
  - split; [|split].
    + intros message. split; [discriminate | intros [[=] _]].
    + split; [reflexivity | intros _; exists self; reflexivity].
    + intros self' [= <-]. exact Hne.
Qed.

(** X2.  The service URL of the closure is the configured base URL (the
    default one when it is missing or empty) without its trailing slashes:
    the base URL is the service URL followed by slashes only, and the
    service URL does not end with a slash; a base URL without a trailing
    slash is kept as it is. *)
Theorem serviceUrl_strips_trailing_slashes (rt : Runtime)
    (config : ClawCreditConfig) (self : ClawCreditFetch) :
  createClawCreditFetch rt config = inr self ->
  ends_with_slash (serviceUrl self) = false
  /\ (exists slashes,
        all_slash slashes = true
        /\ or_default (Config.baseUrl config) DEFAULT_SERVICE_URL
           = serviceUrl self +:+ slashes)
  /\ (Config.baseUrl config = None \/ Config.baseUrl config = Some EmptyString ->
      serviceUrl self = "https://api.claw.credit")
  /\ (forall url,
        Config.baseUrl config = Some url -> url <> EmptyString ->
        ends_with_slash url = false -> serviceUrl self = url).
Proof.
  intros H. apply ClawCreditFacts.createClawCreditFetch_inr in H as [_ ->]. simpl.
  split; [apply strip_no_trailing|].
  split; [apply strip_decompose|].
  split.
  - intros [-> | ->]; reflexivity.
  - intros url -> Hne Hs. unfold or_default.
    destruct (truthy url) eqn:E.
    + apply strip_fixed, Hs.
    + apply truthy_spec in Hne. congruence.
Qed.

Lemma serviceUrl_strips_trailing_slashes_witness :
  createClawCreditFetch JsonRef.runtime test_config = inr test_backend
  /\ ends_with_slash (serviceUrl test_backend) = false.
Proof.
  split; [reflexivity|].
  apply (serviceUrl_strips_trailing_slashes JsonRef.runtime test_config test_backend).
  reflexivity.
Defined.

(** X3.  Trailing slashes of a non-empty base URL do not matter: adding
    any number of them to the configured base URL gives the same closure
    (or the same error). *)
Theorem trailing_slashes_ignored (rt : Runtime)
    (url slashes token chain asset : string) :
  url <> EmptyString -> all_slash slashes = true ->
  createClawCreditFetch rt
    {| Config.baseUrl := Some (url +:+ slashes); Config.apiToken := token;
       Config.chain := chain; Config.asset := asset |}
  = createClawCreditFetch rt
      {| Config.baseUrl := Some url; Config.apiToken := token;
         Config.chain := chain; Config.asset := asset |}.
Proof.
  intros Hne Hs. unfold createClawCreditFetch. simpl.
  destruct url as [|c url]; [contradiction|]. simpl.
  change (String c (url +:+ slashes)) with (String c url +:+ slashes).
  rewrite (strip_app_slashes _ _ Hs). reflexivity.
Qed.

Lemma trailing_slashes_ignored_witness :
  createClawCreditFetch JsonRef.runtime
    {| Config.baseUrl := Some ("http://127.0.0.1:9000" +:+ "//");
       Config.apiToken := "claw_test_token";
       Config.chain := "base";
       Config.asset := "0x833589fCD6eDb6E08f4c7C32D4f71b54bdA02913" |}
  = createClawCreditFetch JsonRef.runtime
      {| Config.baseUrl := Some "http://127.0.0.1:9000";
         Config.apiToken := "claw_test_token";
         Config.chain := "base";
         Config.asset := "0x833589fCD6eDb6E08f4c7C32D4f71b54bdA02913" |}.
Proof.
  apply (trailing_slashes_ignored JsonRef.runtime "http://127.0.0.1:9000" "//");
    [discriminate | reflexivity].
Defined.

End ServiceFacts.

(** ** The claw.credit backend: whole estimates *)

Module EstimateFacts.
Import JsString Text Js ClawCredit JsStringFacts DoubleFacts.

Lemma is_digit_not_space (c : char) : is_digit c = true -> is_space c = false.
Proof.
  unfold is_digit. intros H. bool_prop_in H. apply is_space_letter. lia.
Qed.

Lemma all_digit_head_ok (s : string) : all_digit s = true -> head_ok s = true.
Proof.
  destruct s as [|c s]; simpl; [reflexivity|].
  intros H. apply andb_true_iff in H as [Hc _].
  rewrite (is_digit_not_space _ Hc). reflexivity.
Qed.

Lemma all_digit_last_ok (s : string) : all_digit s = true -> last_ok s = true.
Proof.
  induction s as [|c s IH]; simpl; [reflexivity|].
  intros H. apply andb_true_iff in H as [Hc Hs].
  destruct s as [|d s']; [|exact (IH Hs)].
  rewrite (is_digit_not_space _ Hc). reflexivity.
Qed.

(** On a string of digits [Number] reads a decimal literal. *)
Lemma Number_all_digit (s : string) :
  all_digit s = true -> s <> EmptyString -> Number s = unsigned_decimal s.
Proof.
  intros H Hne. unfold Number.
  rewrite (trim_fixed s (all_digit_head_ok s H) (all_digit_last_ok s H)).
  repeat match goal with
         | |- context [match ?x with _ => _ end] => destruct x
         end;
    try reflexivity; try contradiction; simpl in H; discriminate H.
Qed.

Lemma all_digit_not_Infinity (s : string) :
  all_digit s = true -> Utf16.eqb s "Infinity" = false.
Proof.
  destruct s as [|c s]; [reflexivity|]. simpl.
  intros H. apply andb_true_iff in H as [Hc _].
  apply andb_false_iff. left. unfold is_digit in Hc. bool_prop_in Hc.
  rewrite Utf16Facts.char_eqb_code. bool_prop. lia.
Qed.

Lemma digits_step (c : char) (v : Z) (s : string) (acc : Z) (count : nat) :
  digit_value 10 c = Some v ->
  digits 10 (String c s) acc count = digits 10 s (acc * 10 + v) (S count).
Proof. intros H. simpl. rewrite H. reflexivity. Qed.

Lemma all_digit_string_of_uint (d : Decimal.uint) :
  all_digit (of_text (NilEmpty.string_of_uint d)) = true.
Proof. induction d; simpl; [reflexivity | exact IHd ..]. Qed.

Ltac digit_step k := rewrite (digits_step _ k) by reflexivity.

(** Reading back the digits of a printed number, after a non-zero prefix
    and from the start. *)
Lemma digits_of_uint_acc (d : Decimal.uint) (p : positive) (count : nat) :
  exists count',
    digits 10 (of_text (NilEmpty.string_of_uint d)) (Z.pos p) count
    = (Z.pos (Pos.of_uint_acc d p), count', EmptyString)
    /\ (count + Utf16.length (of_text (NilEmpty.string_of_uint d)) <= count')%nat.
Proof.
  revert p count.
  induction d as [|d IH|d IH|d IH|d IH|d IH|d IH|d IH|d IH|d IH|d IH];
    intros p count;
    cbn [NilEmpty.string_of_uint Pos.of_uint_acc Utf16.length of_text];
    [ exists count; split; [reflexivity | lia]
    | digit_step 0 | digit_step 1 | digit_step 2 | digit_step 3
    | digit_step 4 | digit_step 5 | digit_step 6 | digit_step 7
    | digit_step 8 | digit_step 9 ];
    match goal with
    | |- context [Pos.of_uint_acc d ?q] =>
        destruct (IH q (S count)) as (count' & E & Hle)
    end;
    exists count'; (split; [|lia]); rewrite <- E; f_equal; lia.
Qed.

Lemma digits_of_uint (d : Decimal.uint) (count : nat) :
  exists count',
    digits 10 (of_text (NilEmpty.string_of_uint d)) 0 count
    = (Z.of_N (Pos.of_uint d), count', EmptyString)
    /\ (count + Utf16.length (of_text (NilEmpty.string_of_uint d)) <= count')%nat.
Proof.
  revert count.
  induction d as [|d IH|d IH|d IH|d IH|d IH|d IH|d IH|d IH|d IH|d IH];
    intros count;
    cbn [NilEmpty.string_of_uint Pos.of_uint Utf16.length of_text];
    [ exists count; split; [reflexivity | lia]
    | digit_step 0; destruct (IH (S count)) as (count' & E & Hle);
      exists count'; split; [exact E | lia]
    | digit_step 1 | digit_step 2 | digit_step 3
    | digit_step 4 | digit_step 5 | digit_step 6 | digit_step 7
    | digit_step 8 | digit_step 9 ];
    match goal with
    | |- context [Pos.of_uint_acc d ?q] =>
        destruct (digits_of_uint_acc d q (S count)) as (count' & E & Hle)
    end;
    exists count'; (split; [exact E | lia]).
Qed.

(** A printed natural number is read back by [Number]. *)
Lemma Number_decimal (n : N) :
  (0 < n < 2 ^ 53)%N ->
  Number (decimal n) = Finite (inject_Z (Z.of_N n)).
Proof.
  intros Hn. unfold decimal.
  pose proof (all_digit_string_of_uint (N.to_uint n)) as Hd.
  assert (Hne : of_text (NilEmpty.string_of_uint (N.to_uint n)) <> EmptyString).
  { intros E. pose proof (DecimalN.Unsigned.of_to n) as Hto.
    destruct (N.to_uint n); try discriminate E.
    simpl in Hto. lia. }
  rewrite (Number_all_digit _ Hd Hne). unfold unsigned_decimal.
  rewrite (all_digit_not_Infinity _ Hd).
  destruct (digits_of_uint (N.to_uint n) 0) as (count & E & Hle).
  rewrite E.
  change (Pos.of_uint (N.to_uint n)) with (N.of_uint (N.to_uint n)).
  rewrite DecimalN.Unsigned.of_to.
  destruct count as [|count].
  { destruct (of_text (NilEmpty.string_of_uint (N.to_uint n))); [contradiction|].
    simpl in Hle. lia. }
  cbn -[to_double Z.mul Z.add].
  rewrite <- to_double_integer.
  - apply to_double_comp. unfold scale10, Qeq. simpl. lia.
  - change (2 ^ 53)%Z with (Z.of_N (2 ^ 53)). lia.
Qed.

Local Open Scope Q_scope.

(** The number of millionths nearest to the double of [n / 1_000_000] is
    [n], for a whole [n] below [10^15]. *)
Lemma nearest_millionth_whole (n : Z) (x : Q) :
  (1 <= n < 10 ^ 15)%Z ->
  (n # 1000000) * (1 - pow2 (-53)) <= x ->
  x <= (n # 1000000) * (1 + pow2 (-53)) ->
  Qfloor (x * inject_Z 1000000 + (1 # 2)) = n.
Proof.
  intros Hn Hl Hu. rewrite AmountFacts.millionths in Hl, Hu.
  destruct AmountFacts.eps_small as (He0 & He & _).
  assert (H1 : 1 <= inject_Z n).
  { change 1 with (inject_Z 1). rewrite <- Zle_Qle. lia. }
  assert (H2 : inject_Z n <= inject_Z (10 ^ 15)) by (rewrite <- Zle_Qle; lia).
  change (inject_Z (10 ^ 15)) with 1000000000000000 in H2.
  change (inject_Z 1000000) with 1000000.
  apply Z.le_antisymm.
  - apply Z.lt_succ_r. rewrite Zlt_Qlt. unfold Z.succ. rewrite inject_Z_plus.
    change (inject_Z 1) with 1.
    pose proof (Qfloor_le (x * 1000000 + (1 # 2))) as H. nra.
  - rewrite <- (Qfloor_Z n) at 1. apply Qfloor_resp_le. nra.
Qed.

(** X4.  An estimate written as a whole number [n] of micro-USD, from 1 up
    to 10^15, is converted without loss of a millionth: the amount is the
    double nearest to [n / 1_000_000], as if the division had been done
    once and exactly. *)
Theorem microsToUsd_whole_estimate (n : N) :
  (0 < n)%N -> (n < 10 ^ 15)%N ->
  microsToUsd (Some (decimal n)) = to_double (Z.of_N n # 1000000).
Proof.
  intros Hpos Hlt.
  assert (Hq : Number (decimal n) = Finite (inject_Z (Z.of_N n))).
  { apply Number_decimal. split; [exact Hpos|].
    apply N.lt_trans with (10 ^ 15)%N; [exact Hlt|reflexivity]. }
  assert (H1 : 1 <= inject_Z (Z.of_N n)).
  { change 1 with (inject_Z 1). rewrite <- Zle_Qle. lia. }
  rewrite (AmountFacts.microsToUsd_finite (Some (decimal n)) _ Hq).
  assert (H0 : Qle_bool (inject_Z (Z.of_N n)) 0 = false)
    by (apply Qle_bool_false; lra).
  rewrite H0.
  destruct (AmountFacts.divide_micros _ H1 (Number_bounded _ _ Hq))
    as (x & Hx & Hl & Hu).
  rewrite Hx. rewrite <- AmountFacts.millionths in Hl, Hu.
  destruct AmountFacts.eps_small as (He0 & He & _).
  assert (Hn : (1 <= Z.of_N n < 10 ^ 15)%Z).
  { change (10 ^ 15)%Z with (Z.of_N (10 ^ 15)). lia. }
  assert (H2 : inject_Z (Z.of_N n) <= inject_Z (10 ^ 15)) by (rewrite <- Zle_Qle; lia).
  change (inject_Z (10 ^ 15)) with 1000000000000000 in H2.
  pose proof (AmountFacts.millionths (Z.of_N n)) as Hm.
  rewrite AmountFacts.toFixed6_small.
  - rewrite (nearest_millionth_whole (Z.of_N n) x Hn Hl Hu). reflexivity.
  - nra.
  - change (inject_Z (10 ^ 21)) with 1000000000000000000000. nra.
Qed.

Lemma microsToUsd_whole_estimate_witness :
  microsToUsd (Some (decimal 1234567)) = to_double (1234567 # 1000000).
Proof. apply (microsToUsd_whole_estimate 1234567); reflexivity. Defined.

(** *** Order *)

Example to_double_above_limit :
  to_double (inject_Z (10 ^ 21) + 1) = Finite (inject_Z (10 ^ 21)).
Proof. vm_compute. reflexivity. Qed.

(** [Number(x.toFixed(6))] on a double that is not negative. *)
Lemma toFixed6_finite (x : Q) :
  0 <= x -> exists v, toFixed6 x = Finite v /\ 0 <= v.
Proof.
  intros Hx. destruct (Qlt_le_dec x (inject_Z (10 ^ 21))) as [Hs|Hl].
  - rewrite (AmountFacts.toFixed6_small x Hx Hs).
    destruct (AmountFacts.nearest_millionth x) as [Hn1 Hn2].
    set (n := Qfloor (x * inject_Z 1000000 + (1 # 2))) in *.
    pose proof (AmountFacts.millionths n) as Hz.
    destruct AmountFacts.normal_range as (_ & _ & Hbig).
    assert (Hn : 0 <= inject_Z n).
    { change 0 with (inject_Z 0). rewrite <- Zle_Qle.
      apply Z.lt_succ_r. rewrite Zlt_Qlt. unfold Z.succ.
      rewrite inject_Z_plus. change (inject_Z 1) with 1. change (inject_Z 0) with 0.
      nra. }
    destruct (to_double_finite (n # 1000000)) as (v & Hv); [lra|lra|].
    exists v. split; [exact Hv|]. apply (to_double_nonneg (n # 1000000)); [lra|exact Hv].
  - rewrite (AmountFacts.toFixed6_large x Hl). exists x. split; [reflexivity|exact Hx].
Qed.

Lemma toFixed6_mono (x1 x2 v1 v2 : Q) :
  0 <= x1 -> x1 <= x2 ->
  toFixed6 x1 = Finite v1 -> toFixed6 x2 = Finite v2 -> v1 <= v2.
Proof.
  intros Hx Hle H1 H2.
  assert (Hlim : 1 <= inject_Z (10 ^ 21)) by (apply Qle_bool_iff; reflexivity).
  destruct (Qlt_le_dec x1 (inject_Z (10 ^ 21))) as [Hs1|Hl1].
  - rewrite (AmountFacts.toFixed6_small x1 Hx Hs1) in H1.
    destruct (AmountFacts.nearest_millionth x1) as [Ha1 Ha2].
    set (n1 := Qfloor (x1 * inject_Z 1000000 + (1 # 2))) in *.
    pose proof (AmountFacts.millionths n1) as Hz1.
    assert (Hn1 : 0 <= inject_Z n1).
    { change 0 with (inject_Z 0). rewrite <- Zle_Qle.
      apply Z.lt_succ_r. rewrite Zlt_Qlt. unfold Z.succ.
      rewrite inject_Z_plus. change (inject_Z 1) with 1. change (inject_Z 0) with 0.
      nra. }
    destruct (Qlt_le_dec x2 (inject_Z (10 ^ 21))) as [Hs2|Hl2].
    + rewrite (AmountFacts.toFixed6_small x2 (Qle_trans _ _ _ Hx Hle) Hs2) in H2.
      set (n2 := Qfloor (x2 * inject_Z 1000000 + (1 # 2))) in *.
      pose proof (AmountFacts.millionths n2) as Hz2.
      assert (Hn : (n1 <= n2)%Z).
      { apply Qfloor_resp_le. change (inject_Z 1000000) with 1000000. lra. }
      rewrite Zle_Qle in Hn.
      apply (to_double_mono (n1 # 1000000) (n2 # 1000000)); try assumption; lra.
    + rewrite (AmountFacts.toFixed6_large x2 Hl2) in H2. injection H2 as <-.
      apply Qle_trans with (inject_Z (10 ^ 21)); [|exact Hl2].
      apply (to_double_mono (n1 # 1000000) (inject_Z (10 ^ 21) + 1));
        [lra|lra|exact H1|exact to_double_above_limit].
  - rewrite (AmountFacts.toFixed6_large x1 Hl1) in H1. injection H1 as <-.
    rewrite (AmountFacts.toFixed6_large x2 (Qle_trans _ _ _ Hl1 Hle)) in H2.
    injection H2 as <-. exact Hle.
Qed.

(** The quotient of a positive double is a double that is not negative. *)
Lemma divide_finite (q : Q) :
  0 < q -> Qabs q < pow2 1024 ->
  exists x, divide q 1000000 = Finite x /\ 0 <= x.
Proof.
  intros Hq Hb. rewrite Qabs_pos in Hb by lra.
  destruct AmountFacts.normal_range as (_ & Hhi & _).
  pose proof (pow2_pos 1023) as Hp. unfold divide.
  assert (Hy : 0 <= q / inject_Z 1000000) by (rewrite AmountFacts.per_million; lra).
  destruct (to_double_finite (q / inject_Z 1000000) Hy) as (x & Hx).
  { rewrite AmountFacts.per_million. lra. }
  exists x. split; [exact Hx|]. apply (to_double_nonneg _ _ Hy Hx).
Qed.

(** X5.  Among positive estimates the conversion is monotone: both amounts
    are finite, and a larger estimate never gives a smaller amount. *)
Theorem microsToUsd_monotone (e1 e2 : option string) (q1 q2 : Q) :
  Number (default EmptyString e1) = Finite q1 ->
  Number (default EmptyString e2) = Finite q2 ->
  0 < q1 -> q1 <= q2 ->
  exists v1 v2,
    microsToUsd e1 = Finite v1 /\ microsToUsd e2 = Finite v2 /\ v1 <= v2.
Proof.
  intros H1 H2 Hpos Hle.
  assert (Hpos2 : 0 < q2) by lra.
  destruct (divide_finite q1 Hpos (Number_bounded _ _ H1)) as (x1 & Hx1 & Hn1).
  destruct (divide_finite q2 Hpos2 (Number_bounded _ _ H2)) as (x2 & Hx2 & Hn2).
  assert (Hx : x1 <= x2).
  { apply (to_double_mono (q1 / inject_Z 1000000) (q2 / inject_Z 1000000));
      try assumption; rewrite !AmountFacts.per_million; lra. }
  rewrite (AmountFacts.microsToUsd_finite e1 q1 H1),
    (AmountFacts.microsToUsd_finite e2 q2 H2), Hx1, Hx2.
  assert (E1 : Qle_bool q1 0 = false) by (apply Qle_bool_false; lra).
  assert (E2 : Qle_bool q2 0 = false) by (apply Qle_bool_false; lra).
  rewrite E1, E2.
  destruct (toFixed6_finite x1 Hn1) as (v1 & Hv1 & _).
  destruct (toFixed6_finite x2 Hn2) as (v2 & Hv2 & _).
  exists v1, v2. split; [exact Hv1|]. split; [exact Hv2|].
  apply (toFixed6_mono x1 x2); assumption.
Qed.

Lemma microsToUsd_monotone_witness :
  exists v1 v2,
    microsToUsd (Some "5000") = Finite v1
    /\ microsToUsd (Some "7500.5") = Finite v2 /\ v1 <= v2.
Proof.
  apply (microsToUsd_monotone (Some "5000") (Some "7500.5")
           (inject_Z 5000) (15001 # 2));
    [vm_compute; reflexivity | vm_compute; reflexivity | reflexivity
    | unfold Qle; simpl; lia].
Defined.

End EstimateFacts.

(** ** The command line *)

Module CliFacts.
Import JsString Text Js Cli JsStringFacts.

(** What the loop of [parseArgs] adds to a result it starts from: flags are
    only ever set, and a port read later replaces the earlier one. *)
Lemma parseArgs_from_merge (args : list string) (result : Args) :
  version (parseArgs_from args result)
  = version result || version (parseArgs args)
  /\ help (parseArgs_from args result) = help result || help (parseArgs args)
  /\ port (parseArgs_from args result)
     = match port (parseArgs args) with
       | Some p => Some p
       | None => port result
       end.
Proof.
  remember (List.length args) as n eqn:Hn.
  assert (Hle : (List.length args <= n)%nat) by lia. clear Hn.
  revert args Hle result.
  induction n as [|n IH]; intros args Hle result.
  - destruct args; [|simpl in Hle; lia]. simpl.
    rewrite !orb_false_r. repeat split; reflexivity.
  - destruct args as [|arg rest]; simpl.
    + rewrite !orb_false_r. repeat split; reflexivity.
    + simpl in Hle. unfold parseArgs. simpl.
      assert (Hrest : (List.length rest <= n)%nat) by lia.
      destruct (Utf16.eqb arg "--version" || Utf16.eqb arg "-v").
      { destruct (IH rest Hrest
                    {| version := true; help := help result; port := port result |})
          as (-> & -> & ->).
        destruct (IH rest Hrest {| version := true; help := false; port := None |})
          as (-> & -> & ->).
        simpl. rewrite orb_true_r.
        destruct (port (parseArgs rest)); repeat split; reflexivity. }
      destruct (Utf16.eqb arg "--help" || Utf16.eqb arg "-h").
      { destruct (IH rest Hrest
                    {| version := version result; help := true; port := port result |})
          as (-> & -> & ->).
        destruct (IH rest Hrest {| version := false; help := true; port := None |})
          as (-> & -> & ->).
        simpl. rewrite orb_true_r.
        destruct (port (parseArgs rest)); repeat split; reflexivity. }
      destruct (Utf16.eqb arg "--port"); [|exact (IH rest Hrest result)].
      destruct rest as [|next rest'].
      { simpl. rewrite !orb_false_r. repeat split; reflexivity. }
      destruct (truthy next); [|exact (IH (next :: rest') Hrest result)].
      simpl in Hrest.
      assert (Hrest' : (List.length rest' <= n)%nat) by lia.
      destruct (IH rest' Hrest'
                  {| version := version result; help := help result;
                     port := Some (parseInt10 next) |})
        as (-> & -> & ->).
      destruct (IH rest' Hrest'
                  {| version := false; help := false;
                     port := Some (parseInt10 next) |})
        as (-> & -> & ->).
      simpl. destruct (port (parseArgs rest')); repeat split; reflexivity.
Qed.

(** Arguments before the first [--port] are read one by one. *)
Lemma parseArgs_from_app (pre rest : list string) (result : Args) :
  "--port" ∉ pre ->
  parseArgs_from (pre ++ rest) result
  = parseArgs_from rest (parseArgs_from pre result).
Proof.
  revert result. induction pre as [|arg pre IH]; intros result Hpre; simpl.
  - reflexivity.
  - apply not_elem_of_cons in Hpre as [Hne Hpre].
    destruct (Utf16.eqb arg "--version" || Utf16.eqb arg "-v");
      [apply IH, Hpre|].
    destruct (Utf16.eqb arg "--help" || Utf16.eqb arg "-h");
      [apply IH, Hpre|].
    destruct (Utf16.eqb arg "--port") eqn:E; [|apply IH, Hpre].
    apply Utf16Facts.eqb_eq in E. congruence.
Qed.

Lemma parseArgs_from_no_port (args : list string) (result : Args) :
  "--port" ∉ args ->
  version (parseArgs_from args result)
  = version result
    || existsb (fun a => Utf16.eqb a "--version" || Utf16.eqb a "-v") args
  /\ help (parseArgs_from args result)
     = help result
       || existsb (fun a => Utf16.eqb a "--help" || Utf16.eqb a "-h") args
  /\ port (parseArgs_from args result) = port result.
Proof.
  revert result. induction args as [|arg args IH]; intros result Hno; simpl.
  - rewrite !orb_false_r. repeat split; reflexivity.
  - apply not_elem_of_cons in Hno as [Hne Hno].
    destruct (Utf16.eqb arg "--version" || Utf16.eqb arg "-v") eqn:Ev.
    { destruct (IH {| version := true; help := help result; port := port result |}
                  Hno) as (-> & -> & ->).
      simpl. rewrite orb_true_r.
      assert (Eh : Utf16.eqb arg "--help" || Utf16.eqb arg "-h" = false).
      { apply orb_true_iff in Ev as [Ev | Ev]; apply Utf16Facts.eqb_eq in Ev;
          subst arg; reflexivity. }
      rewrite Eh. repeat split; reflexivity. }
    destruct (Utf16.eqb arg "--help" || Utf16.eqb arg "-h") eqn:Eh.
    { destruct (IH {| version := version result; help := true; port := port result |}
                  Hno) as (-> & -> & ->).
      simpl. rewrite orb_true_r. repeat split; reflexivity. }
    destruct (Utf16.eqb arg "--port") eqn:E.
    { apply Utf16Facts.eqb_eq in E. congruence. }
    exact (IH result Hno).
Qed.

Lemma existsb_flag (a b : string) (args : list string) :
  existsb (fun x => Utf16.eqb x a || Utf16.eqb x b) args = true
  <-> a ∈ args \/ b ∈ args.
Proof.
  rewrite existsb_exists. split.
  - intros (x & Hin & Hx). apply list_elem_of_In in Hin.
    apply orb_true_iff in Hx as [Hx | Hx]; apply Utf16Facts.eqb_eq in Hx; subst x;
      [left | right]; exact Hin.
  - intros [H | H]; [exists a | exists b];
      (split; [apply list_elem_of_In, H|]);
      rewrite Utf16Facts.eqb_refl; [reflexivity | apply orb_true_r].
Qed.

(** X6.  Without [--port] on the command line, [parseArgs] reports
    [version] exactly when [--version] or [-v] occurs among the arguments,
    [help] exactly when [--help] or [-h] does, and leaves the port
    undefined; every other argument is ignored. *)
Theorem parseArgs_flags (args : list string) :
  "--port" ∉ args ->
  (version (parseArgs args) = true <-> "--version" ∈ args \/ "-v" ∈ args)
  /\ (help (parseArgs args) = true <-> "--help" ∈ args \/ "-h" ∈ args)
  /\ port (parseArgs args) = None.
Proof.
  intros Hno. unfold parseArgs.
  destruct (parseArgs_from_no_port args
              {| version := false; help := false; port := None |} Hno)
    as (-> & -> & ->).
  simpl. split; [apply existsb_flag|]. split; [apply existsb_flag | reflexivity].
Qed.

Lemma parseArgs_flags_witness :
  version (parseArgs ["--verbose"; "-v"; "--help"]) = true
  <-> "--version" ∈ ["--verbose"; "-v"; "--help"]
      \/ "-v" ∈ ["--verbose"; "-v"; "--help"].
Proof.
  apply (parseArgs_flags ["--verbose"; "-v"; "--help"]).
  intros H. repeat (apply elem_of_cons in H as [H | H]; [discriminate H|]).
  apply elem_of_nil in H. exact H.
Defined.

(** X7.  The argument that follows the first [--port] is consumed as the
    port whatever it reads, and never as a flag: the flags are those before
    [--port] and those after the value, and the port is the value read by
    [parseInt], unless a later [--port] replaces it.  A [--port] that ends
    the command line, or that is followed by the empty string, is
    ignored. *)
Theorem parseArgs_port (pre post : list string) (value : string) :
  "--port" ∉ pre ->
  (value <> EmptyString ->
   let result := parseArgs (pre ++ "--port" :: value :: post) in
   version result = version (parseArgs pre) || version (parseArgs post)
   /\ help result = help (parseArgs pre) || help (parseArgs post)
   /\ port result
      = match port (parseArgs post) with
        | Some later => Some later
        | None => Some (parseInt10 value)
        end)
  /\ parseArgs (pre ++ ["--port"]) = parseArgs pre
  /\ parseArgs (pre ++ "--port" :: EmptyString :: post) = parseArgs (pre ++ post).
Proof.
  intros Hpre. split; [|split].
  - intros Hv. apply truthy_spec in Hv. simpl.
    unfold parseArgs at 1 4 7.
    rewrite !parseArgs_from_app by exact Hpre. simpl. rewrite Hv.
    fold (parseArgs pre).
    destruct (parseArgs_from_merge post
                {| version := version (parseArgs pre);
                   help := help (parseArgs pre);
                   port := Some (parseInt10 value) |}) as (-> & -> & ->).
    simpl. repeat split; reflexivity.
  - unfold parseArgs. rewrite parseArgs_from_app by exact Hpre. reflexivity.
  - unfold parseArgs. rewrite !parseArgs_from_app by exact Hpre. reflexivity.
Qed.

Lemma parseArgs_port_witness :
  port (parseArgs (["-h"] ++ "--port" :: "--version" :: ["--port"; "9000"]))
  = Some (Finite (inject_Z 9000))
  /\ version (parseArgs (["-h"] ++ "--port" :: "--version" :: ["--port"; "9000"]))
     = false.
Proof.
  assert (Hpre : "--port" ∉ ["-h"]).
  { intros H. apply elem_of_cons in H as [H | H]; [discriminate H|].
    apply elem_of_nil in H. exact H. }
  destruct (parseArgs_port ["-h"] ["--port"; "9000"] "--version" Hpre)
    as [H _].
  destruct (H ltac:(discriminate)) as (Hv & _ & Hp).
  split; [exact Hp | exact Hv].
Defined.

Lemma blank_iff_falsy (s : string) :
  truthy (trim s) = false <-> all_space s = true.
Proof.
  rewrite <- ServiceFacts.trim_empty. unfold truthy.
  rewrite negb_false_iff. apply Utf16Facts.eqb_eq.
Qed.

(** X8.  A run of [main] has exactly one of four outcomes.  [--version]
    wins over everything and [--help] over everything else, whatever the
    environment holds.  Otherwise the payment mode is claw.credit exactly
    when [BLOCKRUN_PAYMENT_MODE], trimmed and lower-cased, reads
    [clawcredit]; every other value, and none at all, selects the wallet.
    Before it starts the proxy the run fails exactly when the mode is
    claw.credit and [CLAWCREDIT_API_TOKEN] is missing or blank, or the mode
    is wallet and the wallet key cannot be resolved; in claw.credit mode
    the wallet is never consulted.  The options handed to [startProxy] carry a wallet key
    or a claw.credit configuration, never both, and the port of the command
    line. *)
Theorem main_outcome (rt : Runtime) (argv : list string)
    (env : gmap string string) (wallet : string + ResolvedWallet) :
  let args := parseArgs argv in
  let mode :=
    toLowerCase rt (trim (env_or env "BLOCKRUN_PAYMENT_MODE" "wallet")) in
  (main rt argv env wallet = PrintVersion <-> version args = true)
  /\ (main rt argv env wallet = PrintHelp
      <-> version args = false /\ help args = true)
  /\ (forall message,
        main rt argv env wallet = FatalError message
        <-> version args = false /\ help args = false
            /\ ((mode = "clawcredit"
                 /\ all_space (env_or env "CLAWCREDIT_API_TOKEN" "") = true
                 /\ message
                    = "CLAWCREDIT_API_TOKEN is required when BLOCKRUN_PAYMENT_MODE=clawcredit")
                \/ (mode <> "clawcredit" /\ wallet = inl message)))
  /\ (forall options,
        main rt argv env wallet = StartProxy options ->
        version args = false /\ help args = false
        /\ Options.port options = port args
        /\ ((mode = "clawcredit"
             /\ Options.paymentMode options = "clawcredit"
             /\ Options.walletKey options = None
             /\ is_Some (Options.clawCredit options)
             /\ all_space (env_or env "CLAWCREDIT_API_TOKEN" "") = false)
            \/ (mode <> "clawcredit"
                /\ Options.paymentMode options = "wallet"
                /\ Options.clawCredit options = None
                /\ exists resolved,
                     wallet = inr resolved
                     /\ Options.walletKey options = Some (key resolved)))).
Proof.
  intros args mode. unfold main. fold args. fold mode.
  destruct (version args) eqn:Ev.
  { split; [split; reflexivity|]. split; [split; [discriminate | intros [[=] _]]|].
    split; [intros message; split; [discriminate | intros [[=] _]]|].
    intros options [=]. }
  destruct (help args) eqn:Eh.
  { split; [split; discriminate|]. split; [split; [split|]; reflexivity|].
    split; [intros message; split; [discriminate | intros (_ & [=] & _)]|].
    intros options [=]. }
  destruct (Utf16.eqb mode "clawcredit") eqn:Em.
  - apply Utf16Facts.eqb_eq in Em.
    destruct (truthy (trim (env_or env "CLAWCREDIT_API_TOKEN" ""))) eqn:Et; simpl;
      (split; [split; discriminate|]);
      (split; [split; [discriminate | intros [_ [=]]]|]).
    + assert (Ha : all_space (env_or env "CLAWCREDIT_API_TOKEN" "") = false).
      { destruct (all_space (env_or env "CLAWCREDIT_API_TOKEN" "")) eqn:Ea;
          [|reflexivity].
        apply blank_iff_falsy in Ea. congruence. }
      split.
      * intros message. split; [discriminate|].
        intros (_ & _ & [(_ & Hb & _) | (Hm & _)]); congruence.
      * intros options [= <-]. simpl. split; [reflexivity|].
        split; [reflexivity|]. split; [reflexivity|]. left.
        repeat split; try assumption; try reflexivity. eexists. reflexivity.
    + apply blank_iff_falsy in Et. split.
      * intros message. split.
        -- intros [= <-]. split; [reflexivity|]. split; [reflexivity|]. left.
           repeat split; assumption.
        -- intros (_ & _ & [(_ & _ & ->) | (Hm & _)]); [reflexivity | congruence].
      * intros options [=].
  - apply Utf16Facts.eqb_neq in Em. destruct wallet as [failure | resolved];
      (split; [split; discriminate|]);
      (split; [split; [discriminate | intros [_ [=]]]|]).
    + split.
      * intros message. split.
        -- intros [= <-]. split; [reflexivity|]. split; [reflexivity|]. right.
           split; [exact Em | reflexivity].
        -- intros (_ & _ & [(Hm & _) | (_ & [= ->])]); [congruence | reflexivity].
      * intros options [=].
    + split.
      * intros message. split; [discriminate|].
        intros (_ & _ & [(Hm & _) | (_ & [=])]). congruence.
      * intros options [= <-]. simpl. split; [reflexivity|].
        split; [reflexivity|]. split; [reflexivity|]. right.
        split; [exact Em|]. split; [reflexivity|]. split; [reflexivity|].
        exists resolved. split; reflexivity.
Qed.

Lemma trimStart_ascii (s : string) : is_ascii s = true -> is_ascii (trimStart s) = true.
Proof.
  induction s as [|c s IH]; simpl; [reflexivity|]. intros H.
  destruct (is_space c); [|exact H].
  apply andb_true_iff in H as [_ H]. exact (IH H).
Qed.

Lemma trimEnd_ascii (s : string) : is_ascii s = true -> is_ascii (trimEnd s) = true.
Proof.
  induction s as [|c s IH]; simpl; [reflexivity|]. intros H.
  apply andb_true_iff in H as [Hc H]. specialize (IH H).
  destruct (trimEnd s) as [|d t].
  - destruct (is_space c); [reflexivity|]. simpl. rewrite Hc. reflexivity.
  - simpl in *. rewrite Hc. exact IH.
Qed.

Lemma trim_ascii (s : string) : is_ascii s = true -> is_ascii (trim s) = true.
Proof. intros H. apply trimEnd_ascii, trimStart_ascii, H. Qed.

Lemma upper_char_ascii (c : char) :
  (code c <? 128)%N = true -> (code (upper_char c) <? 128)%N = true.
Proof.
  rewrite upper_char_code. intros H.
  destruct ((97 <=? code c) && (code c <=? 122))%N eqn:E; [|exact H].
  bool_prop_in E. bool_prop. lia.
Qed.

Lemma asciiUpperCase_ascii (s : string) :
  is_ascii s = true -> is_ascii (asciiUpperCase s) = true.
Proof.
  induction s as [|c s IH]; simpl; [reflexivity|]. intros H.
  apply andb_true_iff in H as [Hc Hs].
  rewrite (upper_char_ascii _ Hc), (IH Hs). reflexivity.
Qed.

(** On a string of ASCII characters, upper-casing twice is upper-casing
    once. *)
Lemma toUpperCase_twice (rt : Runtime) (s : string) :
  is_ascii s = true -> toUpperCase rt (toUpperCase rt s) = toUpperCase rt s.
Proof.
  intros H. rewrite (toUpperCase_ascii rt s H).
  rewrite (toUpperCase_ascii rt _ (asciiUpperCase_ascii s H)).
  apply asciiUpperCase_idempotent.
Qed.

(** X9.  The claw.credit configuration that [main] builds from the
    environment is one [createClawCreditFetch] accepts: the token of the
    closure is the trimmed [CLAWCREDIT_API_TOKEN], its chain the
    upper-cased chain of the configuration, which is the chain of the
    configuration as it is when [CLAWCREDIT_PAYMENT_CHAIN] is a string of
    ASCII characters, and its asset the configured one; only the trailing
    slashes of the base URL are removed, and a blank [CLAWCREDIT_BASE_URL]
    gives the default service. *)
Theorem main_configuration_accepted (rt : Runtime) (argv : list string)
    (env : gmap string string) (wallet : string + ResolvedWallet)
    (options : ProxyOptions) (config : ClawCredit.Config.ClawCreditConfig) :
  main rt argv env wallet = StartProxy options ->
  Options.clawCredit options = Some config ->
  ClawCredit.createClawCreditFetch rt config
  = inr {| ClawCredit.serviceUrl :=
             ClawCredit.stripTrailingSlashes
               (or_default (ClawCredit.Config.baseUrl config)
                  ClawCredit.DEFAULT_SERVICE_URL);
           ClawCredit.chain := toUpperCase rt (ClawCredit.Config.chain config);
           ClawCredit.asset := ClawCredit.Config.asset config;
           ClawCredit.apiToken := ClawCredit.Config.apiToken config |}
  /\ ClawCredit.Config.apiToken config
     = trim (env_or env "CLAWCREDIT_API_TOKEN" "")
  /\ ClawCredit.Config.apiToken config <> EmptyString
  /\ ClawCredit.Config.chain config
     = toUpperCase rt (trim (env_or env "CLAWCREDIT_PAYMENT_CHAIN" "BASE"))
  /\ (is_ascii (env_or env "CLAWCREDIT_PAYMENT_CHAIN" "BASE") = true ->
      toUpperCase rt (ClawCredit.Config.chain config)
      = ClawCredit.Config.chain config)
  /\ (all_space (env_or env "CLAWCREDIT_BASE_URL" "https://api.claw.credit")
      = true ->
      ClawCredit.stripTrailingSlashes
        (or_default (ClawCredit.Config.baseUrl config)
           ClawCredit.DEFAULT_SERVICE_URL)
      = "https://api.claw.credit").
Proof.
  unfold main.
  destruct (version (parseArgs argv)); [discriminate|].
  destruct (help (parseArgs argv)); [discriminate|].
  destruct (Utf16.eqb _ "clawcredit").
  - destruct (truthy (trim (env_or env "CLAWCREDIT_API_TOKEN" ""))) eqn:Et;
      simpl; [|discriminate].
    intros [= <-]. simpl. intros [= <-]. simpl.
    split; [|split; [reflexivity|split; [apply truthy_spec, Et|
      split; [reflexivity|split]]]].
    + unfold ClawCredit.createClawCreditFetch. simpl.
      rewrite trim_idempotent, Et. reflexivity.
    + intros Ha. apply toUpperCase_twice, trim_ascii, Ha.
    + intros Hb. apply ServiceFacts.trim_empty in Hb.
      unfold CLAWCREDIT_DEFAULT_BASE_URL. rewrite Hb. reflexivity.
  - destruct wallet; [discriminate|]. intros [= <-]. discriminate.
Qed.

Lemma main_configuration_accepted_witness :
  exists options config,
    main JsonRef.runtime [] test_env test_wallet = StartProxy options
    /\ Options.clawCredit options = Some config
    /\ ClawCredit.createClawCreditFetch JsonRef.runtime config
       = inr ClawCredit.test_backend.
Proof.
  eexists. eexists.
  split; [vm_compute; reflexivity|]. split; [reflexivity|].
  refine (proj1 (main_configuration_accepted JsonRef.runtime [] test_env
                   test_wallet _ _ _ _));
    vm_compute; reflexivity.
Defined.

Example parseInt10_rounds :
  parseInt10 "9007199254740993" = Finite (inject_Z 9007199254740992).
Proof. vm_compute. reflexivity. Qed.

End CliFacts.

(** ** The Claude CLI backend *)

Module LocalClaudeFacts.
Import JsString Text Js LocalBackend LocalClaude JsStringFacts.

Lemma getLocalBackend_some (modelId : string)
    (config : option LocalBackendsConfig) (backend : LocalBackendConfig) :
  getLocalBackend modelId config = Some backend ->
  isAnthropicModel modelId = true.
Proof.
  unfold getLocalBackend. destruct config as [cfg|]; [|discriminate].
  destruct (claude cfg) as [b|]; [|discriminate].
  destruct (enabled b); [|discriminate].
  destruct (isAnthropicModel modelId); [reflexivity | discriminate].
Qed.

(** The CLI model of an id the Claude backend serves: never an inherited
    member, and Sonnet unless the id is listed for Opus or Haiku. *)
Lemma cliModel_of_anthropic (modelId : string) :
  isAnthropicModel modelId = true ->
  cliModel_of modelId
  = Str (if bool_decide
              (modelId ∈ ["anthropic/claude-opus-4";
                          "anthropic/claude-opus-4.5"; "opus"])
         then "claude-opus-4-20250514"
         else if bool_decide
                   (modelId ∈ ["anthropic/claude-haiku-4.5"; "haiku"])
         then "claude-haiku-4-20250514"
         else "claude-sonnet-4-20250514").
Proof.
  intros Ha. apply LocalBackendFacts.isAnthropicModel_spec in Ha.
  unfold cliModel_of, modelMap, assoc.
  repeat match goal with
  | |- context [Utf16.eqb ?k modelId] =>
      let E := fresh "E" in
      destruct (Utf16.eqb k modelId) eqn:E;
      [apply Utf16Facts.eqb_eq in E; subst modelId; reflexivity
      | apply Utf16Facts.eqb_neq in E]
  end.
  assert (Hp : existsb (Utf16.eqb modelId) Object_prototype = false).
  { destruct Ha as [(rest & ->) | [-> | [-> | [-> | ->]]]]; reflexivity. }
  rewrite Hp.
  rewrite !bool_decide_eq_false_2; [reflexivity | |];
    intros Hin; repeat (apply elem_of_cons in Hin as [Hin | Hin]; [congruence|]);
    apply elem_of_nil in Hin; exact Hin.
Qed.

Lemma isAnthropicModel_truthy (modelId : string) :
  isAnthropicModel modelId = true -> JsString.truthy modelId = true.
Proof. destruct modelId; [discriminate | reflexivity]. Qed.

(** What [prepare] gives once the request has parsed and its messages have
    been turned into a prompt. *)
Lemma prepare_model (engine : Engine) (body : string)
    (backend : LocalBackendConfig) (fields : list (string * Json))
    (modelId prompt : string) :
  JSON_parse (runtime engine) body = Some (JObject fields) ->
  property "model" fields = Some (JString modelId) ->
  JsString.truthy modelId = true ->
  prompt_of (JObject fields) = inr prompt ->
  prepare engine body backend
  = inr (JObject fields,
         {| spawn_command := command backend;
            spawn_args :=
              (Str <$> default [] (args backend))
              ++ [Str "--print"; Str "--model"; cliModel_of modelId];
            spawn_timeout := 120000;
            stdin := prompt |}).
Proof.
  intros Hparse Hmodel Ht Hprompt. unfold prepare.
  rewrite Hparse, Hprompt. simpl. rewrite Hmodel. simpl. rewrite Ht.
  rewrite <- app_assoc. reflexivity.
Qed.

(** X10.  The handler answers with status 200 or 500 and nothing else,
    always as JSON.  It answers 200 exactly when the request could be
    prepared (the body parsed and its messages were usable) and the child
    closed with exit code 0; a child ended by a signal, a non-zero exit
    code, a failure to start it and an unusable request all give 500, and
    every 500 carries an error object of type [local_backend_error].  The
    CLI is started exactly when the request could be prepared. *)
Theorem handler_status (engine : Engine) (child : Spawn -> ChildEvent)
    (now now' : Z) (body : string) (backend : LocalBackendConfig) :
  let handled := handleLocalClaudeRequest engine child now now' body backend in
  (status handled.2 = 200 \/ status handled.2 = 500)
  /\ content_type handled.2 = "application/json"
  /\ (status handled.2 = 200
      <-> exists parsed call stdout stderr,
            prepare engine body backend = inr (parsed, call)
            /\ child call = CloseEvent (Some 0) stdout stderr)
  /\ (status handled.2 = 500 ->
      exists message, LocalClaude.body handled.2 = error_body message)
  /\ (forall call,
        handled.1 = Some call
        <-> exists parsed, prepare engine body backend = inr (parsed, call)).
Proof.
  unfold handleLocalClaudeRequest.
  destruct (prepare engine body backend) as [e | [parsed call]]; simpl.
  { split; [right; reflexivity|]. split; [reflexivity|].
    split; [split; [discriminate | intros (? & ? & ? & ? & [=] & _)]|].
    split; [intros _; eexists; reflexivity|].
    intros call. split; [discriminate | intros [? [=]]]. }
  assert (Hcall : forall call',
            Some call = Some call'
            <-> exists parsed', @inr Thrown _ (parsed, call) = inr (parsed', call')).
  { intros call'. split; [intros [= <-]; exists parsed; reflexivity|].
    intros [parsed' [= _ <-]]. reflexivity. }
  destruct (child call) as [message | message | code stdout stderr] eqn:Ec;
    simpl.
  1, 2: split; [right; reflexivity|]; (split; [reflexivity|]);
    (split;
       [split; [discriminate
               | intros (? & ? & ? & ? & [= <- <-] & H); congruence]|]);
    (split; [intros _; eexists; reflexivity | exact Hcall]).
  destruct (bool_decide (code = Some 0)) eqn:Ed; simpl.
  - apply bool_decide_eq_true in Ed. subst code.
    split; [left; reflexivity|]. split; [reflexivity|].
    split; [split; [intros _; exists parsed, call, stdout, stderr;
                    split; [reflexivity | exact Ec] | reflexivity]|].
    split; [discriminate | exact Hcall].
  - apply bool_decide_eq_false in Ed.
    split; [right; reflexivity|]. split; [reflexivity|].
    split; [split; [discriminate
                   | intros (? & ? & ? & ? & [= <- <-] & H); congruence]|].
    split; [intros _; eexists; reflexivity | exact Hcall].
Qed.

(** X11.  For a model id that [getLocalBackend] routes to the Claude
    backend, the CLI is started with the configured command and with the
    configured arguments followed by [--print], [--model] and a model of
    the CLI, which is Opus for the three Opus names, Haiku for the two
    Haiku names and Sonnet for every other id, listed or not. *)
Theorem routed_model_invocation (engine : Engine) (body : string)
    (backends : option LocalBackendsConfig) (backend : LocalBackendConfig)
    (fields : list (string * Json)) (modelId : string)
    (parsed : Json) (call : Spawn) :
  getLocalBackend modelId backends = Some backend ->
  JSON_parse (runtime engine) body = Some (JObject fields) ->
  property "model" fields = Some (JString modelId) ->
  prepare engine body backend = inr (parsed, call) ->
  spawn_command call = command backend
  /\ exists id,
       spawn_args call
       = (Str <$> default [] (args backend))
         ++ [Str "--print"; Str "--model"; Str id]
       /\ (modelId ∈ ["anthropic/claude-opus-4"; "anthropic/claude-opus-4.5";
                      "opus"] ->
           id = "claude-opus-4-20250514")
       /\ (modelId ∈ ["anthropic/claude-haiku-4.5"; "haiku"] ->
           id = "claude-haiku-4-20250514")
       /\ (modelId ∉ ["anthropic/claude-opus-4"; "anthropic/claude-opus-4.5";
                      "opus"; "anthropic/claude-haiku-4.5"; "haiku"] ->
           id = "claude-sonnet-4-20250514").
Proof.
  intros Hroute Hparse Hmodel Hprep.
  apply getLocalBackend_some in Hroute.
  destruct (prompt_of (JObject fields)) as [e | prompt] eqn:Hprompt.
  { unfold prepare in Hprep. rewrite Hparse, Hprompt in Hprep. discriminate. }
  rewrite (prepare_model engine body backend fields modelId prompt Hparse Hmodel
             (isAnthropicModel_truthy _ Hroute) Hprompt) in Hprep.
  injection Hprep as <- <-. simpl. split; [reflexivity|].
  rewrite (cliModel_of_anthropic _ Hroute).
  eexists. split; [reflexivity|].
  split; [|split].
  - intros Hin.
    repeat (apply elem_of_cons in Hin as [-> | Hin]; [reflexivity|]).
    apply elem_of_nil in Hin. contradiction.
  - intros Hin.
    repeat (apply elem_of_cons in Hin as [-> | Hin]; [reflexivity|]).
    apply elem_of_nil in Hin. contradiction.
  - intros Hnot. rewrite !bool_decide_eq_false_2; [reflexivity | |];
      intros Hin; apply Hnot;
      repeat (apply elem_of_cons in Hin as [-> | Hin];
              [repeat first [apply list_elem_of_here | apply list_elem_of_further]|]);
      apply elem_of_nil in Hin; contradiction.
Qed.

Lemma routed_model_invocation_witness :
  exists parsed call,
    prepare node (chat_request "opus") claude_backend = inr (parsed, call)
    /\ spawn_command call = "/usr/local/bin/claude".
Proof.
  eexists. eexists. split; [vm_compute; reflexivity|].
  refine (proj1 (routed_model_invocation node (chat_request "opus")
                   (Some {| claude := Some claude_backend |}) claude_backend
                   _ "opus" _ _ _ _ _ _));
    vm_compute; reflexivity.
Defined.

(** X12.  An id with the [anthropic/] prefix that is not one of the four
    listed ids is not refused: the CLI runs [claude-sonnet-4-20250514] for
    it, and when the CLI exits with code 0 the response still names the
    requested id as its model, with the trimmed output of the CLI as the
    content of its only choice. *)
Theorem unlisted_model_served_by_sonnet (engine : Engine)
    (child : Spawn -> ChildEvent) (now now' : Z) (body : string)
    (backend : LocalBackendConfig) (fields : list (string * Json))
    (rest prompt stdout stderr : string) :
  let modelId := "anthropic/" +:+ rest in
  let call :=
    {| spawn_command := command backend;
       spawn_args :=
         (Str <$> default [] (args backend))
         ++ [Str "--print"; Str "--model"; Str "claude-sonnet-4-20250514"];
       spawn_timeout := 120000;
       stdin := prompt |} in
  JSON_parse (runtime engine) body = Some (JObject fields) ->
  property "model" fields = Some (JString modelId) ->
  modelId ∉ ["anthropic/claude-sonnet-4"; "anthropic/claude-opus-4";
             "anthropic/claude-opus-4.5"; "anthropic/claude-haiku-4.5"] ->
  prompt_of (JObject fields) = inr prompt ->
  child call = CloseEvent (Some 0) stdout stderr ->
  handleLocalClaudeRequest engine child now now' body backend
  = (Some call,
     {| status := 200; content_type := "application/json";
        body := completion now now' (Some (JString modelId)) stdout |})
  /\ exists members,
       completion now now' (Some (JString modelId)) stdout = JObject members
       /\ property "model" members = Some (JString modelId)
       /\ property "choices" members
          = Some (JArray
                    [JObject
                       [("index", JNumber "0");
                        ("message",
                         JObject [("role", JString "assistant");
                                  ("content", JString (trim stdout))]);
                        ("finish_reason", JString "stop")]]).
Proof.
  intros modelId call Hparse Hmodel Hnot Hprompt Hchild.
  assert (Ha : isAnthropicModel modelId = true).
  { apply LocalBackendFacts.isAnthropicModel_spec. left. exists rest. reflexivity. }
  assert (Hcli : cliModel_of modelId = Str "claude-sonnet-4-20250514").
  { rewrite (cliModel_of_anthropic _ Ha).
    rewrite !bool_decide_eq_false_2; [reflexivity | |];
      intros Hin;
      repeat (apply elem_of_cons in Hin as [Hin | Hin];
              [first [discriminate Hin
                     | apply Hnot; rewrite Hin;
                       repeat first [apply list_elem_of_here
                                    | apply list_elem_of_further]]|]);
      apply elem_of_nil in Hin; exact Hin. }
  unfold handleLocalClaudeRequest.
  rewrite (prepare_model engine body backend fields modelId prompt Hparse Hmodel
             (isAnthropicModel_truthy _ Ha) Hprompt).
  rewrite Hcli. fold call. rewrite Hchild. simpl. rewrite Hmodel.
  split; [reflexivity|]. eexists. split; [reflexivity|]. split; reflexivity.
Qed.

Lemma unlisted_model_served_by_sonnet_witness :
  status
    (handleLocalClaudeRequest node (exits (Some 0) " Hi " "") 1700000000000
       1700000000001 (chat_request "anthropic/claude-3-opus") claude_backend).2
  = 200.
Proof.
  refine (f_equal (fun handled => status handled.2)
            (proj1 (unlisted_model_served_by_sonnet node
                      (exits (Some 0) " Hi " "") 1700000000000 1700000000001
                      (chat_request "anthropic/claude-3-opus") claude_backend
                      _ "claude-3-opus" _ " Hi " "" _ _ _ _ _)));
    try (vm_compute; reflexivity).
  intros Hin.
  repeat (apply elem_of_cons in Hin as [Hin | Hin]; [discriminate Hin|]).
  apply elem_of_nil in Hin. exact Hin.
Defined.

(** X13.  A run that fails says nothing of what the CLI printed: when the
    child closes with anything but exit code 0, the response is the same
    whatever its standard output was, and its message is the standard error
    of the child, or [Unknown error] when that is empty.  A run that
    succeeds says nothing of the standard error. *)
Theorem output_of_failed_run_discarded (engine : Engine) (now now' : Z)
    (body : string) (backend : LocalBackendConfig) (code : option Z)
    (stdout stdout' stderr stderr' : string) :
  let run := fun code out err =>
    (handleLocalClaudeRequest engine (exits code out err) now now' body
       backend).2 in
  (code <> Some 0 ->
   run code stdout stderr = run code stdout' stderr
   /\ (forall parsed call,
         prepare engine body backend = inr (parsed, call) ->
         run code stdout stderr
         = failure ("Claude CLI failed: "
                    +:+ (if Utf16.eqb stderr "" then "Unknown error"
                         else stderr))))
  /\ run (Some 0) stdout stderr = run (Some 0) stdout stderr'.
Proof.
  intros run. subst run. unfold handleLocalClaudeRequest, exits. cbv beta.
  destruct (prepare engine body backend) as [e | [parsed call]]; simpl.
  - split; [intros _; split; [reflexivity | intros ? ? [=]] | reflexivity].
  - split; [|reflexivity]. intros Hcode.
    rewrite bool_decide_eq_false_2 by exact Hcode.
    split; [reflexivity|]. intros parsed' call' _. unfold JsString.truthy.
    destruct (Utf16.eqb stderr ""); reflexivity.
Qed.

Lemma output_of_failed_run_discarded_witness :
  (handleLocalClaudeRequest node (exits None "partial" "") 0 0
     (chat_request "sonnet") claude_backend).2
  = (handleLocalClaudeRequest node (exits None "" "") 0 0
       (chat_request "sonnet") claude_backend).2.
Proof.
  refine (proj1 (proj1 (output_of_failed_run_discarded node 0 0
                          (chat_request "sonnet") claude_backend None
                          "partial" "" "" "") _)).
  discriminate.
Defined.

(** What one message contributes to the prompt. *)
Lemma line_not_empty (m : Json) (l : string) : line m = inr l -> l <> EmptyString.
Proof.
  unfold line.
  destruct (get "role" m) as [|role]; [discriminate|].
  destruct (interpolate role) as [|r]; [discriminate|].
  destruct (get "content" m) as [|content]; [discriminate|].
  destruct (interpolate content) as [|c]; [discriminate|].
  intros [= <-]. destruct r; discriminate.
Qed.

Lemma lines_not_empty (messages : list Json) (ls : list string) :
  lines messages = inr ls ->
  List.length ls = List.length messages /\ Forall (fun l => l <> EmptyString) ls.
Proof.
  revert ls. induction messages as [|m messages IH]; simpl; intros ls.
  - intros [= <-]. split; [reflexivity | constructor].
  - destruct (line m) as [|l] eqn:El; [discriminate|].
    destruct (lines messages) as [|ls'] eqn:Els; [discriminate|].
    intros [= <-]. destruct (IH ls' eq_refl) as [Hlen Hall].
    split; [simpl; f_equal; exact Hlen|].
    constructor; [exact (line_not_empty m l El) | exact Hall].
Qed.

Lemma join_empty (sep : string) (ls : list string) :
  Forall (fun l => l <> EmptyString) ls -> join sep ls = EmptyString -> ls = [].
Proof.
  destruct ls as [|x ls]; [reflexivity|].
  intros H. apply Forall_cons in H as [Hx _]. simpl.
  destruct ls; [contradiction|].
  destruct x; [contradiction | discriminate].
Qed.

(** X14.  The prompt written to the CLI is empty exactly when the request
    has no messages ([messages] missing, falsy or an empty array): such a
    request is not refused, the CLI is started with nothing to read.  In
    general the prompt has one line per message, none of them empty. *)
Theorem prompt_empty_iff_no_messages (parsed : Json) (prompt : string) :
  prompt_of parsed = inr prompt ->
  (prompt = EmptyString <-> messages_of parsed = inr [])
  /\ exists messages ls,
       messages_of parsed = inr messages
       /\ lines messages = inr ls
       /\ List.length ls = List.length messages
       /\ Forall (fun l => l <> EmptyString) ls
       /\ prompt = join separator ls.
Proof.
  unfold prompt_of.
  destruct (messages_of parsed) as [|messages]; [discriminate|].
  destruct (lines messages) as [|ls] eqn:El; [discriminate|].
  intros [= <-]. destruct (lines_not_empty _ _ El) as [Hlen Hall].
  split.
  - split.
    + intros H. apply (join_empty _ _ Hall) in H. subst ls.
      destruct messages; [reflexivity | discriminate Hlen].
    + intros [= ->]. simpl in El. injection El as <-. reflexivity.
  - exists messages, ls. repeat split; assumption.
Qed.

Lemma prompt_empty_iff_no_messages_witness :
  EmptyString = EmptyString
  <-> messages_of (JObject [("model", JString "sonnet"); ("messages", JNull)])
      = inr [].
Proof.
  apply (prompt_empty_iff_no_messages
           (JObject [("model", JString "sonnet"); ("messages", JNull)])
           EmptyString).
  reflexivity.
Defined.

Lemma lines_conversation (messages : list Json) (turns : list (string * string)) :
  Forall2
    (fun m turn =>
       exists f, m = JObject f
                 /\ property "role" f = Some (JString turn.1)
                 /\ property "content" f = Some (JString turn.2))
    messages turns ->
  lines messages = inr ((fun turn => turn.1 +:+ ": " +:+ turn.2) <$> turns).
Proof.
  induction 1 as [|m turn messages turns (f & -> & Hr & Hc) _ IH]; simpl.
  - reflexivity.
  - unfold line. simpl. rewrite Hr, Hc. simpl. rewrite IH. reflexivity.
Qed.

(** X15.  A conversation in the OpenAI format, each message an object
    whose [role] and [content] are strings, becomes the prompt that lists
    every message in order, system messages included, as [role: content],
    with an empty line between two messages. *)
Theorem prompt_of_conversation (fields : list (string * Json))
    (messages : list Json) (turns : list (string * string)) :
  property "messages" fields = Some (JArray messages) ->
  Forall2
    (fun m turn =>
       exists f, m = JObject f
                 /\ property "role" f = Some (JString turn.1)
                 /\ property "content" f = Some (JString turn.2))
    messages turns ->
  prompt_of (JObject fields)
  = inr (join separator ((fun turn => turn.1 +:+ ": " +:+ turn.2) <$> turns)).
Proof.
  intros Hm Hall. unfold prompt_of, messages_of. simpl. rewrite Hm. simpl.
  rewrite (lines_conversation _ _ Hall). reflexivity.
Qed.

Lemma prompt_of_conversation_witness :
  prompt_of
    (JObject
       [("messages",
         JArray [JObject [("role", JString "system"); ("content", JString "Be brief.")];
                 JObject [("role", JString "user"); ("name", JString "u1");
                          ("content", JString "Hello")]])])
  = inr ("system: Be brief." +:+ separator +:+ "user: Hello").
Proof.
  apply (prompt_of_conversation
           [("messages",
             JArray [JObject [("role", JString "system");
                              ("content", JString "Be brief.")];
                     JObject [("role", JString "user"); ("name", JString "u1");
                              ("content", JString "Hello")]])]
           [JObject [("role", JString "system"); ("content", JString "Be brief.")];
            JObject [("role", JString "user"); ("name", JString "u1");
                     ("content", JString "Hello")]]
           [("system", "Be brief."); ("user", "Hello")]).
  - reflexivity.
  - repeat constructor; eexists; (split; [reflexivity|]); split; reflexivity.
Defined.

Lemma toString_parts (parts : list Json) :
  Forall (fun part => exists f, part = JObject f /\ property "toString" f = None)
    parts ->
  toString (JArray parts)
  = Some (join "," ((fun _ => "[object Object]") <$> parts)).
Proof.
  induction 1 as [|part parts (f & -> & Hf) Hall IH]; [reflexivity|].
  simpl in *. rewrite Hf.
  destruct parts as [|part' parts']; [reflexivity|].
  rewrite IH. reflexivity.
Qed.

(** X16.  Structured content is not flattened: when the [content] of a
    message is an array of parts, each an object, none of the text inside
    the parts reaches the CLI; the line of the message is its role followed
    by one [[object Object]] per part, separated by commas. *)
Theorem structured_content_not_flattened (f : list (string * Json))
    (role : string) (parts : list Json) :
  property "role" f = Some (JString role) ->
  property "content" f = Some (JArray parts) ->
  Forall (fun part => exists pf, part = JObject pf /\ property "toString" pf = None)
    parts ->
  line (JObject f)
  = inr (role +:+ ": " +:+ join "," ((fun _ => "[object Object]") <$> parts)).
Proof.
  intros Hr Hc Hall. unfold line, get. rewrite Hr, Hc.
  change (interpolate (Some (JString role))) with (@inr Thrown string role).
  unfold interpolate. rewrite (toString_parts _ Hall). reflexivity.
Qed.

Lemma structured_content_not_flattened_witness :
  line
    (JObject
       [("role", JString "user");
        ("content",
         JArray [JObject [("type", JString "text"); ("text", JString "Hello")];
                 JObject [("type", JString "text"); ("text", JString "there")]])])
  = inr "user: [object Object],[object Object]".
Proof.
  apply (structured_content_not_flattened
           [("role", JString "user");
            ("content",
             JArray [JObject [("type", JString "text"); ("text", JString "Hello")];
                     JObject [("type", JString "text"); ("text", JString "there")]])]
           "user"
           [JObject [("type", JString "text"); ("text", JString "Hello")];
            JObject [("type", JString "text"); ("text", JString "there")]]).
  - reflexivity.
  - reflexivity.
  - repeat constructor; eexists; split; reflexivity.
Defined.

End LocalClaudeFacts.

(** ** The environment file *)

Module EnvFileFacts.
Import JsString Text Js EnvFile JsStringFacts.

Lemma find_app_miss (p : string -> bool) (pre rest : list string) :
  Forall (fun l => p l = false) pre ->
  List.find p (pre ++ rest) = List.find p rest.
Proof.
  induction 1 as [|l pre Hl _ IH]; simpl; [reflexivity|].
  rewrite Hl. exact IH.
Qed.

Lemma find_none (p : string -> bool) (lines : list string) :
  Forall (fun l => p l = false) lines -> List.find p lines = None.
Proof.
  intros H. rewrite <- (app_nil_r lines). rewrite (find_app_miss _ _ _ H).
  reflexivity.
Qed.

(** Where [findIndex] stops: the first line the predicate holds of, and
    what an assignment at that index gives. *)
Lemma findIndex_some (p : string -> bool) (lines : list string) (idx : nat)
    (next : string) :
  findIndex p lines = Some idx ->
  exists pre old post,
    lines = pre ++ old :: post
    /\ Forall (fun l => p l = false) pre
    /\ p old = true
    /\ <[idx := next]> lines = pre ++ next :: post.
Proof.
  revert idx. induction lines as [|l lines IH]; simpl; intros idx; [discriminate|].
  destruct (p l) eqn:El.
  - intros [= <-]. exists [], l, lines. repeat split; [constructor | exact El].
  - destruct (findIndex p lines) as [i|]; [|discriminate].
    intros [= <-]. destruct (IH i eq_refl) as (pre & old & post & -> & Hpre & Hold & Hins).
    exists (l :: pre), old, post. simpl. rewrite Hins.
    repeat split; [constructor; assumption | exact Hold].
Qed.

Lemma findIndex_none (p : string -> bool) (lines : list string) :
  findIndex p lines = None -> Forall (fun l => p l = false) lines.
Proof.
  induction lines as [|l lines IH]; simpl; [constructor|].
  destruct (p l) eqn:El; [discriminate|].
  destruct (findIndex p lines); [discriminate|].
  intros _. constructor; [exact El | apply IH; reflexivity].
Qed.

Section SetLine.
Context (rt : Runtime).

Lemma entry_starts (key value : string) :
  startsWith (key +:+ "=") (entry rt key value) = true.
Proof.
  unfold entry.
  replace (key +:+ "=" +:+ JSON_stringify rt (JString value))
    with ((key +:+ "=") +:+ JSON_stringify rt (JString value)).
  - apply startsWith_app.
  - induction key as [|c key IH]; simpl; [reflexivity | f_equal; exact IH].
Qed.

(** After [setLine] the first line of the key is the new one. *)
Lemma setLine_found (key value : string) (lines : list string) :
  first_line (startsWith (key +:+ "=")) (setLine rt key value lines)
  = Some (entry rt key value).
Proof.
  unfold setLine, first_line. fold (entry rt key value).
  destruct (findIndex _ lines) as [idx|] eqn:E.
  - destruct (findIndex_some _ _ _ (entry rt key value) E)
      as (pre & old & post & _ & Hpre & _ & ->).
    rewrite (find_app_miss _ _ _ Hpre). simpl. rewrite entry_starts. reflexivity.
  - rewrite (find_app_miss _ _ _ (findIndex_none _ _ E)). simpl.
    rewrite entry_starts. reflexivity.
Qed.

(** A predicate that tells no line of the key from another one does not
    see what [setLine] does. *)
Lemma setLine_first_line (q : string -> bool) (key value : string)
    (lines : list string) :
  (forall l, startsWith (key +:+ "=") l = true -> q l = false) ->
  first_line q (setLine rt key value lines) = first_line q lines.
Proof.
  intros Hq. unfold setLine, first_line. fold (entry rt key value).
  pose proof (Hq _ (entry_starts key value)) as Hnext.
  destruct (findIndex _ lines) as [idx|] eqn:E.
  - destruct (findIndex_some _ _ _ (entry rt key value) E)
      as (pre & old & post & -> & _ & Hold & ->).
    apply Hq in Hold. clear E.
    induction pre as [|l pre IH]; simpl.
    + rewrite Hnext, Hold. reflexivity.
    + destruct (q l); [reflexivity | exact IH].
  - clear E. induction lines as [|l lines IH]; simpl.
    + rewrite Hnext. reflexivity.
    + destruct (q l); [reflexivity | exact IH].
Qed.

(** Writing a line that is already there changes nothing. *)
Lemma setLine_fixed (key value : string) (lines : list string) :
  first_line (startsWith (key +:+ "=")) lines = Some (entry rt key value) ->
  setLine rt key value lines = lines.
Proof.
  unfold setLine, first_line. fold (entry rt key value). intros Hfind.
  destruct (findIndex _ lines) as [idx|] eqn:E.
  - destruct (findIndex_some _ _ _ (entry rt key value) E)
      as (pre & old & post & -> & Hpre & Hold & ->).
    rewrite (find_app_miss _ _ _ Hpre) in Hfind. simpl in Hfind.
    rewrite Hold in Hfind. injection Hfind as ->. reflexivity.
  - rewrite (find_none _ _ (findIndex_none _ _ E)) in Hfind. discriminate.
Qed.

Lemma skipped_blank (value : string) :
  skipped (Some value) = true <-> all_space value = true.
Proof.
  simpl. rewrite Utf16Facts.eqb_eq. apply ServiceFacts.trim_empty.
Qed.

(** The entries that follow do not touch the first line of a key they do
    not name, as long as no line of theirs can be taken for a line of the
    key. *)
Lemma setLines_first_line (q : string -> bool)
    (entries : list (string * option string)) (lines : list string) :
  (forall k l, k ∈ entries.*1 -> startsWith (k +:+ "=") l = true -> q l = false) ->
  first_line q (setLines rt entries lines) = first_line q lines.
Proof.
  revert lines. induction entries as [|[k v] entries IH]; intros lines Hq; simpl.
  - reflexivity.
  - assert (Hrest : forall k' l, k' ∈ entries.*1 ->
                      startsWith (k' +:+ "=") l = true -> q l = false).
    { intros k' l Hin. apply Hq. simpl. apply list_elem_of_further, Hin. }
    destruct v as [value|]; [|exact (IH lines Hrest)].
    destruct (skipped (Some value)); [exact (IH lines Hrest)|].
    rewrite (IH _ Hrest). apply setLine_first_line.
    intros l. apply Hq. simpl. apply list_elem_of_here.
Qed.

Lemma setLines_fixed (entries : list (string * option string))
    (lines : list string) :
  (forall k value,
     (k, Some value) ∈ entries -> skipped (Some value) = false ->
     first_line (startsWith (k +:+ "=")) lines = Some (entry rt k value)) ->
  setLines rt entries lines = lines.
Proof.
  induction entries as [|[k v] entries IH]; intros Hall; simpl.
  - reflexivity.
  - assert (Hrest : forall k' value,
                      (k', Some value) ∈ entries -> skipped (Some value) = false ->
                      first_line (startsWith (k' +:+ "=")) lines
                      = Some (entry rt k' value)).
    { intros k' value Hin. apply Hall. apply list_elem_of_further, Hin. }
    destruct v as [value|]; [|exact (IH Hrest)].
    destruct (skipped (Some value)) eqn:Es; [exact (IH Hrest)|].
    rewrite setLine_fixed; [exact (IH Hrest)|].
    apply Hall; [apply list_elem_of_here | exact Es].
Qed.

Lemma setLines_found (entries : list (string * option string))
    (lines : list string) (key value : string) :
  NoDup entries.*1 -> independent entries.*1 ->
  (key, Some value) ∈ entries -> skipped (Some value) = false ->
  first_line (startsWith (key +:+ "=")) (setLines rt entries lines)
  = Some (entry rt key value).
Proof.
  revert lines. induction entries as [|[k v] entries IH];
    intros lines Hnd Hind Hin Hs.
  - apply elem_of_nil in Hin. contradiction.
  - simpl in Hnd. apply NoDup_cons in Hnd as [Hk Hnd].
    assert (Hind' : independent entries.*1).
    { intros a b l Ha Hb. apply Hind; simpl; apply list_elem_of_further; assumption. }
    apply elem_of_cons in Hin as [[= <- <-] | Hin].
    + simpl in Hs |- *. rewrite Hs.
      rewrite setLines_first_line; [apply setLine_found|].
      intros k' l Hk' Hl.
      apply (Hind k' key l);
        [simpl; apply list_elem_of_further, Hk' | simpl; apply list_elem_of_here
        | intros ->; contradiction | exact Hl].
    + simpl. destruct v as [value'|]; [|exact (IH lines Hnd Hind' Hin Hs)].
      destruct (skipped (Some value'));
        exact (IH _ Hnd Hind' Hin Hs).
Qed.

End SetLine.

Lemma dropTrailingEmpty_decompose (lines : list string) :
  exists n, lines = dropTrailingEmpty lines ++ repeat EmptyString n.
Proof.
  induction lines as [|l lines (n & IH)]; simpl.
  - exists 0%nat. reflexivity.
  - destruct (dropTrailingEmpty lines) as [|k kept] eqn:E.
    + destruct (Utf16.eqb l "") eqn:El.
      * apply Utf16Facts.eqb_eq in El. subst l. exists (S n). simpl. f_equal. exact IH.
      * exists n. simpl. f_equal. exact IH.
    + exists n. simpl. f_equal. exact IH.
Qed.

Lemma dropTrailingEmpty_fixed (lines : list string) :
  dropTrailingEmpty (dropTrailingEmpty lines) = dropTrailingEmpty lines.
Proof.
  induction lines as [|l lines IH]; simpl; [reflexivity|].
  destruct (dropTrailingEmpty lines) as [|k kept] eqn:E.
  - destruct (Utf16.eqb l "") eqn:El; simpl; [reflexivity|]. rewrite El. reflexivity.
  - change (dropTrailingEmpty (l :: k :: kept))
      with (match dropTrailingEmpty (k :: kept) with
            | [] => if Utf16.eqb l "" then [] else [l]
            | kept' => l :: kept'
            end).
    rewrite IH. reflexivity.
Qed.

Lemma first_line_dropTrailingEmpty (p : string -> bool) (lines : list string) :
  p EmptyString = false ->
  first_line p (dropTrailingEmpty lines) = first_line p lines.
Proof.
  intros Hp. destruct (dropTrailingEmpty_decompose lines) as (n & E).
  rewrite E at 2. unfold first_line.
  generalize (dropTrailingEmpty lines) as kept. intros kept.
  induction kept as [|l kept IH]; simpl.
  - clear E. induction n as [|n IH]; simpl; [reflexivity|]. rewrite Hp. exact IH.
  - destruct (p l); [reflexivity | exact IH].
Qed.

Lemma key_prefix_not_empty (k : string) : startsWith (k +:+ "=") EmptyString = false.
Proof. destruct k; reflexivity. Qed.

Lemma keys_NoDup : NoDup keys.
Proof. unfold keys. repeat (apply NoDup_cons; split; [|]).
  all: try apply NoDup_nil_2.
  all: intros H; repeat (apply elem_of_cons in H as [H | H]; [discriminate H|]);
    apply elem_of_nil in H; exact H.
Qed.

Lemma keys_independent : independent keys.
Proof.
  intros k k' l Hk Hk' Hne Hl. apply startsWith_spec in Hl as (x & ->).
  unfold keys in *.
  repeat (apply elem_of_cons in Hk as [-> | Hk]);
    try (apply elem_of_nil in Hk; contradiction);
    repeat (apply elem_of_cons in Hk' as [-> | Hk']);
    try (apply elem_of_nil in Hk'; contradiction);
    try contradiction; reflexivity.
Qed.

Lemma pairs_keys (env : gmap string string) : (pairs env).*1 = keys.
Proof. reflexivity. Qed.

Lemma pairs_elem (env : gmap string string) (key : string) (v : option string) :
  (key, v) ∈ pairs env <-> key ∈ keys /\ v = env !! key.
Proof.
  unfold pairs. rewrite list_elem_of_fmap. split.
  - intros (k & [= -> ->] & Hk). split; [exact Hk | reflexivity].
  - intros [Hk ->]. exists key. split; [reflexivity | exact Hk].
Qed.

Lemma updated_lines_found (rt : Runtime) (env : gmap string string)
    (lines : list string) (key value : string) :
  (key, Some value) ∈ pairs env -> skipped (Some value) = false ->
  first_line (startsWith (key +:+ "=")) (updated_lines rt env lines)
  = Some (entry rt key value).
Proof.
  intros Hin Hs. unfold updated_lines.
  rewrite first_line_dropTrailingEmpty by apply key_prefix_not_empty.
  apply setLines_found; try assumption; rewrite pairs_keys;
    [apply keys_NoDup | apply keys_independent].
Qed.

(** X17.  After the rewrite, each of the five variables whose value in the
    environment is not blank can be read back: the first line that starts
    with its name and [=] is the name, [=] and the JSON encoding of the
    value, whatever lines the file held before. *)
Theorem written_value_read_back (rt : Runtime) (env : gmap string string)
    (lines : list string) (key value : string) :
  key ∈ keys -> env !! key = Some value -> all_space value = false ->
  first_line (startsWith (key +:+ "=")) (updated_lines rt env lines)
  = Some (key +:+ "=" +:+ JSON_stringify rt (JString value)).
Proof.
  intros Hk He Hv. apply updated_lines_found.
  - apply pairs_elem. split; [exact Hk | symmetry; exact He].
  - destruct (skipped (Some value)) eqn:Es; [|reflexivity].
    apply skipped_blank in Es. congruence.
Qed.

Lemma written_value_read_back_witness :
  first_line (startsWith ("CLAWCREDIT_API_TOKEN" +:+ "="))
    (updated_lines JsonRef.runtime setup_env
       ["# local settings"; "CLAWCREDIT_API_TOKEN=old"; ""])
  = Some ("CLAWCREDIT_API_TOKEN" +:+ "="
          +:+ JSON_stringify JsonRef.runtime (JString "claw_test_token")).
Proof.
  apply (written_value_read_back JsonRef.runtime setup_env
           ["# local settings"; "CLAWCREDIT_API_TOKEN=old"; ""]
           "CLAWCREDIT_API_TOKEN" "claw_test_token").
  - apply list_elem_of_further, list_elem_of_here.
  - vm_compute. reflexivity.
  - reflexivity.
Defined.

(** *** Line by line *)

Lemma findIndex_lookup (p : string -> bool) (lines : list string) (i : nat) :
  findIndex p lines = Some i -> exists l, lines !! i = Some l /\ p l = true.
Proof.
  revert i. induction lines as [|l lines IH]; simpl; intros i; [discriminate|].
  destruct (p l) eqn:El.
  - intros [= <-]. exists l. split; [reflexivity|exact El].
  - destruct (findIndex p lines) as [j|]; [|discriminate].
    intros [= <-]. exact (IH j eq_refl).
Qed.

(** [findIndex] sees only what the predicate says of each line. *)
Lemma findIndex_imap (p : string -> bool) (f : nat -> string -> string)
    (lines : list string) :
  (forall i l, lines !! i = Some l -> p (f i l) = p l) ->
  findIndex p (imap f lines) = findIndex p lines.
Proof.
  revert f. induction lines as [|l lines IH]; intros f H; [reflexivity|].
  rewrite imap_cons. simpl. rewrite (H 0%nat l eq_refl).
  destruct (p l); [reflexivity|]. rewrite IH; [reflexivity|].
  intros i x Hx. apply (H (S i) x Hx).
Qed.

Lemma findIndex_app_miss (p : string -> bool) (lines more : list string) :
  Forall (fun l => p l = false) more ->
  findIndex p (lines ++ more) = findIndex p lines.
Proof.
  intros H. induction lines as [|l lines IH]; simpl.
  - induction H as [|x more Hx _ IHm]; simpl; [reflexivity|].
    rewrite Hx, IHm. reflexivity.
  - destruct (p l); [reflexivity|]. rewrite IH. reflexivity.
Qed.

Lemma written_pairs_elem (env : gmap string string) (key value : string) :
  (key, value) ∈ written_pairs env
  <-> key ∈ keys /\ env !! key = Some value /\ all_space value = false.
Proof.
  unfold written_pairs. rewrite list_elem_of_omap. split.
  - intros ([k v] & Hin & H). apply pairs_elem in Hin as [Hk ->].
    cbn [fst snd] in H.
    destruct (env !! k) as [x|] eqn:E; [|discriminate].
    destruct (skipped (Some x)) eqn:Es; [discriminate|]. injection H as <- <-.
    repeat split; try assumption.
    destruct (all_space x) eqn:Ea; [|reflexivity].
    apply (skipped_blank x) in Ea. congruence.
  - intros (Hk & He & Ha). exists (key, Some value). split.
    + apply pairs_elem. auto.
    + cbn [fst snd]. destruct (skipped (Some value)) eqn:Es; [|reflexivity].
      apply (skipped_blank value) in Es. congruence.
Qed.

Lemma written_pairs_keys (env : gmap string string) :
  (written_pairs env).*1 `sublist_of` keys.
Proof.
  unfold written_pairs. rewrite <- (pairs_keys env).
  induction (pairs env) as [|[k v] l IH]; [constructor|].
  rewrite fmap_cons. cbn [omap list_omap fst snd].
  destruct v as [value|]; [destruct (skipped (Some value))|];
    rewrite ?fmap_cons; cbn [fst];
    first [apply sublist_skip, IH | apply sublist_cons, IH].
Qed.

Section Rewrite.
Context (rt : Runtime).

(** The loop over the entries sets the lines of the entries that are
    written, one after the other. *)
Lemma setLines_written (env_pairs : list (string * option string))
    (lines : list string) :
  setLines rt env_pairs lines
  = foldl (fun ls kv => setLine rt kv.1 kv.2 ls) lines
      (omap (fun kv : string * option string =>
               match kv.2 with
               | Some value =>
                   if skipped (Some value) then None else Some (kv.1, value)
               | None => None
               end) env_pairs).
Proof.
  revert lines. induction env_pairs as [|[k v] l IH]; intros lines; [reflexivity|].
  cbn [setLines omap list_omap]. destruct v as [value|]; [|apply IH].
  cbn [snd fst]. destruct (skipped (Some value)); [apply IH|].
  cbn [foldl]. apply IH.
Qed.

Lemma owner_snoc (done : list (string * string)) (kv : string * string)
    (lines : list string) (i : nat) :
  owner (done ++ [kv]) lines i
  = match owner done lines i with
    | Some o => Some o
    | None => if bool_decide (place kv.1 lines = Some i) then Some kv else None
    end.
Proof.
  unfold owner. induction done as [|d done IH]; simpl.
  - destruct (bool_decide _); reflexivity.
  - destruct (bool_decide (place d.1 lines = Some i)); [reflexivity|exact IH].
Qed.

Lemma owner_key (done : list (string * string)) (lines : list string) (i : nat)
    (o : string * string) :
  owner done lines i = Some o -> o ∈ done /\ place o.1 lines = Some i.
Proof.
  unfold owner. intros H. apply List.find_some in H as [Hin H].
  apply bool_decide_eq_true in H. split; [apply list_elem_of_In, Hin|exact H].
Qed.

(** A line and what stands in its place say the same of a key that was
    not written yet. *)
Lemma rewritten_line_same (done : list (string * string)) (key : string)
    (lines : list string) (i : nat) (old : string) :
  independent (key :: done.*1) -> key ∉ done.*1 ->
  lines !! i = Some old ->
  startsWith (key +:+ "=")
    (match owner done lines i with
     | Some kv => entry rt kv.1 kv.2
     | None => old
     end)
  = startsWith (key +:+ "=") old.
Proof.
  intros Hind Hk Hold.
  destruct (owner done lines i) as [[k v]|] eqn:E; [|reflexivity].
  apply owner_key in E as [Hin Hp]. simpl in *.
  assert (Hkd : k ∈ done.*1) by (apply (list_elem_of_fmap_2 fst _ (k, v)), Hin).
  assert (Hne : k <> key) by (intros ->; contradiction).
  apply findIndex_lookup in Hp as (l & Hl & Hs).
  rewrite Hold in Hl. injection Hl as <-.
  rewrite (Hind k key old), (Hind k key (entry rt k v)); try assumption;
    try reflexivity;
    try (apply list_elem_of_further, Hkd); try apply list_elem_of_here.
  apply entry_starts.
Qed.

Lemma appended_miss (done : list (string * string)) (key : string)
    (lines : list string) :
  independent (key :: done.*1) -> key ∉ done.*1 ->
  Forall (fun l => startsWith (key +:+ "=") l = false) (appended rt done lines).
Proof.
  intros Hind Hk. unfold appended. apply Forall_fmap, Forall_forall.
  intros [k v] Hin. apply list_elem_of_In, List.filter_In in Hin as [Hin _].
  apply list_elem_of_In in Hin. simpl.
  assert (Hkd : k ∈ done.*1) by (apply (list_elem_of_fmap_2 fst _ (k, v)), Hin).
  apply (Hind k key);
    [apply list_elem_of_further, Hkd | apply list_elem_of_here
    | intros ->; contradiction | apply entry_starts].
Qed.

(** The place of a key in the lines so far is its place in the file. *)
Lemma place_so_far (done : list (string * string)) (key : string)
    (lines : list string) :
  independent (key :: done.*1) -> key ∉ done.*1 ->
  place key (rewritten rt done lines ++ appended rt done lines) = place key lines.
Proof.
  intros Hind Hk. unfold place.
  rewrite (findIndex_app_miss _ _ _ (appended_miss done key lines Hind Hk)).
  apply findIndex_imap. intros i l Hl. apply rewritten_line_same; assumption.
Qed.

Lemma appended_snoc (done : list (string * string)) (kv : string * string)
    (lines : list string) :
  appended rt (done ++ [kv]) lines
  = appended rt done lines
    ++ (if bool_decide (place kv.1 lines = None) then [entry rt kv.1 kv.2] else []).
Proof.
  unfold appended. rewrite List.filter_app, fmap_app. simpl.
  destruct (bool_decide _); reflexivity.
Qed.

(** Setting the line of one more key. *)
Lemma setLine_rewritten (done : list (string * string)) (key value : string)
    (lines : list string) :
  independent (key :: done.*1) -> key ∉ done.*1 ->
  setLine rt key value (rewritten rt done lines ++ appended rt done lines)
  = rewritten rt (done ++ [(key, value)]) lines
    ++ appended rt (done ++ [(key, value)]) lines.
Proof.
  intros Hind Hk. unfold setLine. fold (entry rt key value).
  fold (place key (rewritten rt done lines ++ appended rt done lines)).
  rewrite (place_so_far done key lines Hind Hk), appended_snoc. cbn [fst snd].
  destruct (place key lines) as [idx|] eqn:Hp.
  - rewrite bool_decide_eq_false_2 by discriminate. rewrite app_nil_r.
    destruct (findIndex_lookup _ _ _ Hp) as (old & Hold & _).
    rewrite insert_app_l
      by (unfold rewritten; rewrite length_imap; apply (lookup_lt_Some _ _ _ Hold)).
    f_equal. apply list_eq. intros j. unfold rewritten.
    destruct (decide (idx = j)) as [<-|Hne].
    + rewrite list_lookup_insert_eq
        by (rewrite length_imap; apply (lookup_lt_Some _ _ _ Hold)).
      rewrite list_lookup_imap, Hold. simpl. rewrite owner_snoc.
      destruct (owner done lines idx) as [[k v]|] eqn:E.
      * exfalso. apply owner_key in E as [Hin Hpk]. simpl in Hpk.
        assert (Hkd : k ∈ done.*1) by (apply (list_elem_of_fmap_2 fst _ (k, v)), Hin).
        apply findIndex_lookup in Hpk as (l & Hl & Hs).
        apply findIndex_lookup in Hp as (l' & Hl' & Hs').
        rewrite Hl in Hl'. injection Hl' as <-.
        rewrite (Hind k key l) in Hs'; try assumption; try discriminate;
          [apply list_elem_of_further, Hkd | apply list_elem_of_here
          | intros ->; contradiction].
      * cbn [fst]. rewrite bool_decide_eq_true_2 by exact Hp. reflexivity.
    + rewrite list_lookup_insert_ne by exact Hne. rewrite !list_lookup_imap.
      destruct (lines !! j) as [l|]; [|reflexivity]. simpl. rewrite owner_snoc.
      destruct (owner done lines j); [reflexivity|]. cbn [fst].
      rewrite bool_decide_eq_false_2 by congruence. reflexivity.
  - rewrite bool_decide_eq_true_2 by reflexivity. rewrite app_assoc.
    do 2 f_equal. unfold rewritten. apply imap_ext. intros j l Hl. simpl. rewrite owner_snoc.
    destruct (owner done lines j); [reflexivity|]. cbn [fst].
    rewrite bool_decide_eq_false_2 by (rewrite Hp; discriminate). reflexivity.
Qed.

Lemma rewritten_nil (lines : list string) : rewritten rt [] lines = lines.
Proof.
  unfold rewritten. apply list_eq. intros i. rewrite list_lookup_imap.
  destruct (lines !! i); reflexivity.
Qed.

Lemma independent_sublist (names names' : list string) :
  names `sublist_of` names' -> independent names' -> independent names.
Proof.
  intros Hs Hind k k' l Hk Hk'. apply Hind; eapply elem_of_sublist; eassumption.
Qed.

(** All the entries, one after the other. *)
Lemma foldl_setLine_rewritten (entries : list (string * string))
    (lines : list string) :
  NoDup entries.*1 -> independent entries.*1 ->
  foldl (fun ls kv => setLine rt kv.1 kv.2 ls) lines entries
  = rewritten rt entries lines ++ appended rt entries lines.
Proof.
  induction entries as [|[k v] done IH] using rev_ind; intros Hnd Hind.
  - simpl. rewrite rewritten_nil, app_nil_r. reflexivity.
  - rewrite fmap_app in Hnd, Hind. simpl in Hnd, Hind.
    apply NoDup_app in Hnd as (Hnd & Hfresh & _).
    assert (Hk : k ∉ done.*1).
    { intros Hin. apply (Hfresh k Hin). apply list_elem_of_here. }
    assert (Hind' : independent (k :: done.*1)).
    { intros a b l Ha Hb. apply Hind; apply elem_of_app.
      - apply elem_of_cons in Ha as [->|Ha]; [right; apply list_elem_of_here|tauto].
      - apply elem_of_cons in Hb as [->|Hb]; [right; apply list_elem_of_here|tauto]. }
    rewrite foldl_snoc, IH; [apply setLine_rewritten; assumption|exact Hnd|].
    intros a b l Ha Hb. apply Hind'; apply list_elem_of_further; assumption.
Qed.

End Rewrite.

(** X18.  The rewrite changes the file line by line and in place.  Every
    line keeps its position, and stays as it is unless it is the first
    line that starts with the name of a variable that is written and [=],
    in which case the entry of that variable takes its place; the entries
    of the variables that have no such line are added at the end, in their
    order; and the only lines that are removed are empty lines at the end
    of the result. *)
Theorem lines_rewritten_in_place (rt : Runtime) (env : gmap string string)
    (lines : list string) :
  updated_lines rt env lines
  = dropTrailingEmpty
      (rewritten rt (written_pairs env) lines
       ++ appended rt (written_pairs env) lines)
  /\ (exists n,
        rewritten rt (written_pairs env) lines
        ++ appended rt (written_pairs env) lines
        = updated_lines rt env lines ++ repeat EmptyString n)
  /\ List.length (rewritten rt (written_pairs env) lines) = List.length lines
  /\ (forall i old,
        lines !! i = Some old ->
        (rewritten rt (written_pairs env) lines !! i = Some old
         /\ forall key value,
              (key, value) ∈ written_pairs env -> place key lines <> Some i)
        \/ (exists key value,
              (key, value) ∈ written_pairs env
              /\ place key lines = Some i
              /\ startsWith (key +:+ "=") old = true
              /\ rewritten rt (written_pairs env) lines !! i
                 = Some (entry rt key value)))
  /\ (forall l,
        l ∈ appended rt (written_pairs env) lines
        <-> exists key value,
              (key, value) ∈ written_pairs env
              /\ place key lines = None /\ l = entry rt key value).
Proof.
  assert (Hset : setLines rt (pairs env) lines
                 = rewritten rt (written_pairs env) lines
                   ++ appended rt (written_pairs env) lines).
  { rewrite setLines_written. apply foldl_setLine_rewritten.
    - eapply sublist_NoDup; [apply keys_NoDup|apply written_pairs_keys].
    - eapply independent_sublist; [apply written_pairs_keys|apply keys_independent]. }
  split; [unfold updated_lines; rewrite Hset; reflexivity|].
  split.
  { rewrite <- Hset. unfold updated_lines. apply dropTrailingEmpty_decompose. }
  split; [unfold rewritten; apply length_imap|].
  split.
  - intros i old Hold. unfold rewritten. rewrite list_lookup_imap, Hold. simpl.
    destruct (owner (written_pairs env) lines i) as [[k v]|] eqn:E.
    + right. pose proof E as E'. apply owner_key in E' as [Hin Hp]. simpl in Hp.
      exists k, v. repeat split; try assumption.
      destruct (findIndex_lookup _ _ _ Hp) as (l & Hl & Hs).
      rewrite Hold in Hl. injection Hl as <-. exact Hs.
    + left. split; [reflexivity|]. intros key value Hin Hp.
      unfold owner in E. apply list_elem_of_In in Hin.
      pose proof (List.find_none _ _ E (key, value) Hin) as Hp'.
      cbn [fst] in Hp'. apply bool_decide_eq_false in Hp'. contradiction.
  - intros l. unfold appended. rewrite list_elem_of_fmap. split.
    + intros ([k v] & -> & Hin).
      apply list_elem_of_In, List.filter_In in Hin as [Hin Hp].
      apply bool_decide_eq_true in Hp. exists k, v.
      repeat split; [apply list_elem_of_In, Hin|exact Hp].
    + intros (k & v & Hin & Hp & ->). exists (k, v). split; [reflexivity|].
      apply list_elem_of_In, List.filter_In. split; [apply list_elem_of_In, Hin|].
      apply bool_decide_eq_true. exact Hp.
Qed.

(** X19.  The rewrite is idempotent: run again on the lines it produced,
    in the same environment, it changes nothing. *)
Theorem updated_lines_idempotent (rt : Runtime) (env : gmap string string)
    (lines : list string) :
  updated_lines rt env (updated_lines rt env lines)
  = updated_lines rt env lines.
Proof.
  unfold updated_lines at 1.
  rewrite setLines_fixed.
  - unfold updated_lines. apply dropTrailingEmpty_fixed.
  - intros k value Hin Hs. apply updated_lines_found; assumption.
Qed.

(** *** The text of the file *)

Lemma has_char_app (c : char) (a b : string) :
  has_char c (a +:+ b) = has_char c a || has_char c b.
Proof.
  induction a as [|x a IH]; simpl; [reflexivity|].
  rewrite IH. apply orb_assoc.
Qed.

Lemma no_break_app (a b : string) :
  no_break (a +:+ b) = no_break a && no_break b.
Proof.
  unfold no_break. rewrite !has_char_app.
  destruct (has_char LF a), (has_char LF b), (has_char CR a), (has_char CR b);
    reflexivity.
Qed.

Lemma no_break_cons (c : char) (l : string) :
  no_break (String c l) = true ->
  char_eqb c LF = false /\ char_eqb c CR = false /\ no_break l = true.
Proof.
  unfold no_break. simpl.
  destruct (char_eqb c LF), (char_eqb c CR); simpl;
    try discriminate; try (rewrite andb_false_r; discriminate).
  intros H. repeat split; exact H.
Qed.

(** A line and the line feed after it are read back as that line. *)
Lemma split_lines_line (l rest : string) :
  no_break l = true ->
  split_lines (l +:+ String LF rest) = l :: split_lines rest.
Proof.
  induction l as [|c l IH]; intros Hl.
  - reflexivity.
  - apply no_break_cons in Hl as (Hlf & Hcr & Hl).
    specialize (IH Hl).
    change (String c l +:+ String LF rest) with (String c (l +:+ String LF rest)).
    cbn [split_lines]. rewrite Hlf, Hcr.
    destruct (l +:+ String LF rest) as [|d tail] eqn:E.
    + destruct l; discriminate E.
    + cbn [andb]. rewrite IH. reflexivity.
Qed.

Lemma split_lines_join (lines : list string) :
  Forall (fun l => no_break l = true) lines -> lines <> [] ->
  split_lines (join (String LF EmptyString) lines +:+ String LF EmptyString)
  = lines ++ [EmptyString].
Proof.
  induction 1 as [|l lines Hl Hall IH]; intros Hne; [contradiction|].
  destruct lines as [|l' lines'].
  - change (split_lines (l +:+ String LF "") = [l; ""]).
    rewrite (split_lines_line l "" Hl). reflexivity.
  - replace (join (String LF "") (l :: l' :: lines') +:+ String LF "")
      with (l +:+ String LF (join (String LF "") (l' :: lines') +:+ String LF ""))
      by (change (join (String LF "") (l :: l' :: lines'))
            with (l +:+ String LF "" +:+ join (String LF "") (l' :: lines'));
          rewrite Utf16Facts.append_assoc; reflexivity).
    rewrite (split_lines_line l _ Hl), IH by discriminate. reflexivity.
Qed.

(** The lines of a text without carriage returns hold no line break. *)
Lemma split_lines_no_break (text : string) :
  has_char CR text = false ->
  Forall (fun l => no_break l = true) (split_lines text).
Proof.
  induction text as [|c text IH]; intros Hcr.
  - repeat constructor.
  - simpl in Hcr. apply orb_false_iff in Hcr as [Hc Hcr]. specialize (IH Hcr).
    cbn [split_lines]. destruct (char_eqb c LF) eqn:Hlf.
    + constructor; [reflexivity | exact IH].
    + assert (Hone : forall l, no_break l = true -> no_break (String c l) = true).
      { intros l. unfold no_break. simpl. rewrite Hlf, Hc. intros H. exact H. }
      destruct text as [|d text'].
      * repeat constructor. apply Hone. reflexivity.
      * rewrite Hc. cbn [andb].
        destruct (split_lines (String d text')) as [|l ls].
        -- repeat constructor. apply Hone. reflexivity.
        -- apply Forall_cons in IH as [Hl Hls].
           constructor; [apply Hone, Hl | exact Hls].
Qed.

Lemma setLines_no_break (rt : Runtime)
    (entries : list (string * option string)) (lines : list string) :
  (forall k value, (k, Some value) ∈ entries -> no_break (entry rt k value) = true) ->
  Forall (fun l => no_break l = true) lines ->
  Forall (fun l => no_break l = true) (setLines rt entries lines).
Proof.
  revert lines. induction entries as [|[k v] entries IH]; intros lines He Hl; simpl.
  - exact Hl.
  - assert (Hrest : forall k' value,
                      (k', Some value) ∈ entries -> no_break (entry rt k' value) = true).
    { intros k' value Hin. apply He, list_elem_of_further, Hin. }
    destruct v as [value|]; [|exact (IH lines Hrest Hl)].
    destruct (skipped (Some value)); [exact (IH lines Hrest Hl)|].
    apply (IH _ Hrest). unfold setLine. fold (entry rt k value).
    pose proof (He k value (list_elem_of_here _ _)) as Hnext.
    destruct (findIndex _ lines) as [idx|] eqn:E.
    + destruct (findIndex_some _ _ _ (entry rt k value) E)
        as (pre & old & post & -> & _ & _ & ->).
      apply Forall_app in Hl as [Hpre Hpost].
      apply Forall_cons in Hpost as [_ Hpost].
      apply Forall_app. split; [exact Hpre|]. constructor; assumption.
    + apply Forall_app. split; [exact Hl|]. repeat constructor. exact Hnext.
Qed.

Lemma dropTrailingEmpty_Forall (P : string -> Prop) (lines : list string) :
  Forall P lines -> Forall P (dropTrailingEmpty lines).
Proof.
  destruct (dropTrailingEmpty_decompose lines) as (n & E).
  intros H. rewrite E in H. apply Forall_app in H as [H _]. exact H.
Qed.

Lemma dropTrailingEmpty_padded (lines : list string) (n : nat) :
  dropTrailingEmpty (lines ++ repeat EmptyString n) = dropTrailingEmpty lines.
Proof.
  induction lines as [|l lines IH]; simpl.
  - induction n as [|n IHn]; simpl; [reflexivity|]. rewrite IHn. reflexivity.
  - rewrite IH. reflexivity.
Qed.

Lemma first_line_padded (p : string -> bool) (lines more : list string) (l : string) :
  first_line p lines = Some l -> first_line p (lines ++ more) = Some l.
Proof.
  unfold first_line. induction lines as [|x lines IH]; simpl; [discriminate|].
  destruct (p x); [intros H; exact H | exact IH].
Qed.

(** Empty lines after the lines the program produced are dropped by a
    second run, which changes nothing else. *)
Lemma updated_lines_padded (rt : Runtime) (env : gmap string string)
    (lines : list string) (n : nat) :
  updated_lines rt env (updated_lines rt env lines ++ repeat EmptyString n)
  = updated_lines rt env lines.
Proof.
  unfold updated_lines at 1. rewrite setLines_fixed.
  - rewrite dropTrailingEmpty_padded. unfold updated_lines.
    apply dropTrailingEmpty_fixed.
  - intros k value Hin Hs. apply first_line_padded.
    apply updated_lines_found; assumption.
Qed.

Lemma key_no_break (k : string) : k ∈ keys -> no_break (k +:+ "=") = true.
Proof.
  unfold keys. intros H.
  repeat (apply elem_of_cons in H as [-> | H]; [reflexivity|]).
  apply elem_of_nil in H. contradiction.
Qed.

(** X20.  Writing the file is idempotent on its text: when the encoder
    puts no raw line break into a string (as [JSON.stringify] never does)
    and the file held no carriage return, a second run in the same
    environment writes the very text the first one wrote.  A file that did
    not exist is written the same way. *)
Theorem update_idempotent (rt : Runtime) (existing : option string)
    (env : gmap string string) :
  (forall value, no_break (JSON_stringify rt (JString value)) = true) ->
  (forall text, existing = Some text -> has_char CR text = false) ->
  update rt (Some (update rt existing env)) env = update rt existing env.
Proof.
  intros Hrt Hcr.
  set (lines := match existing with Some text => split_lines text | None => [] end).
  assert (Hlines : Forall (fun l => no_break l = true) lines).
  { subst lines. destruct existing as [text|]; [|constructor].
    apply split_lines_no_break, Hcr. reflexivity. }
  assert (Hout : Forall (fun l => no_break l = true) (updated_lines rt env lines)).
  { unfold updated_lines. apply dropTrailingEmpty_Forall, setLines_no_break;
      [|exact Hlines].
    intros k value Hin. apply pairs_elem in Hin as [Hk _].
    unfold entry.
    replace (k +:+ "=" +:+ JSON_stringify rt (JString value))
      with ((k +:+ "=") +:+ JSON_stringify rt (JString value))
      by apply Utf16Facts.append_assoc.
    rewrite no_break_app, (key_no_break k Hk), Hrt. reflexivity. }
  assert (Hsame :
    updated_lines rt env
      (split_lines
         (join (String LF EmptyString) (updated_lines rt env lines)
          +:+ String LF EmptyString))
    = updated_lines rt env lines).
  { destruct (updated_lines rt env lines) as [|l ls] eqn:E.
    - change (updated_lines rt env ([] ++ repeat EmptyString 2) = []).
      rewrite <- E at 1. rewrite updated_lines_padded. exact E.
    - rewrite (split_lines_join _ Hout) by discriminate.
      rewrite <- E. apply (updated_lines_padded rt env lines 1). }
  unfold update. fold lines. rewrite Hsame. reflexivity.
Qed.

Lemma hex_digit_no_break (k : N) :
  char_eqb (JsonRef.hex_digit k) LF = false
  /\ char_eqb (JsonRef.hex_digit k) CR = false.
Proof.
  unfold JsonRef.hex_digit, LF, CR.
  destruct (k <? 10)%N; rewrite !Utf16Facts.char_eqb_code; simpl;
    split; bool_prop; lia.
Qed.

Lemma escape_char_no_break (c : char) : no_break (JsonRef.escape_char c) = true.
Proof.
  destruct c as [n]. unfold JsonRef.escape_char. cbv zeta. cbn [code].
  destruct (char_eqb (Char n) JsonRef.dquote); [reflexivity|].
  destruct (char_eqb (Char n) "\"); [reflexivity|].
  destruct (n =? 8)%N; [reflexivity|].
  destruct (n =? 9)%N; [reflexivity|].
  destruct (n =? 10)%N eqn:E10; [reflexivity|].
  destruct (n =? 12)%N; [reflexivity|].
  destruct (n =? 13)%N eqn:E13; [reflexivity|].
  destruct (n <? 32)%N.
  - destruct (hex_digit_no_break (n / 16)) as [H1 H2].
    destruct (hex_digit_no_break (n mod 16)) as [H3 H4].
    unfold no_break. cbn [Utf16.append Text.has_char].
    rewrite H1, H2, H3, H4. reflexivity.
  - unfold no_break, LF, CR. cbn [Text.has_char].
    rewrite !Utf16Facts.char_eqb_code. cbn [code]. rewrite E10, E13. reflexivity.
Qed.

Lemma reference_encoder_no_break (value : string) :
  no_break (JSON_stringify JsonRef.runtime (JString value)) = true.
Proof.
  simpl. unfold JsonRef.quote.
  change (String JsonRef.dquote (JsonRef.escape value) +:+ String JsonRef.dquote "")
    with (String JsonRef.dquote (JsonRef.escape value +:+ String JsonRef.dquote "")).
  assert (H : no_break (JsonRef.escape value) = true).
  { induction value as [|c value IH]; simpl; [reflexivity|].
    rewrite no_break_app, escape_char_no_break, IH. reflexivity. }
  change (String JsonRef.dquote (JsonRef.escape value +:+ String JsonRef.dquote ""))
    with (String JsonRef.dquote "" +:+ (JsonRef.escape value +:+ String JsonRef.dquote "")).
  rewrite !no_break_app, H. reflexivity.
Qed.

Lemma update_idempotent_witness :
  update JsonRef.runtime
    (Some (update JsonRef.runtime (Some "# local settings") setup_env)) setup_env
  = update JsonRef.runtime (Some "# local settings") setup_env.
Proof.
  apply (update_idempotent JsonRef.runtime (Some "# local settings") setup_env).
  - exact reference_encoder_no_break.
  - intros text [= <-]. reflexivity.
Defined.

End EnvFileFacts.
